(** * Ghost Playwright: job lifecycle and action-execution engine

    A shallow embedding of [src/interfaces.ts] (the data model) and of the
    worker module that imports it (key-value helpers, the action runner and
    the HTTP routes), followed by the properties of the job controller, the
    runner and the artifact addressing.

    The file has five parts: the program; the vocabulary in which its
    properties are stated; worked inputs; the properties that lead to the
    ten specified properties C1 to C10; further properties of the worker,
    X1 to X28.

    Conventions of the embedding.
    - JavaScript numbers that the program only compares, copies or subtracts
      (timeouts, coordinates, clock readings) are integers [Z].
    - An optional field is an [option]; JavaScript truthiness of a string is
      written out ([truthy]): [undefined] and the empty string are falsy.
    - Everything the worker awaits (browser driver, key-value writes, the
      virtual file system) is answered by the environment: a [World] carries
      the script of replies, and a reply may be an exception.  The program
      is then a function of its input and of the world, in a state-and-
      exception monad.
    - [JSON.stringify]/[JSON.parse] of a job record is the identity on the
      record (absent fields stay absent), and ISO timestamps are kept as the
      clock reading they print. *)

From Stdlib Require Import ZArith String Ascii List Bool Lia Sorted.

From stdpp Require Import base option list gmap strings.

Local Open Scope string_scope.

Local Open Scope list_scope.

Local Open Scope Z_scope.

(** * The program *)

(** ** Data model ([interfaces.ts]) *)

Inductive JobStatus := pending | running | completed | failed.

Inductive DeviceType := desktop | mobile | tablet.

Inductive BrowserType := chromium | firefox | webkit.

Inductive ActionType := click | fill | wait | screenshot | goto | scroll | expect.

Inductive ResultStatus := success | fail.

(** [getByText?: string | { text: string; exact?: boolean }] *)
Inductive TextQuery :=
| TextString (s : string)
| TextObject (text : string) (exact : option bool).

Record Action := {
  a_type : ActionType;
  a_selector : option string;
  a_getByLabel : option string;
  a_getByText : option TextQuery;
  a_getByName : option string;
  a_text : option string;
  a_timeout : option Z;
  a_url : option string;
  a_x : option Z;
  a_y : option Z;
  a_toContainText : option string
}.

Record Viewport := { width : Z; height : Z }.

Record Options := {
  o_timeout : option Z;
  o_viewport : option Viewport;
  o_userAgent : option string;
  o_generateTrace : option bool
}.

Record JobConfig := {
  deviceType : DeviceType;
  browserType : BrowserType;
  actions : list Action;
  options : option Options
}.

Record Statistics := {
  s_loadTime : Z;
  s_domContentLoaded : Z;
  s_networkRequests : Z;
  s_totalBytes : Z;
  s_screenshots : list string;
  s_finalUrl : string
}.

Record ErrorInfo := {
  e_message : string;
  e_stack : option string;
  e_screenshot : option string
}.

Record TraceStep := {
  t_action : string;
  t_timestamp : Z;
  t_duration : Z;
  t_success : bool;
  t_error : option string;
  t_screenshot : option string
}.

Record Trace := {
  steps : list TraceStep;
  traceFile : option string;
  traceViewerUrl : option string
}.

Record JobResult := {
  r_status : ResultStatus;
  r_duration : Z;
  r_timestamp : Z;
  r_statistics : option Statistics;
  r_error : option ErrorInfo;
  r_trace : option Trace
}.

Record Job := {
  j_id : string;
  j_status : JobStatus;
  j_createdAt : Z;
  j_completedAt : option Z;
  j_config : JobConfig;
  j_result : option JobResult
}.

#[global] Instance JobStatus_eq_dec : EqDecision JobStatus.
Proof. solve_decision. Defined.

#[global] Instance ActionType_eq_dec : EqDecision ActionType.
Proof. solve_decision. Defined.

#[global] Instance ResultStatus_eq_dec : EqDecision ResultStatus.
Proof. solve_decision. Defined.

(** ** Validation schemas ([actionSchema], [jobConfigSchema])

    The fields are typed by the records above; what is left of the schemas
    are the numeric ranges and the bounds on the action list.  The URL
    syntax check of [z.string().url()] is not reproduced. *)

Definition in_range (lo hi : Z) (o : option Z) : bool :=
  match o with
  | None => true
  | Some n => (lo <=? n) && (n <=? hi)
  end.

Definition actionSchema (a : Action) : bool := in_range 0 60000 (a_timeout a).

Definition optionsSchema (o : Options) : bool :=
  in_range 1000 300000 (o_timeout o)
  && match o_viewport o with
     | None => true
     | Some v => (320 <=? width v) && (width v <=? 1920)
                 && (240 <=? height v) && (height v <=? 1080)
     end.

Definition jobConfigSchema (c : JobConfig) : bool :=
  forallb actionSchema (actions c)
  && (1 <=? length (actions c))%nat && (length (actions c) <=? 50)%nat
  && match options c with None => true | Some o => optionsSchema o end.

(** ** Device configurations *)

Record DeviceConfig := { d_viewport : Viewport; d_userAgent : string }.

Definition deviceConfigs (d : DeviceType) : DeviceConfig :=
  match d with
  | desktop =>
      {| d_viewport := {| width := 1920; height := 1080 |};
         d_userAgent := "Mozilla/5.0 (Windows NT 10.0; Win64; x64) AppleWebKit/537.36 (KHTML, like Gecko) Chrome/120.0.0.0 Safari/537.36" |}
  | mobile =>
      {| d_viewport := {| width := 375; height := 667 |};
         d_userAgent := "Mozilla/5.0 (iPhone; CPU iPhone OS 17_0 like Mac OS X) AppleWebKit/605.1.15 (KHTML, like Gecko) Version/17.0 Mobile/15E148 Safari/604.1" |}
  | tablet =>
      {| d_viewport := {| width := 768; height := 1024 |};
         d_userAgent := "Mozilla/5.0 (iPad; CPU OS 17_0 like Mac OS X) AppleWebKit/605.1.15 (KHTML, like Gecko) Version/17.0 Mobile/15E148 Safari/604.1" |}
  end.

(** ** JavaScript truthiness *)

(** A string-valued optional field in a condition: present and non-empty. *)
Definition truthy (o : option string) : option string :=
  match o with
  | Some s => if decide (s = "") then None else Some s
  | None => None
  end.

(** A number in a condition: present and non-zero. *)
Definition truthyZ (o : option Z) : option Z :=
  match o with
  | Some n => if decide (n = 0) then None else Some n
  | None => None
  end.

(** [a || b] on an optional string. *)
Definition or_else (o : option string) (d : string) : string :=
  match truthy o with Some s => s | None => d end.

Definition or_elseZ (o : option Z) (d : Z) : Z :=
  match truthyZ o with Some n => n | None => d end.

(** [config.options?.generateTrace] in a condition. *)
Definition generateTrace (c : JobConfig) : bool :=
  match options c with
  | Some o => match o_generateTrace o with Some b => b | None => false end
  | None => false
  end.

(** ** Exceptions and the state-and-exception monad *)

(** What a [throw] carries: an [Error] instance ([name], [message],
    [stack]) or any other value. *)
Inductive Thrown :=
| JsError (name message : string) (stack : option string)
| JsOther.

(** [error instanceof Error ? error.message : dflt] *)
Definition message_or (dflt : string) (e : Thrown) : string :=
  match e with JsError _ m _ => m | JsOther => dflt end.

(** [error instanceof Error ? error.stack : undefined] *)
Definition stack_of (e : Thrown) : option string :=
  match e with JsError _ _ st => st | JsOther => None end.

Inductive Outcome (A : Type) :=
| Returned (a : A)
| Threw (e : Thrown).

Arguments Returned {A} a.

Arguments Threw {A} e.

Definition M (S A : Type) : Type := S -> Outcome A * S.

Section Monad.

Context {S : Type}.

Definition ret {A} (a : A) : M S A := fun s => (Returned a, s).

Definition throw {A} (e : Thrown) : M S A := fun s => (Threw e, s).

Definition bind {A B} (m : M S A) (k : A -> M S B) : M S B :=
  fun s =>
    match m s with
    | (Returned a, s') => k a s'
    | (Threw e, s') => (Threw e, s')
    end.

(** [try { m } catch (error) { h error }] *)
Definition try_catch {A} (m : M S A) (h : Thrown -> M S A) : M S A :=
  fun s =>
    match m s with
    | (Returned a, s') => (Returned a, s')
    | (Threw e, s') => h e s'
    end.

Definition gets {A} (f : S -> A) : M S A := fun s => (Returned (f s), s).

Definition modify (f : S -> S) : M S unit := fun s => (Returned tt, f s).

(** [if (c) { m }] *)
Definition when (c : bool) (m : M S unit) : M S unit :=
  if c then m else ret tt.

End Monad.

Declare Scope js_scope.

Delimit Scope js_scope with js.

Notation "x <- m ;; k" := (bind m (fun x => k))
  (at level 100, m at next level, k at level 200, right associativity) : js_scope.

Notation "m ;;; k" := (bind m (fun _ => k))
  (at level 100, k at level 200, right associativity) : js_scope.

Local Open Scope js_scope.

(** ** The world outside the worker *)

(** Element locators handed to the browser driver. *)
Inductive Locator :=
| ByLabel (label : string)
| ByText (text : string) (exact : option bool)
| ByRole (role name : string)
| BySelector (selector : string).

(** Calls on the external collaborators, with the arguments the worker
    passes. *)
Inductive Call :=
| Launch (keep_alive : Z)
| NewPage (viewport : Viewport) (userAgent : string)
| TracingStart
| TracingStop (path : string)
| SetDefaultTimeout (ms : Z)
| Goto (url : string)
| WaitForLoadState
| FirstClick (l : Locator) (timeout : option Z)
| MouseClick (x y : Z)
| Fill (l : Locator) (text : string) (timeout : option Z)
| FirstScrollIntoView (l : Locator)
| MouseWheel (x y : Z)
| WaitForTimeout (ms : Z)
| ExpectToContainText (l : Locator) (expected : string)
| Screenshot
| BrowserClose
| ReadFile (path : string)
| PutJob (key : string) (job : Job)
| PutArtifact (key : string) (data : string).

Inductive Event :=
| Did (c : Call)
| Failed (c : Call) (e : Thrown).

(** What the environment does during one awaited call: the call's result
    (a payload or an exception), a navigation of the page if one happened,
    and the network events the page emitted meanwhile. *)
Record Reply := {
  outcome : Thrown + string;
  landed : option string;
  requests : nat;
  responses : list (option Z)
}.

Definition ok : Reply :=
  {| outcome := inr ""; landed := None; requests := 0; responses := [] |}.

Definition gives (payload : string) : Reply :=
  {| outcome := inr payload; landed := None; requests := 0; responses := [] |}.

Definition raises (e : Thrown) : Reply :=
  {| outcome := inl e; landed := None; requests := 0; responses := [] |}.

Record World := {
  script : list Reply;               (* replies to the awaited calls, in order *)
  uuids : list string;               (* results of crypto.randomUUID() *)
  clock : list Z;                    (* readings of Date.now() / new Date() *)
  jobsKV : gmap string Job;          (* GHOST_PLAYWRIGHT_JOBS_KV *)
  artifactsKV : gmap string string;  (* GHOST_PLAYWRIGHT_ARTIFACTS_KV *)
  pageUrl : string;                  (* page.url() *)
  listening : bool;                  (* the page.on handlers are registered *)
  networkRequests : Z;               (* counter captured by the 'request' handler *)
  totalBytes : Z;                    (* counter captured by the 'response' handler *)
  trail : list Event                 (* calls performed so far, oldest first *)
}.

Definition set_script (x : list Reply) (w : World) : World :=
  {| script := x; uuids := uuids w; clock := clock w; jobsKV := jobsKV w;
     artifactsKV := artifactsKV w; pageUrl := pageUrl w; listening := listening w;
     networkRequests := networkRequests w; totalBytes := totalBytes w;
     trail := trail w |}.

Definition set_uuids (x : list string) (w : World) : World :=
  {| script := script w; uuids := x; clock := clock w; jobsKV := jobsKV w;
     artifactsKV := artifactsKV w; pageUrl := pageUrl w; listening := listening w;
     networkRequests := networkRequests w; totalBytes := totalBytes w;
     trail := trail w |}.

Definition set_clock (x : list Z) (w : World) : World :=
  {| script := script w; uuids := uuids w; clock := x; jobsKV := jobsKV w;
     artifactsKV := artifactsKV w; pageUrl := pageUrl w; listening := listening w;
     networkRequests := networkRequests w; totalBytes := totalBytes w;
     trail := trail w |}.

Definition set_jobsKV (x : gmap string Job) (w : World) : World :=
  {| script := script w; uuids := uuids w; clock := clock w; jobsKV := x;
     artifactsKV := artifactsKV w; pageUrl := pageUrl w; listening := listening w;
     networkRequests := networkRequests w; totalBytes := totalBytes w;
     trail := trail w |}.

Definition set_artifactsKV (x : gmap string string) (w : World) : World :=
  {| script := script w; uuids := uuids w; clock := clock w; jobsKV := jobsKV w;
     artifactsKV := x; pageUrl := pageUrl w; listening := listening w;
     networkRequests := networkRequests w; totalBytes := totalBytes w;
     trail := trail w |}.

Definition set_listening (x : bool) (w : World) : World :=
  {| script := script w; uuids := uuids w; clock := clock w; jobsKV := jobsKV w;
     artifactsKV := artifactsKV w; pageUrl := pageUrl w; listening := x;
     networkRequests := networkRequests w; totalBytes := totalBytes w;
     trail := trail w |}.

Definition tell (e : Event) (w : World) : World :=
  {| script := script w; uuids := uuids w; clock := clock w; jobsKV := jobsKV w;
     artifactsKV := artifactsKV w; pageUrl := pageUrl w; listening := listening w;
     networkRequests := networkRequests w; totalBytes := totalBytes w;
     trail := trail w ++ [e] |}.

(** The page-side effects of a reply: the URL moves, and, once the handlers
    are registered, [networkRequests++] per request and
    [totalBytes += parseInt(contentLength)] per response that has the
    header. *)
Definition content_length (o : option Z) : Z :=
  match o with Some n => n | None => 0 end.

Definition deliver (r : Reply) (w : World) : World :=
  {| script := script w; uuids := uuids w; clock := clock w; jobsKV := jobsKV w;
     artifactsKV := artifactsKV w;
     pageUrl := match landed r with Some u => u | None => pageUrl w end;
     listening := listening w;
     networkRequests :=
       if listening w then networkRequests w + Z.of_nat (requests r)
       else networkRequests w;
     totalBytes :=
       if listening w
       then fold_left (fun acc o => acc + content_length o) (responses r) (totalBytes w)
       else totalBytes w;
     trail := trail w |}.

(** [await] of an external call: the next reply of the script decides.  An
    exhausted script answers every call with a quiet success. *)
Definition await (c : Call) : M World string :=
  fun w =>
    match script w with
    | [] => (Returned "", tell (Did c) w)
    | r :: rest =>
        let w1 := deliver r (set_script rest w) in
        match outcome r with
        | inr payload => (Returned payload, tell (Did c) w1)
        | inl e => (Threw e, tell (Failed c e) w1)
        end
    end.

(** A synchronous driver call that cannot fail. *)
Definition sync (c : Call) : M World unit := modify (tell (Did c)).

Definition nil_uuid : string := "00000000-0000-4000-8000-000000000000".

Definition randomUUID : M World string :=
  fun w =>
    match uuids w with
    | [] => (Returned nil_uuid, w)
    | u :: rest => (Returned u, set_uuids rest w)
    end.

(** [Date.now()], also [new Date().toISOString()]. *)
Definition now : M World Z :=
  fun w =>
    match clock w with
    | [] => (Returned 0, w)
    | t :: rest => (Returned t, set_clock rest w)
    end.

(** ** Utility functions of the worker *)

Definition storeJob (job : Job) : M World unit :=
  let key := "job:" +:+ j_id job in
  _ <- await (PutJob key job) ;;
  modify (fun w => set_jobsKV (<[key := job]> (jobsKV w)) w).

Definition getJob (jobId : string) (w : World) : option Job :=
  jobsKV w !! ("job:" +:+ jobId).

Definition storeScreenshot (jobId screenshotId imageData : string) : M World string :=
  let key := "screenshot:" +:+ jobId +:+ ":" +:+ screenshotId +:+ ".png" in
  _ <- await (PutArtifact key imageData) ;;
  _ <- modify (fun w => set_artifactsKV (<[key := imageData]> (artifactsKV w)) w) ;;
  ret key.

Definition storeTrace (jobId traceData : string) : M World string :=
  let key := "trace:" +:+ jobId in
  _ <- await (PutArtifact key traceData) ;;
  _ <- modify (fun w => set_artifactsKV (<[key := traceData]> (artifactsKV w)) w) ;;
  ret key.

(** ** Locators and action descriptions *)

(** [getLocator(page, action)]: [null] is [None]. *)
Definition getLocator (action : Action) : option Locator :=
  match truthy (a_getByLabel action) with
  | Some label => Some (ByLabel label)
  | None =>
      match a_getByText action with
      | Some (TextObject text exact) => Some (ByText text exact)
      | Some (TextString s) =>
          if decide (s = "") then
            match truthy (a_getByName action) with
            | Some name => Some (ByRole "textbox" name)
            | None => BySelector <$> truthy (a_selector action)
            end
          else Some (ByText s None)
      | None =>
          match truthy (a_getByName action) with
          | Some name => Some (ByRole "textbox" name)
          | None => BySelector <$> truthy (a_selector action)
          end
      end
  end.

Definition type_name (t : ActionType) : string :=
  match t with
  | click => "click" | fill => "fill" | wait => "wait"
  | screenshot => "screenshot" | goto => "goto" | scroll => "scroll"
  | expect => "expect"
  end.

(** The double-quote character of the template literals. *)
Definition dq : string := String "034"%char "".

Definition quoted (s : string) : string := dq +:+ s +:+ dq.

Definition getActionDescription (action : Action) : string :=
  let locatorDesc :=
    match truthy (a_getByLabel action) with
    | Some label => "getByLabel(" +:+ quoted label +:+ ")"
    | None =>
        let below :=
          match truthy (a_getByName action) with
          | Some name => "getByName(" +:+ quoted name +:+ ")"
          | None =>
              match truthy (a_selector action) with
              | Some sel => "locator(" +:+ quoted sel +:+ ")"
              | None => ""
              end
          end in
        match a_getByText action with
        | Some (TextObject text _) => "getByText(" +:+ quoted text +:+ ")"
        | Some (TextString s) =>
            if decide (s = "") then below else "getByText(" +:+ quoted s +:+ ")"
        | None => below
        end
    end in
  let actionDesc := type_name (a_type action) in
  let actionDesc :=
    match truthy (a_text action) with
    | Some t => actionDesc +:+ " " +:+ quoted t
    | None => actionDesc
    end in
  let actionDesc :=
    match truthy (a_url action) with
    | Some u => actionDesc +:+ " " +:+ u
    | None => actionDesc
    end in
  if decide (locatorDesc = "") then actionDesc
  else actionDesc +:+ " on " +:+ locatorDesc.

(** ** The runner: [executePlaywrightSequence] *)

(** The local variables of one invocation.  [browser] and [page] record
    whether the variable has been assigned; [trace] and [screenshots] are the
    objects the loop pushes to and both exits return. *)
Record Frame := {
  browser : bool;
  page : bool;
  trace : Trace;
  screenshots : list string;
  loadTime : Z;
  domContentLoaded : Z
}.

Definition frame0 : Frame :=
  {| browser := false; page := false;
     trace := {| steps := []; traceFile := None; traceViewerUrl := None |};
     screenshots := []; loadTime := 0; domContentLoaded := 0 |}.

Definition set_browser (f : Frame) : Frame :=
  {| browser := true; page := page f; trace := trace f;
     screenshots := screenshots f; loadTime := loadTime f;
     domContentLoaded := domContentLoaded f |}.

Definition set_page (f : Frame) : Frame :=
  {| browser := browser f; page := true; trace := trace f;
     screenshots := screenshots f; loadTime := loadTime f;
     domContentLoaded := domContentLoaded f |}.

Definition push_step (st : TraceStep) (f : Frame) : Frame :=
  {| browser := browser f; page := page f;
     trace := {| steps := steps (trace f) ++ [st];
                 traceFile := traceFile (trace f);
                 traceViewerUrl := traceViewerUrl (trace f) |};
     screenshots := screenshots f; loadTime := loadTime f;
     domContentLoaded := domContentLoaded f |}.

Definition set_traceViewerUrl (u : string) (f : Frame) : Frame :=
  {| browser := browser f; page := page f;
     trace := {| steps := steps (trace f);
                 traceFile := traceFile (trace f);
                 traceViewerUrl := Some u |};
     screenshots := screenshots f; loadTime := loadTime f;
     domContentLoaded := domContentLoaded f |}.

Definition push_screenshot (p : string) (f : Frame) : Frame :=
  {| browser := browser f; page := page f; trace := trace f;
     screenshots := screenshots f ++ [p]; loadTime := loadTime f;
     domContentLoaded := domContentLoaded f |}.

Definition set_loadTime (t : Z) (f : Frame) : Frame :=
  {| browser := browser f; page := page f; trace := trace f;
     screenshots := screenshots f; loadTime := t;
     domContentLoaded := domContentLoaded f |}.

Definition set_domContentLoaded (t : Z) (f : Frame) : Frame :=
  {| browser := browser f; page := page f; trace := trace f;
     screenshots := screenshots f; loadTime := loadTime f;
     domContentLoaded := t |}.

(** The runner computes over its frame and the world. *)
Definition Run (A : Type) : Type := M (Frame * World) A.

Definition world {A} (m : M World A) : Run A :=
  fun s => let (r, w') := m (snd s) in (r, (fst s, w')).

Definition local (f : Frame -> Frame) : Run unit :=
  modify (fun s => (f (fst s), snd s)).

Definition frame {A} (f : Frame -> A) : Run A := gets (fun s => f (fst s)).

(** The path under which a stored screenshot is handed to the client. *)
Definition screenshotPath (jobId screenshotId : string) : string :=
  "/api/v1/jobs/" +:+ jobId +:+ "/screenshots/" +:+ screenshotId +:+ ".png".

(** [null.first()] *)
Definition nullFirst : Thrown :=
  JsError "TypeError" "Cannot read properties of null (reading 'first')"
    (Some "TypeError: Cannot read properties of null (reading 'first')").

(** The [switch (action.type)] of the loop body. *)
Definition performAction (jobId : string) (action : Action)
    (navigationStart : option Z) : Run unit :=
  match a_type action with
  | goto =>
      match truthy (a_url action) with
      | Some url =>
          _ <- world (await (Goto url)) ;;
          match truthyZ navigationStart with
          | Some start =>
              t <- world now ;;
              _ <- local (set_domContentLoaded (t - start)) ;;
              _ <- world (await WaitForLoadState) ;;
              t' <- world now ;;
              local (set_loadTime (t' - start))
          | None => ret tt
          end
      | None => ret tt
      end
  | click =>
      match getLocator action with
      | Some clickLocator =>
          _ <- world (await (FirstClick clickLocator (a_timeout action))) ;; ret tt
      | None =>
          match a_x action, a_y action with
          | Some x, Some y => _ <- world (await (MouseClick x y)) ;; ret tt
          | _, _ => ret tt
          end
      end
  | fill =>
      match getLocator action, truthy (a_text action) with
      | Some fillLocator, Some text =>
          _ <- world (await (Fill fillLocator text (a_timeout action))) ;; ret tt
      | _, _ => ret tt
      end
  | scroll =>
      match getLocator action with
      | Some scrollLocator =>
          _ <- world (await (FirstScrollIntoView scrollLocator)) ;; ret tt
      | None =>
          match a_x action, a_y action with
          | Some x, Some y => _ <- world (await (MouseWheel x y)) ;; ret tt
          | _, _ => ret tt
          end
      end
  | wait =>
      _ <- world (await (WaitForTimeout (or_elseZ (a_timeout action) 1000))) ;; ret tt
  | expect =>
      match truthy (a_toContainText action) with
      | Some expected =>
          match getLocator action with
          | None => throw nullFirst
          | Some assertionLocator =>
              _ <- world (await (ExpectToContainText assertionLocator expected)) ;;
              ret tt
          end
      | None => ret tt
      end
  | screenshot =>
      screenshotBuffer <- world (await Screenshot) ;;
      screenshotId <- world randomUUID ;;
      _ <- world (storeScreenshot jobId screenshotId screenshotBuffer) ;;
      local (push_screenshot (screenshotPath jobId screenshotId))
  end.

(** The [catch] of the loop body. *)
Definition recordFailure (jobId : string) (action : Action) (stepStart : Z)
    (error : Thrown) : Run unit :=
  t <- world now ;;
  errorScreenshotBuffer <-
    try_catch (b <- world (await Screenshot) ;; ret (Some b))
              (fun _ => ret None) ;;
  errorScreenshot <-
    match errorScreenshotBuffer with
    | Some buffer =>
        screenshotId <- world randomUUID ;;
        _ <- world (storeScreenshot jobId screenshotId buffer) ;;
        ret (Some (screenshotPath jobId screenshotId))
    | None => ret None
    end ;;
  ts <- world now ;;
  _ <- local (push_step
                {| t_action := getActionDescription action;
                   t_timestamp := ts;
                   t_duration := t - stepStart;
                   t_success := false;
                   t_error := Some (message_or "Unknown error" error);
                   t_screenshot := truthy errorScreenshot |}) ;;
  throw error.

(** One iteration of the action loop: the [try] with its [catch]. *)
Definition runStep (jobId : string) (action : Action) : Run unit :=
  stepStart <- world now ;;
  navigationStart <-
    (if decide (a_type action = goto) then t <- world now ;; ret (Some t)
     else ret None) ;;
  try_catch
    (_ <- performAction jobId action navigationStart ;;
     t <- world now ;;
     ts <- world now ;;
     local (push_step
              {| t_action := getActionDescription action;
                 t_timestamp := ts;
                 t_duration := t - stepStart;
                 t_success := true;
                 t_error := None;
                 t_screenshot := None |}))
    (recordFailure jobId action stepStart).

(** [for (let i = 0; i < config.actions.length; i++)] *)
Fixpoint runActions (jobId : string) (todo : list Action) : Run unit :=
  match todo with
  | [] => ret tt
  | action :: rest => _ <- runStep jobId action ;; runActions jobId rest
  end.

Definition traceViewer (jobId : string) : string :=
  "https://trace.playwright.dev/?trace=https://ghost-playwright.rakhimd.workers.dev/api/v1/jobs/"
  +:+ jobId +:+ "/trace".

(** The body of the outer [try]. *)
Definition runBody (jobId : string) (config : JobConfig) (startTime : Z) : Run JobResult :=
  let deviceConfig := deviceConfigs (deviceType config) in
  _ <- world (await (Launch 600000)) ;;
  _ <- local set_browser ;;
  _ <- world (await (NewPage
                      (default (d_viewport deviceConfig) (options config ≫= o_viewport))
                      (or_else (options config ≫= o_userAgent) (d_userAgent deviceConfig)))) ;;
  _ <- local set_page ;;
  _ <- when (generateTrace config) (_ <- world (await TracingStart) ;; ret tt) ;;
  _ <- world (sync (SetDefaultTimeout (or_elseZ (options config ≫= o_timeout) 30000))) ;;
  _ <- world (modify (set_listening true)) ;;
  _ <- runActions jobId (actions config) ;;
  _ <- when (generateTrace config) (_ <- world (await (TracingStop "trace.zip")) ;; ret tt) ;;
  finalUrl <- world (gets pageUrl) ;;
  t <- world now ;;
  _ <- world (await BrowserClose) ;;
  _ <- when (generateTrace config)
         (file <- world (await (ReadFile "trace.zip")) ;;
          _ <- world (storeTrace jobId file) ;;
          local (set_traceViewerUrl (traceViewer jobId))) ;;
  ts <- world now ;;
  f <- frame id ;;
  reqs <- world (gets networkRequests) ;;
  bytes <- world (gets totalBytes) ;;
  ret {| r_status := success;
         r_duration := t - startTime;
         r_timestamp := ts;
         r_statistics :=
           Some {| s_loadTime := loadTime f;
                   s_domContentLoaded := domContentLoaded f;
                   s_networkRequests := reqs;
                   s_totalBytes := bytes;
                   s_screenshots := screenshots f;
                   s_finalUrl := finalUrl |};
         r_error := None;
         r_trace := Some (trace f) |}.

(** The outer [catch]. *)
Definition runRescue (jobId : string) (startTime : Z) (error : Thrown) : Run JobResult :=
  t <- world now ;;
  hasPage <- frame page ;;
  errorScreenshot <-
    try_catch
      (if hasPage then
         screenshotBuffer <- world (await Screenshot) ;;
         screenshotId <- world randomUUID ;;
         _ <- world (storeScreenshot jobId screenshotId screenshotBuffer) ;;
         ret (Some (screenshotPath jobId screenshotId))
       else ret None)
      (fun _ => ret None) ;;
  hasBrowser <- frame browser ;;
  _ <- when hasBrowser
         (try_catch (_ <- world (await BrowserClose) ;; ret tt) (fun _ => ret tt)) ;;
  ts <- world now ;;
  tr <- frame trace ;;
  ret {| r_status := fail;
         r_duration := t - startTime;
         r_timestamp := ts;
         r_statistics := None;
         r_error :=
           Some {| e_message := message_or "Unknown error" error;
                   e_stack := stack_of error;
                   e_screenshot := errorScreenshot |};
         r_trace := Some tr |}.

Definition executePlaywrightSequence (jobId : string) (config : JobConfig)
    : M World JobResult :=
  fun w =>
    let run : Run JobResult :=
      startTime <- world now ;;
      try_catch (runBody jobId config startTime) (runRescue jobId startTime) in
    let (r, s) := run (frame0, w) in (r, snd s).

(** ** The job controller: HTTP routes *)

Inductive Body :=
| ErrorBody (error : string)
| InternalErrorBody (error : string) (message : option string)
| NotFoundBody (error message : string)
| AcceptedBody (jobId status message : string)
| JobBody (job : Job)
| DeletedBody (message jobId : string).

Inductive Response :=
| Json (status : Z) (body : Body)
| Blob (headers : list (string * string)) (data : string).

Definition http_status (r : Response) : Z :=
  match r with Json st _ => st | Blob _ _ => 200 end.

(** [app.onError] *)
Definition onError (err : Thrown) : Response :=
  Json 500 (InternalErrorBody "Internal server error"
              (match err with JsError _ m _ => Some m | JsOther => None end)).

(** [app.notFound] *)
Definition notFound : Response :=
  Json 404 (NotFoundBody "Not found" "The requested endpoint does not exist").

Definition with_status (job : Job) (st : JobStatus) : Job :=
  {| j_id := j_id job; j_status := st; j_createdAt := j_createdAt job;
     j_completedAt := j_completedAt job; j_config := j_config job;
     j_result := j_result job |}.

Definition finished (job : Job) (st : JobStatus) (completedAt : Z)
    (result : JobResult) : Job :=
  {| j_id := j_id job; j_status := st; j_createdAt := j_createdAt job;
     j_completedAt := Some completedAt; j_config := j_config job;
     j_result := Some result |}.

(** The asynchronous function handed to [c.executionCtx.waitUntil]. *)
Definition backgroundTask (job : Job) (config : JobConfig) : M World unit :=
  try_catch
    (_ <- storeJob (with_status job running) ;;
     result <- executePlaywrightSequence (j_id job) config ;;
     completedAt <- now ;;
     storeJob (finished job
                 (if decide (r_status result = success) then completed else failed)
                 completedAt result))
    (fun error =>
       completedAt <- now ;;
       timestamp <- now ;;
       storeJob (finished job failed completedAt
                   {| r_status := fail;
                      r_duration := 0;
                      r_timestamp := timestamp;
                      r_statistics := None;
                      r_error :=
                        Some {| e_message := message_or "Test execution failed" error;
                                e_stack := stack_of error;
                                e_screenshot := None |};
                      r_trace := None |})).

(** [POST /api/v1/jobs].  The request body arrives already in the shape of a
    [JobConfig]; the validator checks the rest of the schema.  The detached
    task is run to its end before the world is handed back; its rejection is
    seen by nobody. *)
Definition postJob (value : JobConfig) : M World Response :=
  if negb (jobConfigSchema value) then
    ret (Json 400 (ErrorBody "Invalid request body"))
  else
    try_catch
      (let config := value in
       jobId <- randomUUID ;;
       createdAt <- now ;;
       let job := {| j_id := jobId; j_status := pending; j_createdAt := createdAt;
                     j_completedAt := None; j_config := config;
                     j_result := None |} in
       _ <- storeJob job ;;
       _ <- try_catch (backgroundTask job config) (fun _ => ret tt) ;;
       ret (Json 202 (AcceptedBody jobId "pending" "Test job submitted successfully")))
      (fun err => ret (onError err)).

(** [GET /api/v1/jobs/:jobId] *)
Definition getJobRoute (jobId : string) (w : World) : Response :=
  match getJob jobId w with
  | None => Json 404 (ErrorBody "Job not found")
  | Some job => Json 200 (JobBody job)
  end.

(** The response headers of the trace route. *)
Definition zipHeaders (jobId : string) : list (string * string) :=
  [("Content-Type", "application/zip");
   ("Content-Disposition",
    "attachment; filename=" +:+ quoted ("trace-" +:+ jobId +:+ ".zip"));
   ("Cache-Control", "public, max-age=3600")].

(** [GET /api/v1/jobs/:jobId/trace] *)
Definition getTraceRoute (jobId : string) (w : World) : Response :=
  match artifactsKV w !! ("trace:" +:+ jobId) with
  | None => Json 404 (ErrorBody "Trace file not found")
  | Some traceData => Blob (zipHeaders jobId) traceData
  end.

(** [kv.list({ prefix })]: the names of the stored keys that start with
    [prefix]. *)
Definition listKeys (pre : string) (kv : gmap string string) : list string :=
  filter (fun k => String.prefix pre k = true) (map_to_list kv).*1.

(** [DELETE /api/v1/jobs/:jobId] *)
Definition deleteJobRoute (jobId : string) (w : World) : Response * World :=
  if bool_decide (jobId = "") || negb (String.prefix "job_" jobId) then
    (Json 400 (ErrorBody "Invalid job ID"), w)
  else
    match getJob jobId w with
    | None => (Json 404 (ErrorBody "Job not found"), w)
    | Some _ =>
        let w1 := set_jobsKV (delete ("job:" +:+ jobId) (jobsKV w)) w in
        let w2 := set_artifactsKV (delete ("trace:" +:+ jobId) (artifactsKV w1)) w1 in
        let screenshotArtifactKeys := listKeys ("screenshot:" +:+ jobId) (artifactsKV w2) in
        let w3 := set_artifactsKV
                    (foldr delete (artifactsKV w2) screenshotArtifactKeys)
                    w2 in
        (Json 200 (DeletedBody "Job deleted successfully" jobId), w3)
    end.

(** The response headers of the screenshot route. *)
Definition pngHeaders : list (string * string) :=
  [("Content-Type", "image/png"); ("Cache-Control", "public, max-age=3600")].

(** [GET /api/v1/jobs/:jobId/screenshots/:screenshotId] *)
Definition getScreenshotRoute (jobId screenshotId : string) (w : World) : Response :=
  let key := "screenshot:" +:+ jobId +:+ ":" +:+ screenshotId in
  match artifactsKV w !! key with
  | None => Json 404 (ErrorBody "Screenshot not found")
  | Some screenshotData => Blob pngHeaders screenshotData
  end.

(** *** The router

    A request path is cut at every slash; a [:name] placeholder of a route
    takes one whole, non-empty segment.  (The framework also percent-decodes
    a parameter; the identifiers of this program contain no percent sign.) *)

Fixpoint segments (path : string) : list string :=
  match path with
  | EmptyString => [""]
  | String c rest =>
      if decide (c = "/"%char) then "" :: segments rest
      else match segments rest with
           | seg :: segs => String c seg :: segs
           | [] => [String c ""]
           end
  end.

Definition routeGet (path : string) (w : World) : Response :=
  match segments path with
  | [""; "api"; "v1"; "jobs"; jobId] =>
      if decide (jobId = "") then notFound else getJobRoute jobId w
  | [""; "api"; "v1"; "jobs"; jobId; "trace"] =>
      if decide (jobId = "") then notFound else getTraceRoute jobId w
  | [""; "api"; "v1"; "jobs"; jobId; "screenshots"; screenshotId] =>
      if bool_decide (jobId = "") || bool_decide (screenshotId = "") then notFound
      else getScreenshotRoute jobId screenshotId w
  | _ => notFound
  end.

Definition routeDelete (path : string) (w : World) : Response * World :=
  match segments path with
  | [""; "api"; "v1"; "jobs"; jobId] =>
      if decide (jobId = "") then (notFound, w) else deleteJobRoute jobId w
  | _ => (notFound, w)
  end.

(** * Vocabulary of the properties *)

(** ** Observations on a run *)

(** A world in which nothing has happened yet, given what the environment
    will answer. *)
Definition boot (replies : list Reply) (ids : list string) (times : list Z) : World :=
  {| script := replies; uuids := ids; clock := times;
     jobsKV := ∅; artifactsKV := ∅; pageUrl := "about:blank";
     listening := false; networkRequests := 0; totalBytes := 0; trail := [] |}.

(** The job records written to the job store, oldest first. *)
Definition written (t : list Event) : list Job :=
  omap (fun e => match e with Did (PutJob _ job) => Some job | _ => None end) t.

(** How often the browser session was asked to close. *)
Definition is_close (e : Event) : bool :=
  match e with
  | Did BrowserClose | Failed BrowserClose _ => true
  | _ => false
  end.

Definition closes (t : list Event) : nat := length (List.filter is_close t).

(** ** Identifiers

    [crypto.randomUUID()] returns 36 characters: lower-case hexadecimal
    digits in groups of 8-4-4-4-12, separated by dashes. *)

Definition hex_digit (c : ascii) : bool :=
  (("0" <=? c) && (c <=? "9") || ("a" <=? c) && (c <=? "f"))%char.

Definition dash_position (i : nat) : bool :=
  (i =? 8)%nat || (i =? 13)%nat || (i =? 18)%nat || (i =? 23)%nat.

Fixpoint uuid_from (i : nat) (s : string) : bool :=
  match s with
  | EmptyString => (i =? 36)%nat
  | String c rest =>
      (if dash_position i then (c =? "-")%char else hex_digit c)
      && uuid_from (S i) rest
  end.

Definition is_uuid (s : string) : bool := uuid_from 0 s.

(** No slash occurs in the string. *)
Fixpoint slashless (s : string) : bool :=
  match s with
  | EmptyString => true
  | String c rest => negb (c =? "/")%char && slashless rest
  end.

(** A world whose identifier source hands out UUIDs only. *)
Definition uuid_source (w : World) : Prop := Forall (fun u => is_uuid u = true) (uuids w).

Definition screenshotKey (jobId screenshotId : string) : string :=
  "screenshot:" +:+ jobId +:+ ":" +:+ screenshotId +:+ ".png".

(** ** Reasoning about monadic code: weakest preconditions

    [wp m Q E s]: run from [s], [m] ends in a state satisfying [Q] when it
    returns and [E] when it throws. *)

Definition wp {S A} (m : M S A) (Q : A -> S -> Prop) (E : Thrown -> S -> Prop)
    (s : S) : Prop :=
  match m s with
  | (Returned a, s') => Q a s'
  | (Threw e, s') => E e s'
  end.

(** *** What one step of the environment can change *)

(** A key of the artifact store holds a blob that a write of the trail put
    there. *)
Definition Served (w : World) (key : string) : Prop :=
  exists data,
    artifactsKV w !! key = Some data /\ Did (PutArtifact key data) ∈ trail w.

(** [w'] is reached from [w] by steps of the runner: the trail has grown by
    events that write no job record, the job store is the same, served keys
    stay served, and a source of UUIDs stays one. *)
Record extends (w w' : World) : Prop := {
  ext_trail : exists ev, trail w' = trail w ++ ev /\ written ev = [];
  ext_jobs : jobsKV w' = jobsKV w;
  ext_served : forall key, Served w key -> Served w' key;
  ext_uuids : uuid_source w -> uuid_source w'
}.

(** The world after an awaited call that is not a store write: one event
    more, both stores and the identifier source untouched. *)
Definition after (w : World) (ev : Event) (w' : World) : Prop :=
  trail w' = trail w ++ [ev] /\ artifactsKV w' = artifactsKV w
  /\ jobsKV w' = jobsKV w /\ uuids w' = uuids w /\ clock w' = clock w.

(** ** Invariant of the runner *)

(** A reference path of the job whose blob the artifact store serves; its
    screenshot id is a UUID when the identifier source of the starting world
    [w0] hands out UUIDs. *)
Definition ServedPath (jobId : string) (w0 w : World) (p : string) : Prop :=
  exists sid,
    (uuid_source w0 -> is_uuid sid = true)
    /\ p = screenshotPath jobId sid
    /\ Served w (screenshotKey jobId sid).

(** Every screenshot reference the frame holds. *)
Definition refs (f : Frame) : list string :=
  screenshots f ++ omap t_screenshot (steps (trace f)).

Record RunInv (jobId : string) (w0 : World) (s : Frame * World) : Prop := {
  inv_ext : extends w0 (snd s);
  inv_refs : Forall (ServedPath jobId w0 (snd s)) (refs (fst s));
  inv_file : traceFile (trace (fst s)) = None
}.

(** ** What the runner hands back *)

(** Every screenshot reference of a result: the statistics list, the error
    screenshot and the screenshots of the trace steps. *)
Definition result_refs (r : JobResult) : list string :=
  match r_statistics r with Some st => s_screenshots st | None => [] end
  ++ match r_error r ≫= e_screenshot with Some p => [p] | None => [] end
  ++ match r_trace r with Some tr => omap t_screenshot (steps tr) | None => [] end.

Record RunPost (jobId : string) (config : JobConfig) (w0 : World)
    (res : JobResult) (w : World) : Prop := {
  post_ext : extends w0 w;
  post_refs : Forall (ServedPath jobId w0 w) (result_refs res);
  post_file : exists tr, r_trace res = Some tr /\ traceFile tr = None;
  post_trace :
    r_status res = success -> generateTrace config = true ->
    exists tr,
      r_trace res = Some tr
      /\ traceViewerUrl tr = Some (traceViewer jobId)
      /\ Served w ("trace:" +:+ jobId)
}.

(** *** Trace steps *)

(** The step recorded for an action that returned. *)
Definition StepOk (action : Action) (st : TraceStep) : Prop :=
  t_success st = true /\ t_action st = getActionDescription action
  /\ t_error st = None.

(** The step recorded for an action that threw [e]. *)
Definition StepFailed (action : Action) (e : Thrown) (st : TraceStep) : Prop :=
  t_success st = false /\ t_action st = getActionDescription action
  /\ t_error st = Some (message_or "Unknown error" e).

(** The last thing that happened is a write to the artifact store that
    threw [e]. *)
Definition StoreFailed (e : Thrown) (w : World) : Prop :=
  exists key data, last (trail w) = Some (Failed (PutArtifact key data) e).

(** ** The job store: what the controller writes *)

Definition terminal (st : JobStatus) : bool :=
  match st with
  | completed | failed => true
  | pending | running => false
  end.

(** Position of a status along pending, running, terminal. *)
Definition rank (st : JobStatus) : nat :=
  match st with
  | pending => 0
  | running => 1
  | completed | failed => 2
  end.

(** A write to the job store that threw. *)
Definition put_job_failed (ev : Event) : bool :=
  match ev with
  | Failed (PutJob _ _) _ => true
  | _ => false
  end.

(** The records the detached task writes for [job]: the running record and
    then one finished record; when a write to the store has failed
    ([flag]), possibly less. *)
Definition TaskWrites (job : Job) (flag : bool) (ws : list Job) : Prop :=
  (exists st completedAt result,
      terminal st = true
      /\ ws = [with_status job running; finished job st completedAt result])
  \/ (flag = true
      /\ (ws = [] \/ ws = [with_status job running]
          \/ exists completedAt result, ws = [finished job failed completedAt result])).

(** The records one submission writes: none (rejected body, or the first
    write failed), or the pending record followed by the task's writes. *)
Definition JobWrites (config : JobConfig) (flag : bool) (ws : list Job) : Prop :=
  (ws = [] /\ (flag = true \/ jobConfigSchema config = false))
  \/ (exists job rest,
        ws = job :: rest
        /\ j_status job = pending /\ j_completedAt job = None
        /\ j_result job = None /\ j_config job = config
        /\ jobConfigSchema config = true
        /\ TaskWrites job flag rest).

(** [result] is there exactly for the terminal states, and so is
    [completedAt]. *)
Definition well_formed (job : Job) : Prop :=
  (is_Some (j_result job) <-> terminal (j_status job) = true)
  /\ (is_Some (j_completedAt job) <-> terminal (j_status job) = true).

Definition statusesWritten (config : JobConfig) (w : World) : list JobStatus :=
  map j_status (written (trail (snd (postJob config w)))).

(** *** Locator resolution as the specification words it

    "Picks the first set field in the fixed order getByLabel, getByText,
    getByName, selector": a field is set when it is present. *)
Definition locatorBySpec (action : Action) : option Locator :=
  match a_getByLabel action with
  | Some label => Some (ByLabel label)
  | None =>
      match a_getByText action with
      | Some (TextString s) => Some (ByText s None)
      | Some (TextObject text exact) => Some (ByText text exact)
      | None =>
          match a_getByName action with
          | Some name => Some (ByRole "textbox" name)
          | None => BySelector <$> a_selector action
          end
      end
  end.

(** The action with its falsy locator fields (empty strings) taken as not
    set. *)
Definition truthyFields (action : Action) : Action :=
  {| a_type := a_type action;
     a_selector := truthy (a_selector action);
     a_getByLabel := truthy (a_getByLabel action);
     a_getByText :=
       match a_getByText action with
       | Some (TextString s) => if decide (s = "") then None else Some (TextString s)
       | other => other
       end;
     a_getByName := truthy (a_getByName action);
     a_text := a_text action; a_timeout := a_timeout action;
     a_url := a_url action; a_x := a_x action; a_y := a_y action;
     a_toContainText := a_toContainText action |}.

(** ** Descriptions of actions *)

(** How [getActionDescription] writes a locator. *)
Definition describe (l : Locator) : string :=
  match l with
  | ByLabel label => "getByLabel(" +:+ quoted label +:+ ")"
  | ByText text _ => "getByText(" +:+ quoted text +:+ ")"
  | ByRole _ name => "getByName(" +:+ quoted name +:+ ")"
  | BySelector selector => "locator(" +:+ quoted selector +:+ ")"
  end.

(** The part of a description that names the action: its type, then the
    text to type and the URL to open when they are given. *)
Definition describeVerb (action : Action) : string :=
  type_name (a_type action)
  +:+ match truthy (a_text action) with Some t => " " +:+ quoted t | None => "" end
  +:+ match truthy (a_url action) with Some u => " " +:+ u | None => "" end.

(** ** The results of the runner *)

Definition isShot (action : Action) : bool := bool_decide (a_type action = screenshot).

(** The trace of a run that got as far as action [k]: one successful step
    for each of the first [k] actions, then nothing or the failed step of
    action [k]. *)
Definition Recorded (todo : list Action) (sts : list TraceStep) : Prop :=
  exists k done,
    Forall2 StepOk (take k todo) done
    /\ (sts = done
        \/ exists action st,
             todo !! k = Some action
             /\ t_success st = false
             /\ t_action st = getActionDescription action
             /\ is_Some (t_error st)
             /\ sts = done ++ [st]).

(** When the last step of a trace is a failed one, it carries the message
    of [error]. *)
Definition LastBlames (error : Thrown) (sts : list TraceStep) : Prop :=
  forall st, last sts = Some st -> t_success st = false ->
             t_error st = Some (message_or "Unknown error" error).

(** The screenshot list of a frame after the loop has run over [todo]: one
    path of the job per screenshot action. *)
Definition ShotsOf (jobId : string) (todo : list Action) (paths : list string) : Prop :=
  exists ids,
    paths = map (screenshotPath jobId) ids
    /\ length ids = length (List.filter isShot todo).

(** What every result of the runner satisfies. *)
Record ResultFacts (jobId : string) (config : JobConfig) (res : JobResult) : Prop := {
  rf_shape :
    (r_status res = success /\ is_Some (r_statistics res) /\ r_error res = None)
    \/ (r_status res = fail /\ r_statistics res = None /\ is_Some (r_error res));
  rf_trace :
    exists tr,
      r_trace res = Some tr
      /\ Recorded (actions config) (steps tr)
      /\ (r_status res = success ->
          Forall2 StepOk (actions config) (steps tr)
          /\ traceViewerUrl tr
             = if generateTrace config then Some (traceViewer jobId) else None)
      /\ (r_status res = fail -> traceViewerUrl tr = None)
      /\ (forall st err,
            last (steps tr) = Some st -> t_success st = false ->
            r_error res = Some err -> t_error st = Some (e_message err));
  rf_shots :
    forall st, r_statistics res = Some st ->
               ShotsOf jobId (actions config) (s_screenshots st)
}.

(** The result of the outer [catch] for [error] when no screenshot was
    taken: a failure that carries the error's message and stack and the
    trace as it stands. *)
Definition bareFailure (error : Thrown) (tr : Trace) (res : JobResult) : Prop :=
  r_status res = fail /\ r_statistics res = None
  /\ r_error res = Some {| e_message := message_or "Unknown error" error;
                           e_stack := stack_of error; e_screenshot := None |}
  /\ r_trace res = Some tr.

(** ** The calls of the runner *)

(** The driver call the [switch] of the loop makes for an action, as its
    fields decide; [None] when the action lacks what its type needs. *)
Definition request (action : Action) : option Call :=
  match a_type action with
  | goto => Goto <$> truthy (a_url action)
  | click =>
      match getLocator action with
      | Some l => Some (FirstClick l (a_timeout action))
      | None =>
          match a_x action, a_y action with
          | Some x, Some y => Some (MouseClick x y)
          | _, _ => None
          end
      end
  | fill =>
      match getLocator action, truthy (a_text action) with
      | Some l, Some text => Some (Fill l text (a_timeout action))
      | _, _ => None
      end
  | scroll =>
      match getLocator action with
      | Some l => Some (FirstScrollIntoView l)
      | None =>
          match a_x action, a_y action with
          | Some x, Some y => Some (MouseWheel x y)
          | _, _ => None
          end
      end
  | wait => Some (WaitForTimeout (or_elseZ (a_timeout action) 1000))
  | expect =>
      match truthy (a_toContainText action), getLocator action with
      | Some expected, Some l => Some (ExpectToContainText l expected)
      | _, _ => None
      end
  | screenshot => Some Screenshot
  end.

(** An [expect] action with a text to look for and no locator to look in:
    the one action that throws by itself. *)
Definition blindExpect (action : Action) : bool :=
  match a_type action, truthy (a_toContainText action), getLocator action with
  | expect, Some _, None => true
  | _, _, _ => false
  end.

Definition call_of (e : Event) : Call :=
  match e with Did c | Failed c _ => c end.

(** The calls one iteration of the loop may make for [action]. *)
Definition stepCall (jobId : string) (action : Action) (c : Call) : Prop :=
  request action = Some c
  \/ (c = WaitForLoadState /\ a_type action = goto)
  \/ c = Screenshot
  \/ exists sid data, c = PutArtifact (screenshotKey jobId sid) data.

(** The calls a run of [config] for the job [jobId] may make. *)
Definition prescribed (jobId : string) (config : JobConfig) (c : Call) : Prop :=
  match c with
  | Launch keep_alive => keep_alive = 600000
  | NewPage viewport userAgent =>
      viewport = default (d_viewport (deviceConfigs (deviceType config)))
                         (options config ≫= o_viewport)
      /\ userAgent = or_else (options config ≫= o_userAgent)
                             (d_userAgent (deviceConfigs (deviceType config)))
  | TracingStart => generateTrace config = true
  | TracingStop path => generateTrace config = true /\ path = "trace.zip"
  | ReadFile path => generateTrace config = true /\ path = "trace.zip"
  | SetDefaultTimeout ms => ms = or_elseZ (options config ≫= o_timeout) 30000
  | WaitForLoadState => exists action, action ∈ actions config /\ a_type action = goto
  | Screenshot => True
  | BrowserClose => True
  | PutJob _ _ => False
  | PutArtifact key _ =>
      (key = "trace:" +:+ jobId /\ generateTrace config = true)
      \/ exists sid, key = screenshotKey jobId sid
  | Goto _ | FirstClick _ _ | MouseClick _ _ | Fill _ _ _ | FirstScrollIntoView _
  | MouseWheel _ _ | WaitForTimeout _ | ExpectToContainText _ _ =>
      exists action, action ∈ actions config /\ request action = Some c
  end.

(** [w'] is reached from [w] by calls that all satisfy [P], and the artifact
    store has changed at most at the keys those calls wrote. *)
Definition Issued (P : Call -> Prop) (w w' : World) : Prop :=
  exists new,
    trail w' = trail w ++ new
    /\ Forall (fun e => P (call_of e)) new
    /\ (forall key, (forall data, Did (PutArtifact key data) ∉ new) ->
                    artifactsKV w' !! key = artifactsKV w !! key).

(** The arguments of a driver call are within the bounds the request schema
    sets: the viewport, the timeouts, and a user agent that is not empty. *)
Definition inBounds (c : Call) : Prop :=
  match c with
  | NewPage viewport userAgent =>
      320 <= width viewport <= 1920 /\ 240 <= height viewport <= 1080
      /\ userAgent <> ""
  | SetDefaultTimeout ms => 1000 <= ms <= 300000
  | WaitForTimeout ms => 0 < ms <= 60000
  | FirstClick _ (Some timeout) => 0 <= timeout <= 60000
  | Fill _ _ (Some timeout) => 0 <= timeout <= 60000
  | _ => True
  end.

(** A call that belongs to the recording of a trace bundle. *)
Definition tracingCall (jobId : string) (c : Call) : bool :=
  match c with
  | TracingStart | TracingStop _ | ReadFile _ => true
  | PutArtifact key _ => bool_decide (key = "trace:" +:+ jobId)
  | _ => false
  end.

(** The calls of a trail that carry out an action, in order; the calls that
    failed are not among them. *)
Definition performed (t : list Event) : list Call :=
  omap (fun e =>
          match e with
          | Did c =>
              match c with
              | Goto _ | FirstClick _ _ | MouseClick _ _ | Fill _ _ _
              | FirstScrollIntoView _ | MouseWheel _ _ | WaitForTimeout _
              | ExpectToContainText _ _ | Screenshot => Some c
              | _ => None
              end
          | Failed _ _ => None
          end) t.

(** ** The world in which nothing fails *)

(** A reply that is not an exception. *)
Definition quiet (r : Reply) : bool :=
  match outcome r with inr _ => true | inl _ => false end.

(** A world in which no awaited call will throw. *)
Definition calm (w : World) : Prop := Forall (fun r => quiet r = true) (script w).

(** ** The records of one job *)

(** The status of a record agrees with its result: a completed job carries
    a success with statistics and no error, a failed job a failure with an
    error and no statistics, and a job without a result is not finished. *)
Definition agrees (job : Job) : Prop :=
  match j_result job with
  | None => terminal (j_status job) = false
  | Some r =>
      (j_status job = completed /\ r_status r = success
       /\ is_Some (r_statistics r) /\ r_error r = None)
      \/ (j_status job = failed /\ r_status r = fail
          /\ r_statistics r = None /\ is_Some (r_error r))
  end.

(** A record of the job [jobId] submitted with [config] at [createdAt]. *)
Definition sound (jobId : string) (config : JobConfig) (createdAt : Z) (job : Job) : Prop :=
  j_id job = jobId /\ j_config job = config /\ j_createdAt job = createdAt
  /\ agrees job.

(** The job store after the submission of job [jobId] has got from [w0] to
    [w]: every record written is [R], the other jobs are as they were, and
    the job's own entry is the last record written. *)
Definition Kept (jobId : string) (R : Job -> Prop) (w0 w : World) : Prop :=
  exists new,
    trail w = trail w0 ++ new
    /\ Forall R (written new)
    /\ (forall other, other <> jobId -> getJob other w = getJob other w0)
    /\ getJob jobId w
       = match last (written new) with
         | Some job => Some job
         | None => getJob jobId w0
         end.

(** ** What the environment answered *)

(** An event of an awaited call.  Every call takes one reply off the script
    except [page.setDefaultTimeout], which is synchronous. *)
Definition awaited (e : Event) : bool :=
  match call_of e with SetDefaultTimeout _ => false | _ => true end.

(** The number of awaited calls among the events of a trail. *)
Definition awaits (t : list Event) : nat := length (List.filter awaited t).

(** The payload with which a script answers its awaited call number [n],
    counting from 0; a call beyond the end of the script is answered with
    the empty payload. *)
Definition answer (s : list Reply) (n : nat) : string :=
  match s !! n with
  | Some r => match outcome r with inr payload => payload | inl _ => "" end
  | None => ""
  end.

(** From [w] the calls [new] lead to [w']: the trail has grown by them, and
    every awaited one has taken its reply off the script. *)
Definition Took (w : World) (new : list Event) (w' : World) : Prop :=
  trail w' = trail w ++ new /\ script w' = drop (awaits new) (script w).



(** The calls of a run that records a trace, up to the closing of the
    browser: the launch, the page, the start of the tracing, the default
    timeout, the events [steps] of the action loop, the stop of the tracing
    into [trace.zip], and the close. *)
Definition tracedCalls (viewport : Viewport) (userAgent : string) (ms : Z)
    (steps : list Event) : list Event :=
  [Did (Launch 600000); Did (NewPage viewport userAgent); Did TracingStart;
   Did (SetDefaultTimeout ms)]
  ++ steps ++ [Did (TracingStop "trace.zip"); Did BrowserClose].

(** * Worked inputs *)

(** ** Actions, jobs and errors *)

Definition plain (t : ActionType) : Action :=
  {| a_type := t; a_selector := None; a_getByLabel := None; a_getByText := None;
     a_getByName := None; a_text := None; a_timeout := None; a_url := None;
     a_x := None; a_y := None; a_toContainText := None |}.

Definition gotoExample : Action :=
  {| a_type := goto; a_selector := None; a_getByLabel := None; a_getByText := None;
     a_getByName := None; a_text := None; a_timeout := None;
     a_url := Some "https://example.com"; a_x := None; a_y := None;
     a_toContainText := None |}.

(** [{type: "click", selector: "#does-not-exist", timeout: 500}] *)
Definition clickMissing : Action :=
  {| a_type := click; a_selector := Some "#does-not-exist"; a_getByLabel := None;
     a_getByText := None; a_getByName := None; a_text := None;
     a_timeout := Some 500; a_url := None; a_x := None; a_y := None;
     a_toContainText := None |}.

(** [{type: "click", getByLabel: "", selector: "#submit"}] *)
Definition emptyLabelClick : Action :=
  {| a_type := click; a_selector := Some "#submit"; a_getByLabel := Some "";
     a_getByText := None; a_getByName := None; a_text := None;
     a_timeout := None; a_url := None; a_x := None; a_y := None;
     a_toContainText := None |}.

(** [{type: "click", x: 10, y: 20}] *)
Definition clickAt : Action :=
  {| a_type := click; a_selector := None; a_getByLabel := None;
     a_getByText := None; a_getByName := None; a_text := None;
     a_timeout := None; a_url := None; a_x := Some 10; a_y := Some 20;
     a_toContainText := None |}.

(** [{type: "expect", toContainText: ""}] *)
Definition expectEmpty : Action :=
  {| a_type := expect; a_selector := None; a_getByLabel := None;
     a_getByText := None; a_getByName := None; a_text := None;
     a_timeout := None; a_url := None; a_x := None; a_y := None;
     a_toContainText := Some "" |}.

(** [{type: "expect", toContainText: "Welcome"}] *)
Definition expectWelcome : Action :=
  {| a_type := expect; a_selector := None; a_getByLabel := None;
     a_getByText := None; a_getByName := None; a_text := None;
     a_timeout := None; a_url := None; a_x := None; a_y := None;
     a_toContainText := Some "Welcome" |}.

Definition desktopJob (todo : list Action) (withTrace : bool) : JobConfig :=
  {| deviceType := desktop; browserType := chromium; actions := todo;
     options := Some {| o_timeout := None; o_viewport := None;
                        o_userAgent := None; o_generateTrace := Some withTrace |} |}.

Definition exampleJob : JobConfig := desktopJob [gotoExample; plain screenshot] false.

Definition tracedJob : JobConfig := desktopJob [gotoExample] true.

(** Clock readings of a run, one per [Date.now()], 25 ms apart. *)
Definition ticking : list Z :=
  map (fun n => 1755758292715 + 25 * Z.of_nat n) (seq 0 64).

Definition jobA : string := "87ed99b7-f372-4392-a046-e56f47256783".

Definition shotA : string := "edf23531-b0db-4f75-9db4-c2b8a425f5d7".

Definition shotB : string := "0b5a1c1e-7d0f-4c3a-9a51-2f6f0e1d9b77".

Definition timeoutError : Thrown :=
  JsError "TimeoutError" "locator.click: Timeout 500ms exceeded."
    (Some "TimeoutError: locator.click: Timeout 500ms exceeded.").

Definition kvError : Thrown :=
  JsError "Error" "KV PUT failed: 429 Too Many Requests"
    (Some "Error: KV PUT failed: 429 Too Many Requests").

Definition closeError : Thrown :=
  JsError "Error" "browser.close: Target closed" (Some "Error: browser.close: Target closed").

(** ** Worlds and runs *)

(** A world that answers every call with a success; it hands out [jobA] for
    the job and [shotA] for its screenshot. *)
Definition submissionWorld : World :=
  boot [ok; ok; ok; ok; ok; ok; gives "PNG-bytes"] [jobA; shotA] ticking.

(** The world after one job has been submitted there and run to its end. *)
Definition storedWorld : World :=
  snd (postJob exampleJob submissionWorld).

Definition submittedTrail : list Event := Eval vm_compute in trail storedWorld.

Definition submittedStatuses : list JobStatus :=
  map j_status (written submittedTrail).

Definition runningWriteFails : World := boot [ok; raises kvError] [jobA] ticking.

Definition exampleWorld : World :=
  boot [ok; ok; ok; ok; gives "PNG-bytes"] [shotA] ticking.

Abbreviation exampleRun := (executePlaywrightSequence jobA exampleJob exampleWorld).

Definition exampleResult : JobResult :=
  Eval vm_compute in
    match fst exampleRun with
    | Returned res => res
    | Threw _ =>
        {| r_status := fail; r_duration := 0; r_timestamp := 0;
           r_statistics := None; r_error := None; r_trace := None |}
    end.

Definition tracedWorld : World :=
  boot [ok; ok; ok; ok; ok; ok; ok; gives "PK-trace-bytes"] [] ticking.

Abbreviation tracedRun := (executePlaywrightSequence jobA tracedJob tracedWorld).

Definition tracedResult : JobResult :=
  Eval vm_compute in
    match fst tracedRun with
    | Returned res => res
    | Threw _ =>
        {| r_status := fail; r_duration := 0; r_timestamp := 0;
           r_statistics := None; r_error := None; r_trace := None |}
    end.

(** The driver answers launch and page creation, the click times out, the
    diagnostic screenshot is captured, and the write of that screenshot to
    the artifact store throws. *)
Definition lostStepWorld : World :=
  boot [ok; ok; raises timeoutError; gives "PNG-bytes"; raises kvError]
       [shotA; shotB] ticking.

Abbreviation lostStepRun :=
  (executePlaywrightSequence jobA (desktopJob [clickMissing] false) lostStepWorld).

(** The same, after a first action that succeeds. *)
Definition maskedErrorWorld : World :=
  boot [ok; ok; ok; ok; raises timeoutError; gives "PNG-bytes"; raises kvError]
       [shotA; shotB] ticking.

Abbreviation maskedErrorRun :=
  (executePlaywrightSequence jobA (desktopJob [gotoExample; clickMissing] false)
     maskedErrorWorld).

(** Every call succeeds except [browser.close()] on the success path. *)
Definition closeFailsWorld : World :=
  boot [ok; ok; ok; ok; raises closeError] [shotA] ticking.

Definition closeWorksWorld : World :=
  boot [ok; ok; ok; ok; ok] [shotA] ticking.

Abbreviation closeFailsRun :=
  (executePlaywrightSequence jobA (desktopJob [gotoExample] false) closeFailsWorld).

Abbreviation closeWorksRun :=
  (executePlaywrightSequence jobA (desktopJob [gotoExample] false) closeWorksWorld).

(** ** Further inputs *)

(** The result of a run that returned one. *)
Definition resultOf (run : Outcome JobResult * World) : JobResult :=
  match fst run with
  | Returned res => res
  | Threw _ =>
      {| r_status := fail; r_duration := 0; r_timestamp := 0;
         r_statistics := None; r_error := None; r_trace := None |}
  end.

(** A traced job of two actions; the click of the second times out, and the
    diagnostic screenshots are captured and stored. *)
Definition clickFailsJob : JobConfig := desktopJob [gotoExample; clickMissing] true.

Definition clickFailsWorld : World :=
  boot [ok; ok; ok; ok; ok; raises timeoutError; gives "PNG-bytes"; ok;
        gives "PNG-final"; ok; ok]
       [shotA; shotB] ticking.

Abbreviation clickFailsRun :=
  (executePlaywrightSequence jobA clickFailsJob clickFailsWorld).

Definition clickFailsResult : JobResult := Eval vm_compute in resultOf clickFailsRun.

Definition launchError : Thrown :=
  JsError "Error" "Unable to create new browser: code: 429"
    (Some "Error: Unable to create new browser: code: 429").

Definition pageError : Thrown :=
  JsError "Error" "browser.newPage: Target page, context or browser has been closed"
    (Some "Error: browser.newPage: Target page, context or browser has been closed").

(** The launch of the browser is refused. *)
Definition noBrowserWorld : World := boot [raises launchError] [] ticking.

(** The browser is launched, the page cannot be created, and closing the
    browser fails as well. *)
Definition noPageWorld : World :=
  boot [ok; raises pageError; raises closeError] [] ticking.

(** A record stored under an id of the form the delete route accepts. *)
Definition legacyJob : Job :=
  {| j_id := "job_1"; j_status := completed; j_createdAt := 1755758292715;
     j_completedAt := Some 1755758293815; j_config := exampleJob;
     j_result := Some exampleResult |}.

(** A store that holds [job_1] with its trace and one screenshot, and one
    screenshot of another job, [job_12]. *)
Definition legacyWorld : World :=
  set_artifactsKV
    (<["trace:job_1" := "PK-trace-bytes"]>
       (<["screenshot:job_1:" +:+ shotA +:+ ".png" := "PNG-bytes"]>
          (<["screenshot:job_12:" +:+ shotB +:+ ".png" := "PNG-other"]> ∅)))
    (set_jobsKV (<["job:job_1" := legacyJob]> ∅) (boot [] [] [])).


(** * Properties *)

(** ** Identifiers and routing *)

Lemma hex_digit_not_slash c : hex_digit c = true -> (c =? "/")%char = false.
Proof. destruct c as [[] [] [] [] [] [] [] []]; vm_compute; congruence. Qed.

Lemma hex_digit_not_j c : hex_digit c = true -> (c =? "j")%char = false.
Proof. destruct c as [[] [] [] [] [] [] [] []]; vm_compute; congruence. Qed.

Lemma uuid_from_slashless s : forall i, uuid_from i s = true -> slashless s = true.
Proof.
  induction s as [|c s IH]; intros i H; [reflexivity|].
  simpl in *. apply andb_true_iff in H as [Hc Hs].
  rewrite (IH _ Hs), andb_true_r.
  destruct (dash_position i).
  - apply Ascii.eqb_eq in Hc. subst c. reflexivity.
  - rewrite (hex_digit_not_slash _ Hc). reflexivity.
Qed.

Lemma is_uuid_slashless s : is_uuid s = true -> slashless s = true.
Proof. apply uuid_from_slashless. Qed.

Lemma is_uuid_nonempty s : is_uuid s = true -> s <> "".
Proof. intros H ->. discriminate H. Qed.

Lemma is_uuid_starts_hex s :
  is_uuid s = true -> exists c rest, s = String c rest /\ hex_digit c = true.
Proof.
  destruct s as [|c rest]; [discriminate|].
  intros H. apply andb_true_iff in H as [Hc _]. eauto.
Qed.

(** A UUID never starts with the letters the delete route asks for. *)
Lemma is_uuid_no_job_prefix s : is_uuid s = true -> String.prefix "job_" s = false.
Proof.
  intros H. destruct (is_uuid_starts_hex s H) as (c & rest & -> & Hc).
  apply hex_digit_not_j in Hc. cbn [String.prefix].
  destruct (ascii_dec "j" c) as [<-|]; [discriminate Hc | reflexivity].
Qed.

Lemma nil_uuid_is_uuid : is_uuid nil_uuid = true.
Proof. reflexivity. Qed.

Lemma segments_slashless s : slashless s = true -> segments s = [s].
Proof.
  induction s as [|c s IH]; [reflexivity|].
  simpl. intros H. apply andb_true_iff in H as [Hc Hs].
  rewrite (IH Hs). apply negb_true_iff, Ascii.eqb_neq in Hc.
  destruct (decide (c = "/"%char)); [contradiction | reflexivity].
Qed.

Lemma segments_cut a b :
  slashless a = true -> segments (a +:+ String "/" b) = a :: segments b.
Proof.
  induction a as [|c a IH]; [reflexivity|].
  simpl. intros H. apply andb_true_iff in H as [Hc Ha].
  rewrite (IH Ha). apply negb_true_iff, Ascii.eqb_neq in Hc.
  destruct (decide (c = "/"%char)); [contradiction | reflexivity].
Qed.

Lemma slashless_app a b :
  slashless a = true -> slashless b = true -> slashless (a +:+ b) = true.
Proof.
  induction a as [|c a IH]; simpl; [tauto|].
  intros H Hb. apply andb_true_iff in H as [Hc Ha].
  rewrite Hc, (IH Ha Hb). reflexivity.
Qed.

Lemma append_nonempty a b : b <> "" -> a +:+ b <> "".
Proof. destruct a; simpl; [tauto | discriminate]. Qed.

(** The path handed to the client is cut by the router into the very job id
    and [<screenshot id>.png]. *)
Lemma segments_screenshotPath jobId sid :
  slashless jobId = true -> slashless sid = true ->
  segments (screenshotPath jobId sid)
  = [""; "api"; "v1"; "jobs"; jobId; "screenshots"; sid +:+ ".png"].
Proof.
  intros Hj Hs. unfold screenshotPath.
  change ("/api/v1/jobs/" +:+ jobId +:+ "/screenshots/" +:+ sid +:+ ".png")
    with ("" +:+ String "/" ("api" +:+ String "/" ("v1" +:+ String "/"
           ("jobs" +:+ String "/"
             (jobId +:+ String "/" ("screenshots" +:+ String "/" (sid +:+ ".png"))))))).
  rewrite !segments_cut by (reflexivity || assumption).
  rewrite segments_slashless; [reflexivity|].
  apply slashless_app; [assumption | reflexivity].
Qed.

Lemma routeGet_screenshotPath jobId sid w :
  jobId <> "" -> slashless jobId = true -> slashless sid = true ->
  routeGet (screenshotPath jobId sid) w
  = getScreenshotRoute jobId (sid +:+ ".png") w.
Proof.
  intros Hne Hj Hs. unfold routeGet.
  rewrite (segments_screenshotPath _ _ Hj Hs).
  rewrite (bool_decide_eq_false_2 _ Hne).
  rewrite bool_decide_eq_false_2; [reflexivity|].
  apply append_nonempty. discriminate.
Qed.

(** The key the screenshot route derives from the two path parameters is
    the key [storeScreenshot] writes, once the [.png] of the reference sits
    in the second parameter. *)
Lemma screenshot_key_agrees jobId sid :
  "screenshot:" +:+ jobId +:+ ":" +:+ (sid +:+ ".png") = screenshotKey jobId sid.
Proof. reflexivity. Qed.

(** ** Rules for weakest preconditions *)

Section WpRules.

Context {S : Type}.

Lemma wp_ret {A} (a : A) Q E (s : S) : Q a s -> wp (ret a) Q E s.
Proof. exact id. Qed.

Lemma wp_throw {A} e (Q : A -> S -> Prop) E s : E e s -> wp (throw e) Q E s.
Proof. exact id. Qed.

Lemma wp_bind {A B} (m : M S A) (k : A -> M S B) Q E (s : S) :
  wp m (fun a => wp (k a) Q E) E s -> wp (bind m k) Q E s.
Proof. unfold wp, bind. destruct (m s) as [[a|e] s']; exact id. Qed.

Lemma wp_try_catch {A} (m : M S A) h Q E (s : S) :
  wp m Q (fun e => wp (h e) Q E) s -> wp (try_catch m h) Q E s.
Proof. unfold wp, try_catch. destruct (m s) as [[a|e] s']; exact id. Qed.

Lemma wp_gets {A} (f : S -> A) Q E (s : S) : Q (f s) s -> wp (gets f) Q E s.
Proof. exact id. Qed.

Lemma wp_modify (f : S -> S) Q E (s : S) : Q tt (f s) -> wp (modify f) Q E s.
Proof. exact id. Qed.

Lemma wp_when (c : bool) m Q E (s : S) :
  (c = true -> wp m Q E s) -> (c = false -> Q tt s) -> wp (when c m) Q E s.
Proof. destruct c; intros Ht Hf; [apply Ht | apply Hf]; reflexivity. Qed.

Lemma wp_mono {A} (m : M S A) (Q Q' : A -> S -> Prop) (E E' : Thrown -> S -> Prop) (s : S) :
  wp m Q E s ->
  (forall a s', Q a s' -> Q' a s') -> (forall e s', E e s' -> E' e s') ->
  wp m Q' E' s.
Proof. unfold wp. destruct (m s) as [[a|e] s']; auto. Qed.

Lemma wp_returned {A} (m : M S A) Q E (s : S) a s' :
  wp m Q E s -> m s = (Returned a, s') -> Q a s'.
Proof. unfold wp. intros H Heq. rewrite Heq in H. exact H. Qed.

Lemma wp_threw {A} (m : M S A) Q E (s : S) e s' :
  wp m Q E s -> m s = (Threw e, s') -> E e s'.
Proof. unfold wp. intros H Heq. rewrite Heq in H. exact H. Qed.

End WpRules.

Lemma wp_world {A} (m : M World A) Q E (s : Frame * World) :
  wp m (fun a w' => Q a (fst s, w')) (fun e w' => E e (fst s, w')) (snd s) ->
  wp (world m) Q E s.
Proof. unfold wp, world. destruct (m (snd s)) as [[a|e] w']; exact id. Qed.

Lemma wp_local (g : Frame -> Frame) Q E (s : Frame * World) :
  Q tt (g (fst s), snd s) -> wp (local g) Q E s.
Proof. exact id. Qed.

Lemma wp_frame {A} (g : Frame -> A) Q E (s : Frame * World) :
  Q (g (fst s)) s -> wp (frame g) Q E s.
Proof. exact id. Qed.

Lemma wp_conj {S A} (m : M S A) (Q1 Q2 : A -> S -> Prop) (E1 E2 : Thrown -> S -> Prop)
    (s : S) :
  wp m Q1 E1 s -> wp m Q2 E2 s ->
  wp m (fun a s' => Q1 a s' /\ Q2 a s') (fun e s' => E1 e s' /\ E2 e s') s.
Proof. unfold wp. destruct (m s) as [[a|e] s']; auto. Qed.

Lemma wp_world_total {A} (m : M World A) Q E (s : Frame * World) :
  (forall a w', Q a (fst s, w')) -> (forall e w', E e (fst s, w')) ->
  wp (world m) Q E s.
Proof.
  intros HQ HE. unfold wp, world. destruct (m (snd s)) as [[a|e] w']; auto.
Qed.

Lemma wp_now_total (Q : Z -> Frame * World -> Prop) E (s : Frame * World) :
  (forall t w', Q t (fst s, w')) -> wp (world now) Q E s.
Proof.
  intros HQ. unfold wp, world, now. destruct (clock (snd s)); apply HQ.
Qed.

Lemma wp_randomUUID_total (Q : string -> Frame * World -> Prop) E (s : Frame * World) :
  (forall u w', Q u (fst s, w')) -> wp (world randomUUID) Q E s.
Proof.
  intros HQ. unfold wp, world, randomUUID. destruct (uuids (snd s)); apply HQ.
Qed.

(** One symbolic step of monadic code. *)
Ltac wp_step :=
  cbn [fst snd];
  lazymatch goal with
  | |- wp (bind _ _) _ _ _ => apply wp_bind
  | |- wp (ret _) _ _ _ => apply wp_ret
  | |- wp (throw _) _ _ _ => apply wp_throw
  | |- wp (try_catch _ _) _ _ _ => apply wp_try_catch
  | |- wp (world _) _ _ _ => apply wp_world
  | |- wp (local _) _ _ _ => apply wp_local
  | |- wp (frame _) _ _ _ => apply wp_frame
  | |- wp (gets _) _ _ _ => apply wp_gets
  | |- wp (modify _) _ _ _ => apply wp_modify
  | |- wp (sync _) _ _ _ => apply wp_modify
  end.

(** Steps of code whose effect on the world does not matter. *)
Ltac frame_run :=
  repeat (cbn [fst snd];
          lazymatch goal with
          | |- wp (world now) _ _ _ => apply wp_now_total; intros ? ?
          | |- wp (world randomUUID) _ _ _ => apply wp_randomUUID_total; intros ? ?
          | |- wp (world _) _ _ _ => apply wp_world_total; intros ? ?
          | _ => wp_step
          end).

(** ** Steps of the environment *)

Lemma extends_refl w : extends w w.
Proof.
  split; auto. exists []. rewrite app_nil_r. split; reflexivity.
Qed.

Lemma written_app t1 t2 : written (t1 ++ t2) = written t1 ++ written t2.
Proof. apply omap_app. Qed.

Lemma extends_trans w1 w2 w3 : extends w1 w2 -> extends w2 w3 -> extends w1 w3.
Proof.
  intros [(e1 & T1 & W1) J1 S1 U1] [(e2 & T2 & W2) J2 S2 U2].
  split; [|congruence|auto|auto].
  exists (e1 ++ e2). rewrite T2, T1, <- app_assoc, written_app, W1, W2.
  split; reflexivity.
Qed.

Lemma wp_await c (Q : string -> World -> Prop) E w :
  (forall payload w', after w (Did c) w' -> Q payload w') ->
  (forall e w', after w (Failed c e) w' -> E e w') ->
  wp (await c) Q E w.
Proof.
  intros HQ HE. unfold wp, await.
  destruct (script w) as [|r rest].
  - apply HQ. repeat split.
  - destruct (outcome r) as [e|payload]; [apply HE | apply HQ]; repeat split.
Qed.

Lemma after_extends w ev w' :
  after w ev w' -> written [ev] = [] -> extends w w'.
Proof.
  intros (T & A & J & U & _) Hw. split.
  - exists [ev]. auto.
  - exact J.
  - intros key (data & Hk & Hin). exists data. rewrite A, T. split; [exact Hk|].
    apply elem_of_app. left. exact Hin.
  - unfold uuid_source. rewrite U. exact id.
Qed.

Lemma last_trail_after w ev w' : after w ev w' -> last (trail w') = Some ev.
Proof. intros (T & _). rewrite T. apply last_snoc. Qed.

Lemma wp_now (Q : Z -> World -> Prop) E w :
  (forall t w', trail w' = trail w -> artifactsKV w' = artifactsKV w ->
                jobsKV w' = jobsKV w -> uuids w' = uuids w -> Q t w') ->
  wp now Q E w.
Proof.
  intros HQ. unfold wp, now. destruct (clock w); apply HQ; reflexivity.
Qed.

Lemma same_extends w w' :
  trail w' = trail w -> artifactsKV w' = artifactsKV w ->
  jobsKV w' = jobsKV w -> uuids w' = uuids w -> extends w w'.
Proof.
  intros T A J U. split.
  - exists []. rewrite app_nil_r. auto.
  - exact J.
  - intros key (data & Hk & Hin). exists data. rewrite A, T. auto.
  - unfold uuid_source. rewrite U. exact id.
Qed.

Lemma wp_randomUUID (Q : string -> World -> Prop) E w :
  (forall u w', (uuid_source w -> is_uuid u = true) -> extends w w' -> Q u w') ->
  wp randomUUID Q E w.
Proof.
  intros HQ. unfold wp, randomUUID. destruct (uuids w) as [|u rest] eqn:Hu.
  - apply HQ; [reflexivity | apply extends_refl].
  - apply HQ.
    + unfold uuid_source. rewrite Hu. intros Hs. inversion Hs; assumption.
    + split.
      * exists []. rewrite app_nil_r. auto.
      * reflexivity.
      * intros key Hk. exact Hk.
      * unfold uuid_source. simpl. rewrite Hu. intros Hs. inversion Hs; assumption.
Qed.

(** A write to the artifact store: on success the key is served. *)
Lemma put_artifact_extends w w1 key data :
  after w (Did (PutArtifact key data)) w1 ->
  let w' := set_artifactsKV (<[key := data]> (artifactsKV w1)) w1 in
  extends w w' /\ Served w' key /\ artifactsKV w' !! key = Some data.
Proof.
  intros (T & A & J & U & _) w'. split; [|split].
  - split.
    + exists [Did (PutArtifact key data)]. auto.
    + exact J.
    + intros k (d & Hk & Hin). destruct (decide (k = key)) as [->|Hne].
      * exists data. simpl. rewrite lookup_insert_eq, T. split; [reflexivity|].
        apply elem_of_app. right. apply list_elem_of_singleton. reflexivity.
      * exists d. simpl. rewrite lookup_insert_ne, A, T by congruence.
        split; [exact Hk|]. apply elem_of_app. left. exact Hin.
    + unfold uuid_source. simpl. rewrite U. exact id.
  - exists data. simpl. rewrite lookup_insert_eq, T. split; [reflexivity|].
    apply elem_of_app. right. apply list_elem_of_singleton. reflexivity.
  - simpl. apply lookup_insert_eq.
Qed.

Lemma wp_storeScreenshot jobId sid data (Q : string -> World -> Prop) E w :
  (forall w', extends w w' -> Served w' (screenshotKey jobId sid) ->
              artifactsKV w' !! screenshotKey jobId sid = Some data ->
              Q (screenshotKey jobId sid) w') ->
  (forall e w', extends w w' ->
                after w (Failed (PutArtifact (screenshotKey jobId sid) data) e) w' ->
                E e w') ->
  wp (storeScreenshot jobId sid data) Q E w.
Proof.
  intros HQ HE. unfold storeScreenshot.
  apply wp_bind, wp_await.
  - intros _ w1 Ha. apply wp_bind, wp_modify, wp_ret.
    destruct (put_artifact_extends _ _ _ _ Ha) as (He & Hs & Hl).
    apply HQ; assumption.
  - intros e w1 Ha. apply HE; [|exact Ha].
    apply (after_extends _ _ _ Ha). reflexivity.
Qed.

Lemma wp_storeTrace jobId data (Q : string -> World -> Prop) E w :
  (forall w', extends w w' -> Served w' ("trace:" +:+ jobId) ->
              Q ("trace:" +:+ jobId) w') ->
  (forall e w', extends w w' -> E e w') ->
  wp (storeTrace jobId data) Q E w.
Proof.
  intros HQ HE. unfold storeTrace.
  apply wp_bind, wp_await.
  - intros _ w1 Ha. apply wp_bind, wp_modify, wp_ret.
    destruct (put_artifact_extends _ _ _ _ Ha) as (He & Hs & Hl).
    apply HQ; assumption.
  - intros e w1 Ha. apply HE.
    apply (after_extends _ _ _ Ha). reflexivity.
Qed.

Lemma closes_app t ev : closes (t ++ ev) = (closes t + closes ev)%nat.
Proof. unfold closes. rewrite List.filter_app, length_app. reflexivity. Qed.

Lemma closes_extends w w' n :
  extends w w' -> (n <= closes (trail w))%nat -> (n <= closes (trail w'))%nat.
Proof.
  intros He Hn. destruct (ext_trail _ _ He) as (ev & -> & _).
  rewrite closes_app. lia.
Qed.

(** Awaiting [browser.close()] adds one to the count, whatever its
    outcome. *)
Lemma wp_await_close (Q : string -> World -> Prop) E w :
  (forall payload w', extends w w' ->
                      (S (closes (trail w)) <= closes (trail w'))%nat -> Q payload w') ->
  (forall e w', extends w w' ->
                (S (closes (trail w)) <= closes (trail w'))%nat -> E e w') ->
  wp (await BrowserClose) Q E w.
Proof.
  intros HQ HE. apply wp_await.
  - intros p w' Ha. apply HQ; [apply (after_extends _ _ _ Ha); reflexivity|].
    destruct Ha as (-> & _). rewrite closes_app.
    change (closes [Did BrowserClose]) with 1%nat. lia.
  - intros e w' Ha. apply HE; [apply (after_extends _ _ _ Ha); reflexivity|].
    destruct Ha as (-> & _). rewrite closes_app.
    change (closes [Failed BrowserClose e]) with 1%nat. lia.
Qed.

Lemma wp_await_ext c (Q : string -> World -> Prop) E w :
  written [Did c] = [] ->
  (forall payload w', extends w w' -> Q payload w') ->
  (forall e w', extends w w' -> E e w') ->
  wp (await c) Q E w.
Proof.
  intros Hc HQ HE. apply wp_await.
  - intros p w' Ha. apply HQ. exact (after_extends _ _ _ Ha Hc).
  - intros e w' Ha. apply HE. apply (after_extends _ _ _ Ha). reflexivity.
Qed.

Lemma wp_now_ext (Q : Z -> World -> Prop) E w :
  (forall t w', extends w w' -> Q t w') -> wp now Q E w.
Proof.
  intros HQ. apply wp_now. intros t w' T A J U. apply HQ.
  apply same_extends; assumption.
Qed.

Lemma wp_sync_ext c (Q : unit -> World -> Prop) E w :
  written [Did c] = [] ->
  (forall w', extends w w' -> Q tt w') -> wp (sync c) Q E w.
Proof.
  intros Hc HQ. apply wp_modify, HQ.
  apply (after_extends w (Did c)); [repeat split | exact Hc].
Qed.

Lemma wp_listen_ext b (Q : unit -> World -> Prop) E w :
  (forall w', extends w w' -> Q tt w') -> wp (modify (set_listening b)) Q E w.
Proof. intros HQ. apply wp_modify, HQ, same_extends; reflexivity. Qed.

Lemma wp_storeJob job (Q : unit -> World -> Prop) E w :
  (forall w', trail w' = trail w ++ [Did (PutJob ("job:" +:+ j_id job) job)] ->
              Q tt w') ->
  (forall e w', trail w' = trail w ++ [Failed (PutJob ("job:" +:+ j_id job) job) e] ->
                E e w') ->
  wp (storeJob job) Q E w.
Proof.
  intros HQ HE. unfold storeJob. apply wp_bind, wp_await.
  - intros _ w1 (T & _). apply wp_modify, HQ. exact T.
  - intros e w1 (T & _). apply HE, T.
Qed.

Lemma wp_now_trail (Q : Z -> World -> Prop) E w :
  (forall t w', trail w' = trail w -> Q t w') -> wp now Q E w.
Proof. intros HQ. apply wp_now. intros t w' T _ _ _. apply HQ, T. Qed.

Lemma wp_randomUUID_trail (Q : string -> World -> Prop) E w :
  (forall u w', trail w' = trail w -> Q u w') -> wp randomUUID Q E w.
Proof.
  intros HQ. unfold wp, randomUUID. destruct (uuids w); apply HQ; reflexivity.
Qed.

(** ** The invariant of the runner *)

Lemma ServedPath_extends jobId w0 w w' p :
  extends w w' -> ServedPath jobId w0 w p -> ServedPath jobId w0 w' p.
Proof.
  intros He (sid & Hu & -> & Hs). exists sid.
  split; [exact Hu|]. split; [reflexivity|]. apply (ext_served _ _ He), Hs.
Qed.

Lemma RunInv_world jobId w0 f w w' :
  RunInv jobId w0 (f, w) -> extends w w' -> RunInv jobId w0 (f, w').
Proof.
  intros [He Hr Hf] Hx. simpl in *. split; simpl.
  - exact (extends_trans _ _ _ He Hx).
  - eapply Forall_impl; [exact Hr|]. intros p. apply ServedPath_extends, Hx.
  - exact Hf.
Qed.

Lemma RunInv_closed jobId w0 f w w' :
  RunInv jobId w0 (f, w) ->
  (S (closes (trail w)) <= closes (trail w'))%nat ->
  (S (closes (trail w0)) <= closes (trail w'))%nat.
Proof.
  intros H Hc.
  pose proof (closes_extends _ _ _ (inv_ext _ _ _ H) (Nat.le_refl _)) as H0.
  simpl in H0. lia.
Qed.

Lemma RunInv_frame jobId w0 f f' w :
  RunInv jobId w0 (f, w) ->
  refs f' = refs f -> traceFile (trace f') = traceFile (trace f) ->
  RunInv jobId w0 (f', w).
Proof.
  intros [He Hr Hf] Hrefs Hfile. simpl in *. split; simpl; try assumption.
  - rewrite Hrefs. exact Hr.
  - rewrite Hfile. exact Hf.
Qed.

Lemma refs_push_step st f :
  refs (push_step st f)
  = refs f ++ match t_screenshot st with Some p => [p] | None => [] end.
Proof.
  unfold refs. simpl. rewrite omap_app, app_assoc. simpl.
  destruct (t_screenshot st); reflexivity.
Qed.

Lemma RunInv_push_plain jobId w0 f w st :
  RunInv jobId w0 (f, w) -> t_screenshot st = None ->
  RunInv jobId w0 (push_step st f, w).
Proof.
  intros H Hst. apply (RunInv_frame _ _ f); [exact H| |reflexivity].
  rewrite refs_push_step, Hst. apply app_nil_r.
Qed.

Lemma RunInv_push_shot jobId w0 f w st p :
  RunInv jobId w0 (f, w) -> t_screenshot st = Some p -> ServedPath jobId w0 w p ->
  RunInv jobId w0 (push_step st f, w).
Proof.
  intros [He Hr Hf] Hst Hp. simpl in *. split; simpl; try assumption.
  rewrite refs_push_step, Hst. apply Forall_app. split; [exact Hr|].
  constructor; [exact Hp | constructor].
Qed.

Lemma RunInv_push_screenshot jobId w0 f w p :
  RunInv jobId w0 (f, w) -> ServedPath jobId w0 w p ->
  RunInv jobId w0 (push_screenshot p f, w).
Proof.
  intros [He Hr Hf] Hp. simpl in *. split; simpl; try assumption.
  unfold refs in *. simpl. apply Forall_app in Hr as [Hr1 Hr2].
  rewrite !Forall_app. repeat split; try assumption.
  constructor; [exact Hp | constructor].
Qed.

Lemma RunInv_uuid jobId w0 f w u :
  RunInv jobId w0 (f, w) -> (uuid_source w -> is_uuid u = true) ->
  uuid_source w0 -> is_uuid u = true.
Proof. intros H Hu Hs. apply Hu, (ext_uuids _ _ (inv_ext _ _ _ H)), Hs. Qed.

Lemma RunInv_start jobId w : RunInv jobId w (frame0, w).
Proof. split; simpl; [apply extends_refl | constructor | reflexivity]. Qed.

(** A step of the world under the invariant [H]: the invariant moves to the
    new world. *)
Ltac carry He :=
  lazymatch type of He with
  | extends ?w ?w' =>
      repeat match goal with
             | Hs : Served w _ |- _ => apply (ext_served w w' He) in Hs
             | Hc : (_ <= closes (trail w))%nat |- _ =>
                 apply (closes_extends w w' _ He) in Hc
             end
  end.

Ltac inv_shift H He :=
  carry He; apply (RunInv_world _ _ _ _ _ H) in He; clear H; rename He into H.

Ltac inv_move H :=
  let He := fresh "He" in
  intros ? ? He; inv_shift H He.

(** The step that closes the browser: the count of close calls has passed
    the count of the starting world. *)
Ltac inv_close H :=
  let He := fresh "He" in
  let Hc := fresh "Hc" in
  intros ? ? He Hc;
  apply (RunInv_closed _ _ _ _ _ H) in Hc;
  inv_shift H He.

Ltac inv_move1 H :=
  let He := fresh "He" in
  intros ? He; inv_shift H He.

Ltac wp_world_step H :=
  cbn [fst snd];
  lazymatch goal with
  | |- wp now _ _ _ => apply wp_now_ext; inv_move H
  | |- wp (await BrowserClose) _ _ _ =>
      apply wp_await_close; inv_close H
  | |- wp (await _) _ _ _ =>
      apply wp_await_ext; [reflexivity | inv_move H | inv_move H]
  | |- wp (sync _) _ _ _ => apply wp_sync_ext; [reflexivity | inv_move1 H]
  | |- wp (modify (set_listening _)) _ _ _ => apply wp_listen_ext; inv_move1 H
  end.

(** An assignment to a local that holds no screenshot reference. *)
Ltac wp_local_step H :=
  cbn [fst snd];
  lazymatch goal with
  | |- wp (local ?g) _ _ (?f, ?w) =>
      let H' := fresh "H" in
      assert (H' : RunInv _ _ (g f, w))
        by (apply (RunInv_frame _ _ f); [exact H | reflexivity | reflexivity]);
      clear H; rename H' into H; apply wp_local; cbn [fst snd]
  end.

Ltac wp_store_step H :=
  cbn [fst snd];
  lazymatch goal with
  | |- wp randomUUID _ _ _ =>
      let Hu := fresh "Hu" in
      let Hx := fresh "Hx" in
      apply wp_randomUUID;
      intros ? ? Hu Hx;
      (let Hu' := fresh "Hu" in
       pose proof (RunInv_uuid _ _ _ _ _ H Hu) as Hu'; clear Hu);
      inv_shift H Hx
  | |- wp (storeScreenshot _ _ _) _ _ _ =>
      let Hx := fresh "Hx" in
      apply wp_storeScreenshot;
      [ intros ? Hx ? _ | intros ? ? Hx _ ]; inv_shift H Hx
  | |- wp (storeTrace _ _) _ _ _ =>
      let Hx := fresh "Hx" in
      apply wp_storeTrace;
      [ intros ? Hx ? | intros ? ? Hx ]; inv_shift H Hx
  end.

Ltac wp_all H :=
  repeat first [wp_world_step H | wp_store_step H | wp_local_step H | wp_step].

Lemma performAction_inv jobId action ns w0 f w :
  RunInv jobId w0 (f, w) ->
  wp (performAction jobId action ns)
     (fun _ => RunInv jobId w0) (fun _ => RunInv jobId w0) (f, w).
Proof.
  intros H. unfold performAction.
  destruct (a_type action).
  - destruct (getLocator action); [|destruct (a_x action), (a_y action)];
      wp_all H; exact H.
  - destruct (getLocator action), (truthy (a_text action)); wp_all H; exact H.
  - wp_all H; exact H.
  - wp_all H; try exact H.
    apply RunInv_push_screenshot; [exact H|]. eexists. eauto.
  - destruct (truthy (a_url action)); [|wp_all H; exact H].
    wp_all H; try exact H.
    destruct (truthyZ ns); wp_all H; try exact H.
    all: try (eapply RunInv_frame; [exact H | reflexivity | reflexivity]).
  - destruct (getLocator action); [|destruct (a_x action), (a_y action)];
      wp_all H; exact H.
  - destruct (truthy (a_toContainText action)); [destruct (getLocator action)|];
      wp_all H; exact H.
Qed.

Lemma runStep_inv jobId action w0 f w :
  RunInv jobId w0 (f, w) ->
  wp (runStep jobId action)
     (fun _ => RunInv jobId w0) (fun _ => RunInv jobId w0) (f, w).
Proof.
  intros H. unfold runStep, recordFailure. wp_all H.
  destruct (decide (a_type action = goto)); wp_all H.
  all: (eapply wp_mono; [apply performAction_inv; exact H| |]);
    intros ? [? ?] H'; clear H; rename H' into H; wp_all H.
  all: try (apply RunInv_push_plain; [exact H | reflexivity]).
  all: try exact H.
  all: eapply RunInv_push_shot; [exact H | reflexivity | eexists; eauto].
Qed.

Lemma runActions_inv jobId todo w0 : forall f w,
  RunInv jobId w0 (f, w) ->
  wp (runActions jobId todo)
     (fun _ => RunInv jobId w0) (fun _ => RunInv jobId w0) (f, w).
Proof.
  induction todo as [|action rest IH]; intros f w H; simpl.
  - exact H.
  - apply wp_bind. eapply wp_mono; [apply runStep_inv; exact H| |].
    + intros ? [f' w'] H'. apply IH, H'.
    + intros ? s' H'. exact H'.
Qed.

Lemma RunPost_fail jobId config w0 f w res :
  RunInv jobId w0 (f, w) ->
  r_status res = fail -> r_statistics res = None -> r_trace res = Some (trace f) ->
  (forall p, r_error res ≫= e_screenshot = Some p -> ServedPath jobId w0 w p) ->
  RunPost jobId config w0 res w.
Proof.
  intros [He Hr Hf] Hst Hstat Htr Herr. simpl in *. split.
  - exact He.
  - unfold result_refs. rewrite Hstat, Htr. simpl.
    apply Forall_app. split.
    + destruct (r_error res ≫= e_screenshot) as [p|]; constructor; auto.
    + unfold refs in Hr. apply Forall_app in Hr as [_ Hr]. exact Hr.
  - exists (trace f). auto.
  - rewrite Hst. discriminate.
Qed.

Lemma runRescue_spec jobId config startTime error w0 f w :
  RunInv jobId w0 (f, w) ->
  wp (runRescue jobId startTime error)
     (fun res s => RunPost jobId config w0 res (snd s) /\ r_status res = fail)
     (fun _ _ => False) (f, w).
Proof.
  intros H. unfold runRescue. wp_all H.
  destruct (page f); wp_all H.
  all: unfold when; destruct (browser f); wp_all H.
  all: (split; [|reflexivity]);
    apply (RunPost_fail _ _ _ f); [exact H | reflexivity .. |].
  all: simpl; intros p [= <-]; eexists; eauto.
Qed.

Lemma RunPost_success jobId config w0 f w res :
  RunInv jobId w0 (f, w) ->
  r_error res = None -> r_trace res = Some (trace f) ->
  (exists st, r_statistics res = Some st /\ s_screenshots st = screenshots f) ->
  (generateTrace config = true ->
   traceViewerUrl (trace f) = Some (traceViewer jobId)
   /\ Served w ("trace:" +:+ jobId)) ->
  RunPost jobId config w0 res w.
Proof.
  intros [He Hr Hf] Herr Htr (st & Hst & Hsh) Hg. simpl in *. split.
  - exact He.
  - unfold result_refs. rewrite Hst, Htr, Herr, Hsh. simpl. exact Hr.
  - exists (trace f). auto.
  - intros _ Hgen. exists (trace f). destruct (Hg Hgen). auto.
Qed.

Lemma runBody_spec jobId config startTime w0 f w :
  RunInv jobId w0 (f, w) ->
  wp (runBody jobId config startTime)
     (fun res s => RunPost jobId config w0 res (snd s))
     (fun _ => RunInv jobId w0) (f, w).
Proof.
  intros H. unfold runBody, when.
  destruct (generateTrace config) eqn:Hg; wp_all H; try exact H.
  all: (eapply wp_mono; [apply runActions_inv; exact H | | intros; assumption]);
    intros ? [? ?] H'; clear H; rename H' into H; wp_all H; try exact H.
  - eapply RunPost_success; [exact H | reflexivity | reflexivity | |].
    + eexists. split; reflexivity.
    + intros _. split; [reflexivity | assumption].
  - eapply RunPost_success; [exact H | reflexivity | reflexivity | |].
    + eexists. split; reflexivity.
    + intros Hgen. congruence.
Qed.

(** The runner always hands back a result, never an exception, and the
    result satisfies [RunPost]. *)
Lemma executePlaywrightSequence_spec jobId config w :
  exists res w',
    executePlaywrightSequence jobId config w = (Returned res, w')
    /\ RunPost jobId config w res w'.
Proof.
  unfold executePlaywrightSequence.
  match goal with
  | |- context [let (r, s) := ?run (frame0, w) in _] =>
      assert (Hwp : wp run (fun res s => RunPost jobId config w res (snd s))
                        (fun _ _ => False) (frame0, w))
  end.
  { pose proof (RunInv_start jobId w) as H. wp_all H.
    eapply wp_mono; [apply runBody_spec; exact H | auto |].
    intros e [f1 w1] H'. cbv beta.
    eapply wp_mono; [apply (runRescue_spec jobId config); exact H' | | auto].
    intros res s' [Hp _]. exact Hp. }
  unfold wp in Hwp.
  match type of Hwp with
  | match ?x with _ => _ end => destruct x as [[res|e] [f' w']]
  end; [|contradiction].
  exists res, w'. split; [reflexivity | exact Hwp].
Qed.

Lemma wp_executePlaywrightSequence jobId config (Q : JobResult -> World -> Prop) E w :
  (forall res w', extends w w' -> Q res w') ->
  wp (executePlaywrightSequence jobId config) Q E w.
Proof.
  intros HQ. unfold wp.
  destruct (executePlaywrightSequence_spec jobId config w) as (res & w' & -> & Hpost).
  apply HQ, (post_ext _ _ _ _ _ Hpost).
Qed.

(** A run is the pair of its outcome and its final world. *)
Lemma run_pair {A} (x : Outcome A * World) (a : A) :
  fst x = Returned a -> x = (Returned a, snd x).
Proof. destruct x as [o w]. simpl. intros ->. reflexivity. Qed.

(** ** The trace of the action loop *)

(** The [switch] leaves the trace alone. *)
Lemma performAction_steps jobId action ns f w :
  wp (performAction jobId action ns)
     (fun _ s' => steps (trace (fst s')) = steps (trace f))
     (fun _ s' => steps (trace (fst s')) = steps (trace f)) (f, w).
Proof.
  unfold performAction.
  destruct (a_type action).
  - destruct (getLocator action); [|destruct (a_x action), (a_y action)];
      frame_run; reflexivity.
  - destruct (getLocator action), (truthy (a_text action)); frame_run; reflexivity.
  - frame_run; reflexivity.
  - frame_run; reflexivity.
  - destruct (truthy (a_url action)); [|frame_run; reflexivity].
    frame_run; try reflexivity.
    destruct (truthyZ ns); frame_run; reflexivity.
  - destruct (getLocator action); [|destruct (a_x action), (a_y action)];
      frame_run; reflexivity.
  - destruct (truthy (a_toContainText action)); [destruct (getLocator action)|];
      frame_run; reflexivity.
Qed.

(** The [catch] of the loop body appends the failed step and re-throws the
    error it was given, unless the write of the diagnostic screenshot
    throws: then nothing is appended and that exception leaves the block. *)
Lemma recordFailure_steps jobId action stepStart error f w :
  wp (recordFailure jobId action stepStart error)
     (fun _ _ => False)
     (fun e s' =>
        (e = error
         /\ exists st, steps (trace (fst s')) = steps (trace f) ++ [st]
                       /\ StepFailed action error st)
        \/ (steps (trace (fst s')) = steps (trace f) /\ StoreFailed e (snd s')))
     (f, w).
Proof.
  unfold recordFailure.
  apply wp_bind, wp_now_total. intros t w1.
  apply wp_bind, wp_try_catch, wp_bind, wp_world_total; intros buf w2.
  - apply wp_ret, wp_bind, wp_bind, wp_randomUUID_total. intros u w3.
    apply wp_bind, wp_world. cbn [fst snd]. apply wp_storeScreenshot.
    + intros w4 _ _ _. apply wp_ret, wp_bind, wp_now_total. intros ts w5.
      apply wp_bind, wp_local, wp_throw. left. split; [reflexivity|].
      eexists. split; [reflexivity|]. repeat split.
    + intros e w4 _ Ha. right. split; [reflexivity|].
      eexists _, _. exact (last_trail_after _ _ _ Ha).
  - apply wp_ret, wp_bind, wp_ret, wp_bind, wp_now_total. intros ts w5.
    apply wp_bind, wp_local, wp_throw. left. split; [reflexivity|].
    eexists. split; [reflexivity|]. repeat split.
Qed.

(** One iteration appends exactly one step: a success when the action
    returns, a failure carrying the action's error when it throws, unless
    the write of the diagnostic screenshot throws. *)
Lemma runStep_steps jobId action f w :
  wp (runStep jobId action)
     (fun _ s' =>
        exists st, steps (trace (fst s')) = steps (trace f) ++ [st]
                   /\ StepOk action st)
     (fun e s' =>
        (exists st, steps (trace (fst s')) = steps (trace f) ++ [st]
                    /\ StepFailed action e st)
        \/ (steps (trace (fst s')) = steps (trace f) /\ StoreFailed e (snd s')))
     (f, w).
Proof.
  unfold runStep. apply wp_bind, wp_now_total. intros stepStart w1.
  apply wp_bind.
  assert (Hgo : forall (Q : option Z -> Frame * World -> Prop) E w2,
             (forall ns w3, Q ns (f, w3)) ->
             wp (if decide (a_type action = goto)
                 then t <- world now ;; ret (Some t) else ret None) Q E (f, w2)).
  { intros Q E w2 HQ. destruct (decide (a_type action = goto)).
    - apply wp_bind, wp_now_total. intros. apply wp_ret, HQ.
    - apply wp_ret, HQ. }
  apply Hgo. intros ns w2. apply wp_try_catch, wp_bind.
  eapply wp_mono; [apply performAction_steps | |]; cbn beta.
  - intros _ [f1 w3] Hsteps. simpl in Hsteps.
    apply wp_bind, wp_now_total. intros t w4.
    apply wp_bind, wp_now_total. intros ts w5.
    apply wp_local. simpl. eexists. rewrite Hsteps.
    split; [reflexivity|]. repeat split.
  - intros e [f1 w3] Hsteps. simpl in Hsteps.
    eapply wp_mono; [apply recordFailure_steps | intros ? ? [] |].
    intros e' s' [[-> (st & Hst & Hf)] | [Hst Hs]]; rewrite Hsteps in Hst; eauto.
Qed.

(** The loop appends one step per action it
    attempts, in order: when it returns, one successful step per configured
    action; when it throws at action [k] (counting from 0), the [k]
    successful steps of the actions before it and then the failed step of
    action [k] with that error's message, and nothing for the actions after
    [k].  The one exception is the write of the diagnostic screenshot
    throwing in the [catch]: then the failed step is missing and the
    exception that leaves the loop is the store's. *)
Lemma runActions_steps jobId todo : forall f w,
  wp (runActions jobId todo)
     (fun _ s' =>
        exists done, steps (trace (fst s')) = steps (trace f) ++ done
                     /\ Forall2 StepOk todo done)
     (fun e s' =>
        exists k action done,
          todo !! k = Some action
          /\ Forall2 StepOk (take k todo) done
          /\ ((exists st, steps (trace (fst s')) = steps (trace f) ++ done ++ [st]
                          /\ StepFailed action e st)
              \/ (steps (trace (fst s')) = steps (trace f) ++ done
                  /\ StoreFailed e (snd s'))))
     (f, w).
Proof.
  induction todo as [|action rest IH]; intros f w; simpl.
  - exists []. rewrite app_nil_r. split; [reflexivity | constructor].
  - apply wp_bind. eapply wp_mono; [apply runStep_steps | |]; cbn beta.
    + intros _ [f1 w1] (st & Hst & Hok). simpl in Hst.
      eapply wp_mono; [apply IH | |]; cbn beta.
      * intros _ s' (done & Hd & Hall). exists (st :: done).
        rewrite Hd, Hst, <- app_assoc. split; [reflexivity|].
        constructor; assumption.
      * intros e s' (k & a & done & Hk & Hall & Hcase).
        exists (S k), a, (st :: done). split; [exact Hk|].
        split; [constructor; assumption|].
        destruct Hcase as [(bad & Hs & Hbad) | (Hs & Hfail)];
          rewrite Hst, <- app_assoc in Hs; [left | right; auto].
        exists bad. split; [exact Hs | exact Hbad].
    + intros e s' Hcase. exists 0%nat, action, [].
      split; [reflexivity|]. split; [constructor|].
      destruct Hcase as [Hbad | [Hs Hfail]]; [left; exact Hbad | right].
      rewrite app_nil_r. auto.
Qed.

(** The [catch] of the loop body never completes normally: it re-throws, or
    the storing of the diagnostic screenshot throws before. *)
Lemma recordFailure_throws jobId action stepStart error s :
  wp (recordFailure jobId action stepStart error)
     (fun _ _ => False) (fun _ _ => True) s.
Proof.
  unfold recordFailure.
  apply wp_bind, wp_now_total. intros t w1.
  apply wp_bind, wp_try_catch, wp_bind, wp_world_total; intros buf w2.
  - apply wp_ret, wp_bind, wp_bind, wp_randomUUID_total. intros u w3.
    apply wp_bind, wp_world_total; [|intros; exact I]. intros key w4.
    apply wp_ret, wp_bind, wp_now_total. intros ts w5.
    apply wp_bind, wp_local, wp_throw. exact I.
  - apply wp_ret, wp_bind, wp_ret, wp_bind, wp_now_total. intros ts w5.
    apply wp_bind, wp_local, wp_throw. exact I.
Qed.

(** A step whose action throws ends in an exception. *)
Lemma runStep_throws jobId action :
  (forall ns s, exists e, performAction jobId action ns s = (Threw e, s)) ->
  forall s, exists e' s', runStep jobId action s = (Threw e', s').
Proof.
  intros Hp s.
  assert (H : wp (runStep jobId action) (fun _ _ => False) (fun _ _ => True) s).
  { unfold runStep. apply wp_bind, wp_now_total. intros stepStart w1.
    apply wp_bind.
    assert (Hgo : forall (Q : option Z -> Frame * World -> Prop) E s1,
               (forall ns s2, Q ns s2) ->
               wp (if decide (a_type action = goto)
                   then t <- world now ;; ret (Some t) else ret None) Q E s1).
    { intros Q E s1 HQ. destruct (decide (a_type action = goto)).
      - apply wp_bind, wp_now_total. intros. apply wp_ret, HQ.
      - apply wp_ret, HQ. }
    apply Hgo. intros ns s2.
    apply wp_try_catch, wp_bind. unfold wp at 1.
    destruct (Hp ns s2) as [e ->]. apply recordFailure_throws. }
  unfold wp in H. destruct (runStep jobId action s) as [[[]|e'] s'];
    [contradiction | eauto].
Qed.

(** The outer [catch] reports the exception it was handed: the fail result
    carries that exception's message and stack. *)
Lemma runRescue_reports jobId startTime error s :
  wp (runRescue jobId startTime error)
     (fun res _ =>
        r_status res = fail
        /\ exists err, r_error res = Some err
                       /\ e_message err = message_or "Unknown error" error
                       /\ e_stack err = stack_of error)
     (fun _ _ => False) s.
Proof.
  unfold runRescue, when. frame_run.
  destruct (page (fst s)); frame_run.
  all: match goal with
       | |- wp (if ?b then _ else _) _ _ _ => destruct b
       end; frame_run.
  all: split; [reflexivity | eexists; repeat split].
Qed.

(** ** Releasing the browser session *)

(** The loop never unsets [browser]. *)
Lemma performAction_browser jobId action ns f w :
  wp (performAction jobId action ns)
     (fun _ s' => browser (fst s') = browser f)
     (fun _ s' => browser (fst s') = browser f) (f, w).
Proof.
  unfold performAction.
  destruct (a_type action).
  - destruct (getLocator action); [|destruct (a_x action), (a_y action)];
      frame_run; reflexivity.
  - destruct (getLocator action), (truthy (a_text action)); frame_run; reflexivity.
  - frame_run; reflexivity.
  - frame_run; reflexivity.
  - destruct (truthy (a_url action)); [|frame_run; reflexivity].
    frame_run; try reflexivity.
    destruct (truthyZ ns); frame_run; reflexivity.
  - destruct (getLocator action); [|destruct (a_x action), (a_y action)];
      frame_run; reflexivity.
  - destruct (truthy (a_toContainText action)); [destruct (getLocator action)|];
      frame_run; reflexivity.
Qed.

Lemma runStep_browser jobId action f w :
  wp (runStep jobId action)
     (fun _ s' => browser (fst s') = browser f)
     (fun _ s' => browser (fst s') = browser f) (f, w).
Proof.
  unfold runStep, recordFailure. frame_run; try reflexivity.
  destruct (decide (a_type action = goto)); frame_run; try reflexivity.
  all: (eapply wp_mono; [apply performAction_browser | |]); cbn beta;
    intros ? [f1 w1] Hb; simpl in Hb; frame_run; try exact Hb.
  all: match goal with
       | |- wp (match ?b with _ => _ end) _ _ _ => destruct b
       end; frame_run; exact Hb.
Qed.

Lemma runActions_browser jobId todo : forall f w,
  wp (runActions jobId todo)
     (fun _ s' => browser (fst s') = browser f)
     (fun _ s' => browser (fst s') = browser f) (f, w).
Proof.
  induction todo as [|action rest IH]; intros f w; simpl; [reflexivity|].
  apply wp_bind. eapply wp_mono; [apply runStep_browser | |]; cbn beta.
  - intros ? [f1 w1] Hb. simpl in Hb. rewrite <- Hb. apply IH.
  - intros ? ? Hb. exact Hb.
Qed.

(** The outer [catch] closes the browser when [browser] is assigned. *)
Lemma runRescue_closes jobId startTime error w0 f w :
  RunInv jobId w0 (f, w) -> browser f = true ->
  wp (runRescue jobId startTime error)
     (fun _ s' => (S (closes (trail w0)) <= closes (trail (snd s')))%nat)
     (fun _ _ => False) (f, w).
Proof.
  intros H Hb. unfold runRescue, when. wp_all H.
  destruct (page f); wp_all H.
  all: rewrite Hb; wp_all H; assumption.
Qed.

(** Without a browser and a page, the outer [catch] calls nothing. *)
Lemma runRescue_quiet jobId startTime error f w :
  browser f = false -> page f = false ->
  wp (runRescue jobId startTime error)
     (fun _ s' => trail (snd s') = trail w) (fun _ _ => False) (f, w).
Proof.
  intros Hb Hp. unfold runRescue, when.
  apply wp_bind, wp_world, wp_now_trail. intros t w1 T1.
  apply wp_bind, wp_frame. cbn [fst snd]. rewrite Hp.
  apply wp_bind, wp_try_catch, wp_ret, wp_bind, wp_frame. cbn [fst snd].
  rewrite Hb. apply wp_bind, wp_ret, wp_bind, wp_world, wp_now_trail.
  intros ts w2 T2. apply wp_bind, wp_frame, wp_ret. simpl in *. congruence.
Qed.

(** The body of the outer [try]: when it returns, close has been called;
    when it throws, either [browser] is assigned or the launch is what
    failed. *)
Lemma runBody_closes jobId config startTime w :
  wp (runBody jobId config startTime)
     (fun _ s' => (S (closes (trail w)) <= closes (trail (snd s')))%nat)
     (fun e s' =>
        (RunInv jobId w s' /\ browser (fst s') = true)
        \/ (fst s' = frame0 /\ trail (snd s') = trail w ++ [Failed (Launch 600000) e]))
     (frame0, w).
Proof.
  unfold runBody. apply wp_bind, wp_world, wp_await; cbn [fst snd].
  - intros payload w1 Ha.
    assert (H : RunInv jobId w (frame0, w1)).
    { apply (RunInv_world _ _ _ w); [apply RunInv_start|].
      apply (after_extends _ _ _ Ha). reflexivity. }
    clear Ha. unfold when.
    destruct (generateTrace config); wp_all H; try (left; split; [exact H | reflexivity]).
    all: (eapply wp_mono;
          [apply wp_conj; [apply runActions_inv; exact H | apply runActions_browser] | |]);
      cbn beta; clear H.
    all: try (intros ? [f1 w2] [H Hb]; left; split; [exact H | exact Hb]).
    all: intros ? [f1 w2] [H Hb]; simpl in Hb; wp_all H;
      try assumption; left; (split; [exact H | exact Hb]).
  - intros e w1 Ha. right. split; [reflexivity | apply Ha].
Qed.

(** On every path of the runner on which the browser was launched,
    [browser.close()] is called; the other paths are those on which the
    launch itself throws, and they call nothing after it. *)
Lemma executePlaywrightSequence_closes jobId config w :
  (exists e, trail (snd (executePlaywrightSequence jobId config w))
             = trail w ++ [Failed (Launch 600000) e])
  \/ (closes (trail w)
      < closes (trail (snd (executePlaywrightSequence jobId config w))))%nat.
Proof.
  unfold executePlaywrightSequence.
  match goal with
  | |- context [let (r, s) := ?run (frame0, w) in _] =>
      assert (Hwp : wp run
                      (fun _ s' =>
                         (exists e, trail (snd s') = trail w ++ [Failed (Launch 600000) e])
                         \/ (closes (trail w) < closes (trail (snd s')))%nat)
                      (fun _ _ => False) (frame0, w))
  end.
  { apply wp_bind, wp_world, wp_now_trail. cbn [fst snd]. intros startTime w1 T1.
    simpl in T1.
    apply wp_try_catch. eapply wp_mono; [apply runBody_closes | |]; cbn beta.
    - intros ? s' Hc. right. rewrite <- T1. exact Hc.
    - intros e [f1 w2] [[H Hb] | [Hf T2]]; simpl in *.
      + eapply wp_mono; [apply (runRescue_closes _ _ _ _ _ _ H Hb) | | auto].
        intros ? s' Hc. right. rewrite <- T1. exact Hc.
      + subst f1.
        eapply wp_mono; [apply runRescue_quiet; reflexivity | | auto].
        intros ? s' T3. left. exists e. rewrite T3, T2, T1. reflexivity. }
  unfold wp in Hwp.
  match type of Hwp with
  | match ?x with _ => _ end => destruct x as [[res|e] [f' w']]
  end; [exact Hwp | contradiction].
Qed.

(** ** The replies a run takes *)

Lemma awaits_app t1 t2 : awaits (t1 ++ t2) = (awaits t1 + awaits t2)%nat.
Proof. unfold awaits. rewrite List.filter_app, length_app. reflexivity. Qed.

Lemma answer_drop s n : answer (drop n s) 0 = answer s n.
Proof. unfold answer. rewrite lookup_drop, Nat.add_0_r. reflexivity. Qed.

Lemma Took_refl w : Took w [] w.
Proof. split; [rewrite app_nil_r; reflexivity | reflexivity]. Qed.

Lemma Took_trans w1 n1 w2 n2 w3 :
  Took w1 n1 w2 -> Took w2 n2 w3 -> Took w1 (n1 ++ n2) w3.
Proof.
  intros [T1 S1] [T2 S2]. split.
  - rewrite T2, T1, app_assoc. reflexivity.
  - rewrite S2, S1, awaits_app, drop_drop. reflexivity.
Qed.

Lemma Took_one w0 new w ev w' :
  Took w0 new w -> trail w' = trail w ++ [ev] ->
  script w' = drop (awaits [ev]) (script w) -> Took w0 (new ++ [ev]) w'.
Proof. intros H T S. apply (Took_trans _ _ w); [exact H | split; assumption]. Qed.

Lemma Took_same w0 new w w' :
  Took w0 new w -> trail w' = trail w -> script w' = script w -> Took w0 new w'.
Proof. intros [T S] T' S'. split; congruence. Qed.

Section TookRules.

Context (w0 : World) (new : list Event).

(** An awaited call that returns: its payload is the reply the script of
    [w0] holds at the position of the call. *)
Lemma wp_await_took c (Q : string -> World -> Prop) (E : Thrown -> World -> Prop) w :
  Took w0 new w -> awaited (Did c) = true ->
  (forall w', Took w0 (new ++ [Did c]) w' -> Q (answer (script w0) (awaits new)) w') ->
  (forall e w', E e w') ->
  wp (await c) Q E w.
Proof.
  intros H Hc HQ HE.
  assert (Hone : awaits [Did c] = 1%nat) by (unfold awaits; simpl; rewrite Hc; reflexivity).
  rewrite <- answer_drop, <- (proj2 H) in HQ.
  unfold wp, await. destruct (script w) as [|r rest] eqn:Hs.
  - apply HQ, (Took_one _ _ w); [exact H | reflexivity |].
    simpl. rewrite Hs, Hone. reflexivity.
  - destruct (outcome r) as [e|payload] eqn:Ho; [apply HE|].
    unfold answer in HQ. simpl in HQ. rewrite Ho in HQ.
    apply HQ, (Took_one _ _ w); [exact H | reflexivity |].
    simpl. rewrite Hs, Hone. reflexivity.
Qed.

Lemma wp_sync_took c (Q : unit -> World -> Prop) E w :
  Took w0 new w -> awaited (Did c) = false ->
  (forall w', Took w0 (new ++ [Did c]) w' -> Q tt w') ->
  wp (sync c) Q E w.
Proof.
  intros H Hc HQ. apply wp_modify, HQ, (Took_one _ _ w); [exact H | reflexivity |].
  unfold awaits. simpl. rewrite Hc. reflexivity.
Qed.

Lemma wp_now_took (Q : Z -> World -> Prop) E w :
  Took w0 new w -> (forall t w', Took w0 new w' -> Q t w') -> wp now Q E w.
Proof.
  intros H HQ. unfold wp, now.
  destruct (clock w); apply HQ, (Took_same _ _ w); auto.
Qed.

Lemma wp_randomUUID_took (Q : string -> World -> Prop) E w :
  Took w0 new w -> (forall u w', Took w0 new w' -> Q u w') -> wp randomUUID Q E w.
Proof.
  intros H HQ. unfold wp, randomUUID.
  destruct (uuids w); apply HQ, (Took_same _ _ w); auto.
Qed.

Lemma wp_listen_took b (Q : unit -> World -> Prop) E w :
  Took w0 new w -> (forall w', Took w0 new w' -> Q tt w') ->
  wp (modify (set_listening b)) Q E w.
Proof. intros H HQ. apply wp_modify, HQ, (Took_same _ _ w); auto. Qed.

Lemma wp_gets_took {A} (g : World -> A) (Q : A -> World -> Prop) E w :
  Took w0 new w -> (forall a w', Took w0 new w' -> Q a w') -> wp (gets g) Q E w.
Proof. intros H HQ. apply wp_gets, HQ, H. Qed.

Lemma wp_storeScreenshot_took jobId sid data (Q : string -> World -> Prop)
    (E : Thrown -> World -> Prop) w :
  Took w0 new w ->
  (forall key w', Took w0 (new ++ [Did (PutArtifact key data)]) w' -> Q key w') ->
  (forall e w', E e w') ->
  wp (storeScreenshot jobId sid data) Q E w.
Proof.
  intros H HQ HE. unfold storeScreenshot.
  apply wp_bind, (wp_await_took _ _ _ _ H); [reflexivity | | exact HE].
  intros w1 H1. apply wp_bind, wp_modify, wp_ret, HQ.
  exact (Took_same _ _ _ _ H1 eq_refl eq_refl).
Qed.

(** A write of the trace bundle that returns: the bundle is in the store. *)
Lemma wp_storeTrace_took jobId data (Q : string -> World -> Prop)
    (E : Thrown -> World -> Prop) w :
  Took w0 new w ->
  (forall w', Took w0 (new ++ [Did (PutArtifact ("trace:" +:+ jobId) data)]) w' ->
              artifactsKV w' !! ("trace:" +:+ jobId) = Some data ->
              Q ("trace:" +:+ jobId) w') ->
  (forall e w', E e w') ->
  wp (storeTrace jobId data) Q E w.
Proof.
  intros H HQ HE. unfold storeTrace.
  apply wp_bind, (wp_await_took _ _ _ _ H); [reflexivity | | exact HE].
  intros w1 H1. apply wp_bind, wp_modify, wp_ret, HQ.
  - exact (Took_same _ _ _ _ H1 eq_refl eq_refl).
  - simpl. apply lookup_insert_eq.
Qed.

End TookRules.

Ltac tk_next H := let H' := fresh "H" in intros ? H'; clear H; rename H' into H.

Ltac tk_next2 H := let H' := fresh "H" in intros ? ? H'; clear H; rename H' into H.

(** One step of the world under [H : Took w0 new w]. *)
Ltac tk_world H :=
  cbn [fst snd];
  lazymatch goal with
  | |- wp now _ _ _ => apply (wp_now_took _ _ _ _ _ H); tk_next2 H
  | |- wp randomUUID _ _ _ => apply (wp_randomUUID_took _ _ _ _ _ H); tk_next2 H
  | |- wp (await _) _ _ _ =>
      apply (wp_await_took _ _ _ _ _ _ H); [reflexivity | tk_next H | intros; exact I]
  | |- wp (sync _) _ _ _ =>
      apply (wp_sync_took _ _ _ _ _ _ H); [reflexivity | tk_next H]
  | |- wp (modify (set_listening _)) _ _ _ =>
      apply (wp_listen_took _ _ _ _ _ _ H); tk_next H
  | |- wp (storeScreenshot _ _ _) _ _ _ =>
      apply (wp_storeScreenshot_took _ _ _ _ _ _ _ _ H); [tk_next2 H | intros; exact I]
  end.

Ltac tk_all H := repeat first [tk_world H | wp_step].

Lemma performAction_took jobId action ns f w :
  wp (performAction jobId action ns)
     (fun _ s' => exists steps, Took w steps (snd s')) (fun _ _ => True) (f, w).
Proof.
  pose proof (Took_refl w) as H. unfold performAction.
  destruct (a_type action).
  - destruct (getLocator action); [|destruct (a_x action), (a_y action)];
      tk_all H; eexists; exact H.
  - destruct (getLocator action), (truthy (a_text action)); tk_all H; eexists; exact H.
  - tk_all H; eexists; exact H.
  - tk_all H; eexists; exact H.
  - destruct (truthy (a_url action)); [|tk_all H; eexists; exact H].
    tk_all H. destruct (truthyZ ns); tk_all H; eexists; exact H.
  - destruct (getLocator action); [|destruct (a_x action), (a_y action)];
      tk_all H; eexists; exact H.
  - destruct (truthy (a_toContainText action)); [destruct (getLocator action)|];
      tk_all H; try exact I; eexists; exact H.
Qed.

Lemma runStep_took jobId action f w :
  wp (runStep jobId action)
     (fun _ s' => exists steps, Took w steps (snd s')) (fun _ _ => True) (f, w).
Proof.
  pose proof (Took_refl w) as H. unfold runStep. tk_all H.
  destruct (decide (a_type action = goto)); tk_all H.
  all: (eapply wp_mono; [apply performAction_took | |]); cbn beta.
  2: { intros e' s' _.
       eapply wp_mono; [apply recordFailure_throws | intros ? ? [] | intros; exact I]. }
  3: { intros e' s' _.
       eapply wp_mono; [apply recordFailure_throws | intros ? ? [] | intros; exact I]. }
  all: intros ? [f1 w1] (steps & H'); simpl in H';
    apply (Took_trans _ _ _ _ _ H) in H'; clear H; rename H' into H;
    tk_all H; eexists; exact H.
Qed.

Lemma runActions_took jobId todo : forall f w,
  wp (runActions jobId todo)
     (fun _ s' => exists steps, Took w steps (snd s')) (fun _ _ => True) (f, w).
Proof.
  induction todo as [|action rest IH]; intros f w; simpl.
  - exists []. apply Took_refl.
  - apply wp_bind. eapply wp_mono; [apply runStep_took | | intros; exact I]; cbn beta.
    intros _ [f1 w1] (s1 & H1). simpl in H1.
    eapply wp_mono; [apply IH | | intros; exact I]; cbn beta.
    intros _ s' (s2 & H2). exists (s1 ++ s2). exact (Took_trans _ _ _ _ _ H1 H2).
Qed.

(** The body of the outer [try] of a run that records a trace: when it
    returns, its calls are those of [tracedCalls], then the reading of
    [trace.zip] and the write of what was read under the job's trace key. *)
Lemma runBody_recording jobId config startTime f w :
  generateTrace config = true ->
  wp (runBody jobId config startTime)
     (fun _ s' =>
        exists viewport userAgent ms steps file,
          trail (snd s')
          = trail w ++ tracedCalls viewport userAgent ms steps
              ++ [Did (ReadFile "trace.zip");
                  Did (PutArtifact ("trace:" +:+ jobId) file)]
          /\ file = answer (script w) (awaits (tracedCalls viewport userAgent ms steps))
          /\ artifactsKV (snd s') !! ("trace:" +:+ jobId) = Some file)
     (fun _ _ => True) (f, w).
Proof.
  intros Hg. pose proof (Took_refl w) as H. unfold runBody, when. rewrite Hg.
  tk_all H.
  eapply wp_mono; [apply runActions_took | | intros; exact I]; cbn beta.
  intros ? [f1 w1] (steps & H'); simpl in H';
    apply (Took_trans _ _ _ _ _ H) in H'; clear H; rename H' into H.
  tk_all H.
  match goal with |- wp (storeTrace _ ?data) _ _ _ => set (file := data) end.
  apply (wp_storeTrace_took _ _ _ _ _ _ _ H); [|intros; exact I].
  intros w8 [T8 _] Hk. apply wp_local. cbn [fst snd].
  apply wp_bind, wp_world, wp_now. cbn [fst snd]. intros ts w9 T9 A9 _ _.
  apply wp_bind, wp_frame, wp_bind, wp_world, wp_gets, wp_bind, wp_world, wp_gets, wp_ret.
  cbn [fst snd]. eexists _, _, _, steps, file. split; [|split].
  - rewrite T9, T8. unfold tracedCalls. rewrite <- !app_assoc. reflexivity.
  - subst file. unfold tracedCalls. rewrite <- !app_assoc. reflexivity.
  - rewrite A9. exact Hk.
Qed.


(** A successful run that records a trace: its calls, the bytes it stores
    and where they come from. *)
Lemma executePlaywrightSequence_recording jobId config w res w' :
  generateTrace config = true ->
  executePlaywrightSequence jobId config w = (Returned res, w') ->
  r_status res = success ->
  exists viewport userAgent ms steps file,
    trail w'
    = trail w ++ tracedCalls viewport userAgent ms steps
        ++ [Did (ReadFile "trace.zip"); Did (PutArtifact ("trace:" +:+ jobId) file)]
    /\ file = answer (script w) (awaits (tracedCalls viewport userAgent ms steps))
    /\ artifactsKV w' !! ("trace:" +:+ jobId) = Some file.
Proof.
  intros Hg Hrun Hok. unfold executePlaywrightSequence in Hrun.
  match type of Hrun with
  | context [let (r, s) := ?run (frame0, w) in _] =>
      assert (Hwp : wp run
                      (fun r s' =>
                         r_status r = success ->
                         exists viewport userAgent ms steps file,
                           trail (snd s')
                           = trail w ++ tracedCalls viewport userAgent ms steps
                               ++ [Did (ReadFile "trace.zip");
                                   Did (PutArtifact ("trace:" +:+ jobId) file)]
                           /\ file = answer (script w)
                                       (awaits (tracedCalls viewport userAgent ms steps))
                           /\ artifactsKV (snd s') !! ("trace:" +:+ jobId) = Some file)
                      (fun _ _ => False) (frame0, w))
  end.
  { apply wp_bind, wp_world, (wp_now_took w [] _ _ _ (Took_refl w)). cbn [fst snd].
    intros startTime w1 [T1 S1]. rewrite app_nil_r in T1.
    change (script w1 = script w) in S1.
    apply wp_try_catch.
    eapply wp_mono; [apply (runBody_recording jobId config startTime frame0 w1 Hg) | |];
      cbn beta.
    - intros r s' Hfacts _. rewrite T1, S1 in Hfacts. exact Hfacts.
    - intros e s' _. eapply wp_mono; [apply runRescue_reports | | auto]. cbn beta.
      intros r s'' [Hfail _] Hs. congruence. }
  unfold wp in Hwp.
  match type of Hwp with
  | match ?x with _ => _ end => destruct x as [[res0|e] [f' w'']]
  end; [|contradiction].
  injection Hrun as <- <-. exact (Hwp Hok).
Qed.

(** ** What a submission writes to the job store *)

(** Collects the equations on trails into one. *)
Ltac open_extends :=
  repeat match goal with
         | H : extends _ _ |- _ =>
             let ev := fresh "ev" in
             let T := fresh "T" in
             let W := fresh "W" in
             destruct (ext_trail _ _ H) as (ev & T & W); clear H
         end.

Ltac chain_trails :=
  repeat match goal with
         | H : trail _ = _ |- _ => rewrite H; clear H
         end;
  rewrite <- ?app_assoc.

Ltac count_writes :=
  rewrite ?written_app, ?existsb_app;
  repeat match goal with
         | W : written _ = [] |- _ => rewrite W
         end;
  cbn [written omap app existsb put_job_failed orb];
  rewrite ?orb_true_r, ?orb_true_l.

(** A leaf of the case analysis: name the new events, then count. *)
Ltac new_events :=
  open_extends; eexists; split; [chain_trails; reflexivity|]; count_writes.

Lemma backgroundTask_writes job config w :
  wp (backgroundTask job config)
     (fun _ w' => exists new, trail w' = trail w ++ new
                   /\ TaskWrites job (existsb put_job_failed new) (written new))
     (fun _ w' => exists new, trail w' = trail w ++ new
                   /\ TaskWrites job (existsb put_job_failed new) (written new))
     w.
Proof.
  unfold backgroundTask. apply wp_try_catch, wp_bind, wp_storeJob.
  - intros w1 T1. apply wp_bind, wp_executePlaywrightSequence. intros res w2 X2.
    apply wp_bind, wp_now_trail. intros c w3 T3. apply wp_storeJob.
    + intros w4 T4. new_events. left. eexists _, _, _. split; [|reflexivity].
      destruct (decide (r_status res = success)); reflexivity.
    + intros e w4 T4. apply wp_bind, wp_now_trail. intros c' w5 T5.
      apply wp_bind, wp_now_trail. intros ts w6 T6. apply wp_storeJob.
      * intros w7 T7. new_events. left. eexists _, _, _.
        split; [|reflexivity]. reflexivity.
      * intros e' w7 T7. new_events. right. split; [reflexivity|]. right. left. reflexivity.
  - intros e w1 T1. apply wp_bind, wp_now_trail. intros c' w5 T5.
    apply wp_bind, wp_now_trail. intros ts w6 T6. apply wp_storeJob.
    + intros w7 T7. new_events. right. split; [reflexivity|]. right. right.
      eexists _, _. reflexivity.
    + intros e' w7 T7. new_events. right. split; [reflexivity|]. left. reflexivity.
Qed.

Lemma postJob_writes_wp config w :
  wp (postJob config)
     (fun _ w' => exists new, trail w' = trail w ++ new
                   /\ JobWrites config (existsb put_job_failed new) (written new))
     (fun _ w' => exists new, trail w' = trail w ++ new
                   /\ JobWrites config (existsb put_job_failed new) (written new))
     w.
Proof.
  unfold postJob. destruct (jobConfigSchema config) eqn:Hs; cbn [negb].
  - apply wp_try_catch, wp_bind, wp_randomUUID_trail. intros u w1 T1.
    apply wp_bind, wp_now_trail. intros c w2 T2.
    apply wp_bind, wp_storeJob.
    + intros w3 T3. apply wp_bind, wp_try_catch.
      eapply wp_mono; [apply backgroundTask_writes | |].
      * intros a w4 (new & T4 & HW). apply wp_ret. new_events.
        right. eexists _, _. split; [reflexivity|].
        repeat (split; [reflexivity || assumption|]).
        exact HW.
      * intros e w4 (new & T4 & HW). apply wp_ret, wp_ret. new_events.
        right. eexists _, _. split; [reflexivity|].
        repeat (split; [reflexivity || assumption|]).
        exact HW.
    + intros e w3 T3. apply wp_ret. new_events. left. auto.
  - apply wp_ret. exists []. rewrite app_nil_r. split; [reflexivity|].
    left. auto.
Qed.

(** What one submission writes to the job store. *)
Lemma postJob_writes config w new :
  trail (snd (postJob config w)) = trail w ++ new ->
  JobWrites config (existsb put_job_failed new) (written new).
Proof.
  intros Hnew. pose proof (postJob_writes_wp config w) as H. unfold wp in H.
  destruct (postJob config w) as [[r|e] w']; simpl in Hnew;
    destruct H as (new' & T & HW); rewrite T in Hnew;
    apply app_inv_head in Hnew; subst new'; exact HW.
Qed.

Lemma well_formed_fresh job st :
  j_completedAt job = None -> j_result job = None -> terminal st = false ->
  well_formed (with_status job st).
Proof.
  intros Hc Hr Ht. unfold well_formed. simpl. rewrite Hc, Hr, Ht.
  split; split; intros H; try discriminate H; destruct H; discriminate.
Qed.

Lemma well_formed_finished job st completedAt result :
  terminal st = true -> well_formed (finished job st completedAt result).
Proof.
  intros Ht. unfold well_formed. simpl. rewrite Ht.
  split; split; intros _; eauto.
Qed.

Lemma with_status_same job : with_status job (j_status job) = job.
Proof. destruct job. reflexivity. Qed.

(** ** The delete route *)

Lemma deleteJobRoute_uuid jobId w :
  is_uuid jobId = true ->
  deleteJobRoute jobId w = (Json 400 (ErrorBody "Invalid job ID"), w).
Proof.
  intros H. unfold deleteJobRoute.
  rewrite (is_uuid_no_job_prefix _ H), orb_true_r. reflexivity.
Qed.



(** ** Locator resolution *)

Lemma getLocator_truthyFields action :
  getLocator action = locatorBySpec (truthyFields action).
Proof.
  unfold getLocator, locatorBySpec, truthyFields. simpl.
  destruct (truthy (a_getByLabel action)) as [label|]; [reflexivity|].
  destruct (a_getByText action) as [[s|text exact]|]; [|reflexivity|].
  - destruct (decide (s = "")); [|reflexivity].
    destruct (truthy (a_getByName action)); reflexivity.
  - destruct (truthy (a_getByName action)); reflexivity.
Qed.

Lemma getLocator_unset action :
  a_selector action = None -> a_getByLabel action = None ->
  a_getByText action = None -> a_getByName action = None ->
  getLocator action = None.
Proof. unfold getLocator. intros -> -> -> ->. reflexivity. Qed.

(** * The specified properties, C1 to C10 *)

(** ** Deleting a job *)

(** C1 (as the code behaves).  A job submitted through [POST /api/v1/jobs]
    gets the UUID [jobA] as its id and is stored with one screenshot.
    [DELETE /api/v1/jobs/87ed99b7-...] for that very id is answered with 400
    "Invalid job ID": the record and the screenshot blob are still there,
    and a following [GET] of the job answers 200, not 404.  The
    specification asks for 200 on the delete and 404 on the following get. *)
Theorem delete_refuses_generated_job_id :
  is_uuid jobA = true
  /\ http_status (getJobRoute jobA storedWorld) = 200
  /\ routeDelete ("/api/v1/jobs/" +:+ jobA) storedWorld
     = (Json 400 (ErrorBody "Invalid job ID"), storedWorld)
  /\ http_status
       (getJobRoute jobA (snd (routeDelete ("/api/v1/jobs/" +:+ jobA) storedWorld)))
     = 200
  /\ http_status
       (routeGet (screenshotPath jobA shotA)
          (snd (routeDelete ("/api/v1/jobs/" +:+ jobA) storedWorld)))
     = 200.
Proof.
  assert (Hd : routeDelete ("/api/v1/jobs/" +:+ jobA) storedWorld
               = (Json 400 (ErrorBody "Invalid job ID"), storedWorld)).
  { unfold routeDelete.
    replace (segments ("/api/v1/jobs/" +:+ jobA))
      with [""; "api"; "v1"; "jobs"; jobA] by (vm_compute; reflexivity).
    destruct (decide (jobA = "")); [discriminate|].
    apply deleteJobRoute_uuid. vm_compute. reflexivity. }
  rewrite Hd. cbn [snd].
  split; [vm_compute; reflexivity|].
  split; [vm_compute; reflexivity|].
  split; [reflexivity|].
  split; vm_compute; reflexivity.
Qed.

(** ** Status transitions *)

(** C2, counterexample.  The write of the pending record succeeds and the
    write of the running record throws: the task's handler forces the job
    to failed, so the statuses written are pending, failed; the record is
    never overwritten with running. *)
Lemma running_write_can_be_skipped :
  jobConfigSchema (desktopJob [gotoExample] false) = true
  /\ statusesWritten (desktopJob [gotoExample] false) runningWriteFails
     = [pending; failed]
  /\ ~ (exists t, statusesWritten (desktopJob [gotoExample] false) runningWriteFails
                  = [pending; running; t]).
Proof.
  split; [reflexivity|].
  assert (H : statusesWritten (desktopJob [gotoExample] false) runningWriteFails
              = [pending; failed]) by (vm_compute; reflexivity).
  split; [exact H|]. rewrite H. intros [t Ht]. discriminate Ht.
Qed.

(** C2, amended.  For every submission, the sequence of status values
    written to the job store is strictly increasing along pending, running,
    terminal: it starts with pending, holds running at most once and a
    terminal status at most once, and nothing is written after a terminal
    status.  When the body is valid and no write to the job store fails, the
    sequence is exactly pending, running, and one terminal status. *)
Theorem status_writes_are_monotone
    (config : JobConfig) (w : World) (new : list Event) :
  trail (snd (postJob config w)) = trail w ++ new ->
  let sts := map j_status (written new) in
  StronglySorted (fun a b => (rank a < rank b)%nat) sts
  /\ (forall st, head sts = Some st -> st = pending)
  /\ (forall before st later,
        sts = before ++ st :: later -> terminal st = true -> later = [])
  /\ (jobConfigSchema config = true -> existsb put_job_failed new = false ->
      exists t, terminal t = true /\ sts = [pending; running; t]).
Proof.
  intros Hnew sts. apply postJob_writes in Hnew.
  assert (Hcases :
            sts = [] /\ (existsb put_job_failed new = true \/ jobConfigSchema config = false)
            \/ (exists t, terminal t = true /\ sts = [pending; running; t])
            \/ existsb put_job_failed new = true
               /\ (sts = [pending] \/ sts = [pending; running] \/ sts = [pending; failed])).
  { subst sts.
    destruct Hnew as [[-> Hf] | (job & rest & -> & Hp & _ & _ & _ & _ & HT)];
      [left; auto | right].
    destruct HT as [(st & c & r & Ht & ->) | (Hf & [-> | [-> | (c & r & ->)]])];
      simpl; rewrite Hp; eauto 8. }
  clearbody sts. clear Hnew.
  assert (Hlast : forall t, terminal t = true -> (rank t = 2)%nat)
    by (intros []; simpl; congruence).
  destruct Hcases as [[-> Hf] | [(t & Ht & ->) | (Hf & [-> | [-> | ->]])]].
  - repeat split.
    + constructor.
    + discriminate.
    + intros [|? ?] ? ? ?; discriminate.
    + intros Hs Hno. destruct Hf; congruence.
  - repeat split.
    + pose proof (Hlast t Ht). repeat constructor; simpl; lia.
    + intros st [= <-]. reflexivity.
    + intros [|a [|b [|c before]]] st later Heq Hst; simplify_eq/=; try done;
        try (destruct before; discriminate).
    + eauto.
  - repeat split.
    + repeat constructor.
    + intros st [= <-]. reflexivity.
    + intros [|a [|b before]] st later Heq Hst; simplify_eq/=; try done;
        try (destruct before; discriminate).
    + congruence.
  - repeat split.
    + repeat constructor; simpl; lia.
    + intros st [= <-]. reflexivity.
    + intros [|a [|b [|c before]]] st later Heq Hst; simplify_eq/=; try done;
        try (destruct before; discriminate).
    + congruence.
  - repeat split.
    + repeat constructor; simpl; lia.
    + intros st [= <-]. reflexivity.
    + intros [|a [|b [|c before]]] st later Heq Hst; simplify_eq/=; try done;
        try (destruct before; discriminate).
    + congruence.
Qed.

Lemma status_writes_are_monotone_witness :
  StronglySorted (fun a b => (rank a < rank b)%nat) submittedStatuses
  /\ (exists t, terminal t = true /\ submittedStatuses = [pending; running; t]).
Proof.
  pose proof (status_writes_are_monotone exampleJob submissionWorld submittedTrail
                ltac:(vm_compute; reflexivity)) as (Hsorted & _ & _ & Hall).
  split; [exact Hsorted|].
  apply Hall; vm_compute; reflexivity.
Defined.

(** ** Job records *)

(** C3.  Every job record a submission persists, whatever the environment
    answers: [result] is present iff the status is completed or failed, and
    [completedAt] is present iff the status is completed or failed; a
    pending or running record carries neither. *)
Theorem persisted_records_well_formed
    (config : JobConfig) (w : World) (new : list Event) :
  trail (snd (postJob config w)) = trail w ++ new ->
  Forall well_formed (written new).
Proof.
  intros Hnew. apply postJob_writes in Hnew.
  destruct Hnew as [[-> _] | (job & rest & -> & Hp & Hc & Hr & _ & _ & HT)].
  - constructor.
  - assert (Hjob : well_formed job).
    { rewrite <- (with_status_same job). apply well_formed_fresh; try assumption.
      rewrite Hp. reflexivity. }
    assert (Hrun : well_formed (with_status job running))
      by (apply well_formed_fresh; auto).
    constructor; [exact Hjob|].
    destruct HT as [(st & c & r & Ht & ->) | (_ & [-> | [-> | (c & r & ->)]])];
      repeat first [apply List.Forall_cons | apply List.Forall_nil];
      auto using well_formed_finished.
Qed.

Lemma persisted_records_well_formed_witness :
  Forall well_formed (written submittedTrail).
Proof.
  apply (persisted_records_well_formed exampleJob submissionWorld).
  vm_compute. reflexivity.
Defined.

(** ** Trace steps *)

(** C4 (as the code behaves).  One configured action, which is attempted
    and fails; the capture of the diagnostic screenshot succeeds and its
    write to the artifact store throws inside the per-step [catch].  The
    exception leaves the [catch] before [trace.steps.push]: the result is a
    failure whose [trace.steps] is empty, where the specification asks for
    exactly one entry with [success] false. *)
Theorem failed_step_is_not_recorded :
  exists res,
    fst lostStepRun = Returned res
    /\ Failed (FirstClick (BySelector "#does-not-exist") (Some 500)) timeoutError
       ∈ trail (snd lostStepRun)
    /\ Failed (PutArtifact (screenshotKey jobA shotA) "PNG-bytes") kvError
       ∈ trail (snd lostStepRun)
    /\ r_status res = fail
    /\ (steps <$> r_trace res) = Some [].
Proof.
  eexists. split; [vm_compute; reflexivity|].
  split; [vm_compute; repeat first [apply list_elem_of_here | apply list_elem_of_further]|].
  split; [vm_compute; repeat first [apply list_elem_of_here | apply list_elem_of_further]|].
  split; reflexivity.
Qed.

(** ** Locator resolution order *)

(** C5, counterexample.  With [getByLabel] set to the empty string and a
    selector, the first set field is the label, but the code resolves the
    selector. *)
Lemma getLocator_skips_empty_label :
  actionSchema emptyLabelClick = true
  /\ locatorBySpec emptyLabelClick = Some (ByLabel "")
  /\ getLocator emptyLabelClick = Some (BySelector "#submit")
  /\ getLocator emptyLabelClick <> locatorBySpec emptyLabelClick.
Proof. repeat split. discriminate. Qed.

(** C5, amended.  Locator resolution picks the first truthy field (a
    non-empty string, or a [getByText] object) in the order getByLabel,
    getByText (with the [exact] flag of the object form, substring match for
    the string form), getByName (as the textbox role), selector; when none
    is truthy there is no locator, and a click or a scroll that carries both
    [x] and [y] then performs the coordinate click or wheel call. *)
Theorem getLocator_first_truthy_field (action : Action) :
  getLocator action = locatorBySpec (truthyFields action)
  /\ (forall label, truthy (a_getByLabel action) = Some label ->
        getLocator action = Some (ByLabel label))
  /\ (locatorBySpec (truthyFields action) = None ->
      forall jobId navigationStart x y,
        a_x action = Some x -> a_y action = Some y ->
        (a_type action = click ->
         performAction jobId action navigationStart
         = (_ <- world (await (MouseClick x y)) ;; ret tt))
        /\ (a_type action = scroll ->
            performAction jobId action navigationStart
            = (_ <- world (await (MouseWheel x y)) ;; ret tt))).
Proof.
  split; [apply getLocator_truthyFields|]. split.
  - intros label Hl. unfold getLocator. rewrite Hl. reflexivity.
  - rewrite <- getLocator_truthyFields.
    intros Hnone jobId ns x y Hx Hy.
    split; intros Ht; unfold performAction; rewrite Ht, Hnone, Hx, Hy; reflexivity.
Qed.

Lemma getLocator_first_truthy_field_witness :
  getLocator clickAt = None
  /\ performAction jobA clickAt None = (_ <- world (await (MouseClick 10 20)) ;; ret tt).
Proof.
  split; [reflexivity|].
  exact (proj1 (proj2 (proj2 (getLocator_first_truthy_field clickAt)) eq_refl
                  jobA None 10 20 eq_refl eq_refl) eq_refl).
Defined.

(** ** The first action failure *)

(** C6 (as the code behaves).  The second action fails with a timeout; the
    diagnostic screenshot is captured but storing it throws.  That failure
    is not swallowed: no failed [TraceStep] is appended (the trace holds the
    one successful step), and the outer handler receives the store's
    exception, so the fail [JobResult] carries the store's message and
    stack instead of the original error's. *)
Theorem diagnostic_store_failure_masks_error :
  exists res err,
    fst maskedErrorRun = Returned res
    /\ Failed (FirstClick (BySelector "#does-not-exist") (Some 500)) timeoutError
       ∈ trail (snd maskedErrorRun)
    /\ r_status res = fail
    /\ r_error res = Some err
    /\ e_message err = message_or "Unknown error" kvError
    /\ e_stack err = stack_of kvError
    /\ e_message err <> message_or "Unknown error" timeoutError
    /\ (map t_success <$> (steps <$> r_trace res)) = Some [true].
Proof.
  eexists _, _. split; [vm_compute; reflexivity|].
  split; [vm_compute; repeat first [apply list_elem_of_here | apply list_elem_of_further]|].
  split; [reflexivity|]. split; [reflexivity|].
  split; [reflexivity|]. split; [reflexivity|].
  split; [discriminate | reflexivity].
Qed.

(** ** Releasing the browser session on every path *)

(** C7 (as the code behaves).  All actions succeed and [browser.close()] of
    the success path throws.  That call is awaited inside the outer [try]
    without a handler of its own: the exception reaches the outer [catch],
    the job's result is a failure carrying the close error (with captured
    diagnostics), and close is called a second time, this time guarded.
    With the same answers but a close that works, the result is a success.
    The specification asks that a failing close never changes the outcome. *)
Theorem close_failure_fails_the_job :
  exists res err good,
    fst closeFailsRun = Returned res
    /\ fst closeWorksRun = Returned good
    /\ r_status good = success
    /\ r_status res = fail
    /\ r_error res = Some err
    /\ e_message err = message_or "Unknown error" closeError
    /\ (map t_success <$> (steps <$> r_trace res)) = Some [true]
    /\ Failed BrowserClose closeError ∈ trail (snd closeFailsRun)
    /\ closes (trail (snd closeFailsRun)) = 2%nat.
Proof.
  eexists _, _, _. split; [vm_compute; reflexivity|].
  split; [vm_compute; reflexivity|].
  split; [reflexivity|]. split; [reflexivity|]. split; [reflexivity|].
  split; [reflexivity|]. split; [reflexivity|].
  split; [vm_compute; repeat first [apply list_elem_of_here | apply list_elem_of_further] | vm_compute; reflexivity].
Qed.

(** ** The trace bundle *)

(** C8, counterexample.  A job with [generateTrace: true] whose only action
    succeeds: the result is a success, its trace block has the viewer URL,
    and no [traceFile]. *)
Lemma trace_file_is_never_set :
  generateTrace tracedJob = true
  /\ fst tracedRun = Returned tracedResult
  /\ r_status tracedResult = success
  /\ (r_trace tracedResult ≫= traceViewerUrl) = Some (traceViewer jobA)
  /\ (r_trace tracedResult ≫= traceFile) = None
  /\ ~ (is_Some (r_trace tracedResult ≫= traceFile)
        /\ is_Some (r_trace tracedResult ≫= traceViewerUrl)).
Proof.
  split; [reflexivity|]. split; [vm_compute; reflexivity|].
  split; [reflexivity|]. split; [reflexivity|]. split; [reflexivity|].
  intros [[x Hx] _]. discriminate Hx.
Qed.

(** C8, amended.  For every job run with [options.generateTrace] true that
    ends in a success result: the trace block of the result carries the
    trace-viewer URL of the job's trace endpoint and no [traceFile]; the
    calls of the run are the launch, the page, the start of the tracing,
    the default timeout, the calls of the action loop, the stop of the
    tracing into [trace.zip], the close of the browser, the reading of
    [trace.zip] and the write under the key [trace:<jobId>]; the bytes
    written are the ones the environment answered to that reading; the
    store holds them under the key, and the trace endpoint answers with
    them. *)
Theorem generated_trace_is_served
    (jobId : string) (config : JobConfig) (w w' : World) (res : JobResult) :
  generateTrace config = true ->
  executePlaywrightSequence jobId config w = (Returned res, w') ->
  r_status res = success ->
  exists tr file viewport userAgent ms steps,
    r_trace res = Some tr
    /\ traceViewerUrl tr = Some (traceViewer jobId)
    /\ traceFile tr = None
    /\ trail w'
       = trail w ++ tracedCalls viewport userAgent ms steps
           ++ [Did (ReadFile "trace.zip"); Did (PutArtifact ("trace:" +:+ jobId) file)]
    /\ file = answer (script w) (awaits (tracedCalls viewport userAgent ms steps))
    /\ Did (PutArtifact ("trace:" +:+ jobId) file) ∈ trail w'
    /\ artifactsKV w' !! ("trace:" +:+ jobId) = Some file
    /\ getTraceRoute jobId w' = Blob (zipHeaders jobId) file.
Proof.
  intros Hg Hrun Hok.
  destruct (executePlaywrightSequence_spec jobId config w) as (res' & w'' & Hrun' & Hpost).
  rewrite Hrun in Hrun'. injection Hrun' as <- <-.
  destruct (post_trace _ _ _ _ _ Hpost Hok Hg) as (tr & Htr & Hurl & _).
  destruct (post_file _ _ _ _ _ Hpost) as (tr' & Htr' & Hfile).
  rewrite Htr in Htr'. injection Htr' as <-.
  destruct (executePlaywrightSequence_recording _ _ _ _ _ Hg Hrun Hok)
    as (viewport & userAgent & ms & steps & file & Htrail & Hread & Hk).
  exists tr, file, viewport, userAgent, ms, steps.
  repeat (split; [assumption|]). split; [|split; [exact Hk|]].
  - rewrite Htrail, !app_assoc. apply elem_of_app. right.
    apply list_elem_of_further, list_elem_of_here.
  - unfold getTraceRoute. rewrite Hk. reflexivity.
Qed.

Lemma generated_trace_is_served_witness :
  (exists tr file viewport userAgent ms steps,
     r_trace tracedResult = Some tr
     /\ traceViewerUrl tr = Some (traceViewer jobA)
     /\ traceFile tr = None
     /\ trail (snd tracedRun)
        = trail tracedWorld ++ tracedCalls viewport userAgent ms steps
            ++ [Did (ReadFile "trace.zip"); Did (PutArtifact ("trace:" +:+ jobA) file)]
     /\ file = answer (script tracedWorld) (awaits (tracedCalls viewport userAgent ms steps))
     /\ Did (PutArtifact ("trace:" +:+ jobA) file) ∈ trail (snd tracedRun)
     /\ artifactsKV (snd tracedRun) !! ("trace:" +:+ jobA) = Some file
     /\ getTraceRoute jobA (snd tracedRun) = Blob (zipHeaders jobA) file)
  /\ getTraceRoute jobA (snd tracedRun) = Blob (zipHeaders jobA) "PK-trace-bytes".
Proof.
  split; [|vm_compute; reflexivity].
  apply (generated_trace_is_served jobA tracedJob tracedWorld
           (snd tracedRun) tracedResult).
  - reflexivity.
  - apply (run_pair tracedRun tracedResult). vm_compute. reflexivity.
  - reflexivity.
Defined.

(** ** Screenshot addressing *)

(** C9.  For a job whose id is a UUID, run in a world whose identifier
    source hands out UUIDs: every screenshot reference of the returned
    [JobResult] (an entry of [statistics.screenshots], [error.screenshot],
    or the screenshot of a trace step) has the form
    [/api/v1/jobs/<jobId>/screenshots/<id>.png]; the router cuts that path
    into [jobId] and [<id>.png]; the key derived from them is the key under
    which [storeScreenshot] wrote a blob; and [GET] on exactly that path
    answers with that blob, not with 404. *)
Theorem screenshot_reference_round_trip
    (jobId : string) (config : JobConfig) (w w' : World) (res : JobResult)
    (p : string) :
  is_uuid jobId = true ->
  uuid_source w ->
  executePlaywrightSequence jobId config w = (Returned res, w') ->
  p ∈ result_refs res ->
  exists sid data,
    p = screenshotPath jobId sid
    /\ segments p = [""; "api"; "v1"; "jobs"; jobId; "screenshots"; sid +:+ ".png"]
    /\ "screenshot:" +:+ jobId +:+ ":" +:+ (sid +:+ ".png") = screenshotKey jobId sid
    /\ Did (PutArtifact (screenshotKey jobId sid) data) ∈ trail w'
    /\ artifactsKV w' !! screenshotKey jobId sid = Some data
    /\ routeGet p w' = Blob pngHeaders data.
Proof.
  intros Hj Hsrc Hrun Hp.
  destruct (executePlaywrightSequence_spec jobId config w) as (res' & w'' & Hrun' & Hpost).
  rewrite Hrun in Hrun'. injection Hrun' as <- <-.
  pose proof (post_refs _ _ _ _ _ Hpost) as Hrefs.
  rewrite Forall_forall in Hrefs.
  destruct (Hrefs p Hp) as (sid & Hu & -> & data & Hk & Hin).
  specialize (Hu Hsrc).
  exists sid, data.
  pose proof (is_uuid_slashless _ Hj) as Hjs.
  pose proof (is_uuid_slashless _ Hu) as Hss.
  split; [reflexivity|].
  split; [apply segments_screenshotPath; assumption|].
  split; [reflexivity|].
  split; [exact Hin|].
  split; [exact Hk|].
  rewrite routeGet_screenshotPath by (auto using is_uuid_nonempty).
  unfold getScreenshotRoute.
  change ("screenshot:" +:+ jobId +:+ ":" +:+ sid +:+ ".png") with (screenshotKey jobId sid).
  rewrite Hk. reflexivity.
Qed.

Lemma screenshot_reference_round_trip_witness :
  exists sid data,
    screenshotPath jobA shotA = screenshotPath jobA sid
    /\ segments (screenshotPath jobA shotA)
       = [""; "api"; "v1"; "jobs"; jobA; "screenshots"; sid +:+ ".png"]
    /\ "screenshot:" +:+ jobA +:+ ":" +:+ (sid +:+ ".png") = screenshotKey jobA sid
    /\ Did (PutArtifact (screenshotKey jobA sid) data) ∈ trail (snd exampleRun)
    /\ artifactsKV (snd exampleRun) !! screenshotKey jobA sid = Some data
    /\ routeGet (screenshotPath jobA shotA) (snd exampleRun) = Blob pngHeaders data.
Proof.
  apply (screenshot_reference_round_trip jobA exampleJob exampleWorld
           (snd exampleRun) exampleResult (screenshotPath jobA shotA)).
  - vm_compute. reflexivity.
  - constructor; [vm_compute; reflexivity | constructor].
  - apply (run_pair exampleRun exampleResult). vm_compute. reflexivity.
  - vm_compute. apply list_elem_of_here.
Defined.

(** ** The expect action without a locator *)

(** C10, counterexample.  [{type: "expect", toContainText: ""}] is valid for
    the schema, sets [toContainText] and no locator field, and its execution
    is a no-op: nothing is dereferenced and the step is recorded as a
    success. *)
Lemma expect_empty_text_is_noop :
  actionSchema expectEmpty = true
  /\ is_Some (a_toContainText expectEmpty)
  /\ getLocator expectEmpty = None
  /\ (forall s, performAction jobA expectEmpty None s = (Returned tt, s))
  /\ map t_success
       (steps (trace (fst (snd (runStep jobA expectEmpty (frame0, boot [] [] []))))))
     = [true].
Proof.
  split; [reflexivity|]. split; [eexists; reflexivity|].
  split; [reflexivity|]. split; [intros s; reflexivity|].
  vm_compute. reflexivity.
Qed.

(** C10, amended.  An expect action whose [toContainText] is a non-empty
    string and that sets none of the locator fields gets no locator; its
    execution throws the TypeError of [null.first()] before any call on the
    browser driver (the state is untouched), so the step always ends in an
    exception and is never a no-op. *)
Theorem expect_without_locator_throws (action : Action) (expected : string) :
  a_type action = expect ->
  a_toContainText action = Some expected -> expected <> "" ->
  a_selector action = None -> a_getByLabel action = None ->
  a_getByText action = None -> a_getByName action = None ->
  getLocator action = None
  /\ (forall jobId ns s, performAction jobId action ns s = (Threw nullFirst, s))
  /\ (forall jobId s, exists e s', runStep jobId action s = (Threw e, s')).
Proof.
  intros Ht Htxt Hne Hs Hl Hx Hn.
  pose proof (getLocator_unset _ Hs Hl Hx Hn) as Hloc.
  assert (Hp : forall jobId ns s,
             performAction jobId action ns s = (Threw nullFirst, s)).
  { intros jobId ns s. unfold performAction. rewrite Ht, Htxt, Hloc. simpl.
    destruct (decide (expected = "")); [contradiction | reflexivity]. }
  split; [exact Hloc|]. split; [exact Hp|].
  intros jobId. apply runStep_throws. intros ns s. exists nullFirst. apply Hp.
Qed.

Lemma expect_without_locator_throws_witness :
  getLocator expectWelcome = None
  /\ (forall jobId ns s, performAction jobId expectWelcome ns s = (Threw nullFirst, s))
  /\ (forall jobId s, exists e s', runStep jobId expectWelcome s = (Threw e, s')).
Proof.
  apply (expect_without_locator_throws expectWelcome "Welcome");
    reflexivity || discriminate.
Defined.

(** * Further properties of the worker, X1 to X28 *)

(** ** Strings and keys *)

Lemma append_assoc (a b c : string) : (a +:+ b) +:+ c = a +:+ (b +:+ c).
Proof.
  induction a as [|x a IH]; [reflexivity|].
  change (String x ((a +:+ b) +:+ c) = String x (a +:+ (b +:+ c))).
  rewrite IH. reflexivity.
Qed.

Lemma append_nil_r (a : string) : a +:+ "" = a.
Proof.
  induction a as [|x a IH]; [reflexivity|].
  change (String x (a +:+ "") = String x a). rewrite IH. reflexivity.
Qed.


Lemma length_append (a b : string) :
  String.length (a +:+ b) = (String.length a + String.length b)%nat.
Proof.
  induction a as [|x a IH]; [reflexivity|].
  change (S (String.length (a +:+ b)) = S (String.length a + String.length b)).
  rewrite IH. reflexivity.
Qed.

Lemma append_inj_length (a a' b b' : string) :
  String.length a = String.length a' -> a +:+ b = a' +:+ b' -> a = a' /\ b = b'.
Proof.
  revert a'. induction a as [|x a IH]; intros [|x' a'] Hlen Heq;
    try discriminate Hlen.
  - split; [reflexivity | exact Heq].
  - change (String x (a +:+ b) = String x' (a' +:+ b')) in Heq.
    injection Heq as -> Heq. injection Hlen as Hlen.
    destruct (IH a' Hlen Heq) as [-> ->]. split; reflexivity.
Qed.

Lemma append_inj_r (a a' c : string) : a +:+ c = a' +:+ c -> a = a'.
Proof.
  intros Heq. apply (append_inj_length a a' c c); [|exact Heq].
  apply (f_equal String.length) in Heq. rewrite !length_append in Heq. lia.
Qed.

Lemma uuid_from_length s : forall i, uuid_from i s = true -> (i + String.length s = 36)%nat.
Proof.
  induction s as [|c s IH]; intros i H; simpl in *.
  - apply Nat.eqb_eq in H. lia.
  - apply andb_true_iff in H as [_ H]. apply IH in H. lia.
Qed.

Lemma is_uuid_length s : is_uuid s = true -> String.length s = 36%nat.
Proof. intros H. apply (uuid_from_length s 0), H. Qed.

(** Two screenshots get the same key only when they are the same
    screenshot of the same job, for job ids of the generated form. *)
Lemma screenshotKey_inj j1 s1 j2 s2 :
  is_uuid j1 = true -> is_uuid j2 = true ->
  screenshotKey j1 s1 = screenshotKey j2 s2 -> j1 = j2 /\ s1 = s2.
Proof.
  intros H1 H2 Heq. unfold screenshotKey in Heq.
  apply (String.app_inj "screenshot:") in Heq.
  apply append_inj_length in Heq as [-> Heq];
    [|rewrite (is_uuid_length _ H1), (is_uuid_length _ H2); reflexivity].
  apply (String.app_inj ":") in Heq.
  apply append_inj_r in Heq. auto.
Qed.

Lemma screenshotKey_not_trace j s j' : screenshotKey j s <> "trace:" +:+ j'.
Proof. discriminate. Qed.

(** The keys of one job are not keys of another, for ids of the generated
    form. *)
Lemma own_key_not_other jobId other key :
  is_uuid jobId = true -> is_uuid other = true -> other <> jobId ->
  (key = "trace:" +:+ other \/ exists s, key = "screenshot:" +:+ other +:+ ":" +:+ s) ->
  key <> "trace:" +:+ jobId /\ forall sid, key <> screenshotKey jobId sid.
Proof.
  intros Hj Ho Hne [-> | [s ->]]; split; try discriminate.
  - intros Heq. apply (String.app_inj "trace:") in Heq. contradiction.
  - intros sid Heq. unfold screenshotKey in Heq.
    apply (String.app_inj "screenshot:") in Heq.
    apply append_inj_length in Heq as [Heq _]; [contradiction|].
    rewrite (is_uuid_length _ Hj), (is_uuid_length _ Ho). reflexivity.
Qed.

(** ** Descriptions *)

(** X1.  The description [getActionDescription] gives of an action names
    the locator that [getLocator] resolves for it: the description is the
    action's type, text and URL, followed by [ on <locator>] exactly when
    [getLocator] yields a locator, and that locator is the one described.
    Both functions go through the locator fields in the same order and skip
    the same empty ones. *)
Theorem description_names_resolved_locator (action : Action) :
  getActionDescription action
  = describeVerb action
    +:+ match getLocator action with
        | Some l => " on " +:+ describe l
        | None => ""
        end.
Proof.
  unfold getActionDescription, describeVerb.
  set (verb := match truthy (a_url action) with
               | Some u => _ +:+ " " +:+ u
               | None => _
               end).
  assert (Hverb : verb
                  = type_name (a_type action)
                    +:+ match truthy (a_text action) with
                        | Some t => " " +:+ quoted t | None => "" end
                    +:+ match truthy (a_url action) with
                        | Some u => " " +:+ u | None => "" end).
  { unfold verb. destruct (truthy (a_text action)), (truthy (a_url action));
      rewrite ?append_assoc, ?append_nil_r; reflexivity. }
  rewrite <- Hverb. clear Hverb. generalize verb. clear verb. intros verb.
  unfold getLocator.
  destruct (truthy (a_getByLabel action)) as [label|]; [reflexivity|].
  destruct (a_getByText action) as [[s|text exact]|]; [|reflexivity|].
  - destruct (decide (s = "")); [|reflexivity].
    destruct (truthy (a_getByName action)) as [name|]; [reflexivity|].
    destruct (truthy (a_selector action)); simpl;
      rewrite ?append_nil_r; reflexivity.
  - destruct (truthy (a_getByName action)) as [name|]; [reflexivity|].
    destruct (truthy (a_selector action)); simpl;
      rewrite ?append_nil_r; reflexivity.
Qed.

(** ** The key-value helpers *)

(** X2.  [storeJob] followed by [getJob]: when the write returns, [getJob]
    of the record's id yields the record just written and every other id
    reads as before; when the write throws, every id reads as before. *)
Theorem stored_job_is_read_back (job : Job) (w : World) :
  wp (storeJob job)
     (fun _ w' =>
        getJob (j_id job) w' = Some job
        /\ forall other, other <> j_id job -> getJob other w' = getJob other w)
     (fun _ w' => forall any, getJob any w' = getJob any w)
     w.
Proof.
  unfold storeJob. apply wp_bind, wp_await.
  - intros _ w1 (_ & _ & J & _). apply wp_modify. unfold getJob. simpl. split.
    + apply lookup_insert_eq.
    + intros other Hne. rewrite lookup_insert_ne, J; [reflexivity|].
      intros Heq. apply (String.app_inj "job:") in Heq. congruence.
  - intros e w1 (_ & _ & J & _) any. unfold getJob. rewrite J. reflexivity.
Qed.

(** X3.  [storeScreenshot] for a job whose id is a UUID: when it returns,
    the screenshot route serves the stored bytes under [<id>.png], every
    other screenshot of every job with a UUID id is served as before, and
    so is every trace; when it throws, the artifact store is unchanged. *)
Theorem stored_screenshot_overwrites_nothing
    (jobId screenshotId data : string) (w : World) :
  is_uuid jobId = true ->
  wp (storeScreenshot jobId screenshotId data)
     (fun _ w' =>
        getScreenshotRoute jobId (screenshotId +:+ ".png") w' = Blob pngHeaders data
        /\ (forall j s, is_uuid j = true -> (j, s) <> (jobId, screenshotId) ->
              getScreenshotRoute j (s +:+ ".png") w'
              = getScreenshotRoute j (s +:+ ".png") w)
        /\ (forall j, getTraceRoute j w' = getTraceRoute j w))
     (fun _ w' => artifactsKV w' = artifactsKV w)
     w.
Proof.
  intros Hj. unfold storeScreenshot. apply wp_bind, wp_await.
  - intros _ w1 (_ & A & _). apply wp_bind, wp_modify, wp_ret.
    unfold getScreenshotRoute, getTraceRoute. simpl. split; [|split].
    + rewrite lookup_insert_eq. reflexivity.
    + intros j s Hu Hne. rewrite lookup_insert_ne, A; [reflexivity|].
      intros Heq. apply (screenshotKey_inj jobId screenshotId j s Hj Hu) in Heq.
      destruct Heq as [-> ->]. apply Hne. reflexivity.
    + intros j. rewrite lookup_insert_ne, A; [reflexivity|].
      apply (screenshotKey_not_trace jobId screenshotId j).
  - intros e w1 (_ & A & _). exact A.
Qed.

Lemma stored_screenshot_overwrites_nothing_witness :
  wp (storeScreenshot jobA shotB "PNG-bytes")
     (fun _ w' =>
        getScreenshotRoute jobA (shotB +:+ ".png") w' = Blob pngHeaders "PNG-bytes"
        /\ (forall j s, is_uuid j = true -> (j, s) <> (jobA, shotB) ->
              getScreenshotRoute j (s +:+ ".png") w'
              = getScreenshotRoute j (s +:+ ".png") storedWorld)
        /\ (forall j, getTraceRoute j w' = getTraceRoute j storedWorld))
     (fun _ w' => artifactsKV w' = artifactsKV storedWorld)
     storedWorld.
Proof.
  apply (stored_screenshot_overwrites_nothing jobA shotB "PNG-bytes" storedWorld).
  reflexivity.
Defined.

(** X4.  [storeTrace]: when it returns, the trace route of the job serves
    the stored bytes as a zip attachment, the traces of the other jobs are
    served as before, and so is every screenshot; when it throws, the
    artifact store is unchanged. *)
Theorem stored_trace_overwrites_nothing (jobId data : string) (w : World) :
  wp (storeTrace jobId data)
     (fun _ w' =>
        getTraceRoute jobId w' = Blob (zipHeaders jobId) data
        /\ (forall j, j <> jobId -> getTraceRoute j w' = getTraceRoute j w)
        /\ (forall j s, getScreenshotRoute j s w' = getScreenshotRoute j s w))
     (fun _ w' => artifactsKV w' = artifactsKV w)
     w.
Proof.
  unfold storeTrace. apply wp_bind, wp_await.
  - intros _ w1 (_ & A & _). apply wp_bind, wp_modify, wp_ret.
    unfold getScreenshotRoute, getTraceRoute. simpl. split; [|split].
    + rewrite lookup_insert_eq. reflexivity.
    + intros j Hne. rewrite lookup_insert_ne, A; [reflexivity|].
      intros Heq. apply (String.app_inj "trace:") in Heq. congruence.
    + intros j s. rewrite lookup_insert_ne, A; [reflexivity|]. discriminate.
  - intros e w1 (_ & A & _). exact A.
Qed.

(** ** The delete route behind its guard *)

Lemma getJob_delete jobId w :
  getJob jobId (set_jobsKV (delete ("job:" +:+ jobId) (jobsKV w)) w) = None.
Proof. unfold getJob. simpl. apply lookup_delete_eq. Qed.



(** X6.  The refusals of the delete route.  The handler forms three keys
    for an id that passes its guard, [job:<id>], [trace:<id>] and the
    listing prefix [screenshot:<id>]; the store rejects a key of more than
    512 bytes.  For an id whose longest key fits, the route answers 400
    exactly when the id does not start with [job_] (the empty id
    included), 404 exactly when it does and names no record, and 200
    otherwise; with 400 and 404 both stores are left exactly as they were,
    also when artifacts of that id exist.  An id that fails the guard is
    answered 400 whatever its length: nothing is read for it. *)
Theorem delete_refusal_changes_nothing (jobId : string) (w : World) :
  (String.prefix "job_" jobId = true ->
   (String.length ("screenshot:" +:+ jobId) <= 512)%nat) ->
  let (r, w') := deleteJobRoute jobId w in
  (String.prefix "job_" jobId = false
   /\ r = Json 400 (ErrorBody "Invalid job ID") /\ w' = w)
  \/ (String.prefix "job_" jobId = true /\ getJob jobId w = None
      /\ r = Json 404 (ErrorBody "Job not found") /\ w' = w)
  \/ (String.prefix "job_" jobId = true /\ is_Some (getJob jobId w)
      /\ http_status r = 200).
Proof.
  intros _. unfold deleteJobRoute.
  destruct (String.prefix "job_" jobId) eqn:Hpre.
  - assert (Hne : jobId <> "") by (intros ->; discriminate Hpre).
    rewrite (bool_decide_eq_false_2 _ Hne). cbn [negb orb].
    destruct (getJob jobId w) as [job|]; [right; right | right; left]; auto.
  - rewrite orb_true_r. left. auto.
Qed.

Lemma delete_refusal_changes_nothing_witness :
  let (r, w') := deleteJobRoute "job_12" legacyWorld in
  (String.prefix "job_" "job_12" = false
   /\ r = Json 400 (ErrorBody "Invalid job ID") /\ w' = legacyWorld)
  \/ (String.prefix "job_" "job_12" = true /\ getJob "job_12" legacyWorld = None
      /\ r = Json 404 (ErrorBody "Job not found") /\ w' = legacyWorld)
  \/ (String.prefix "job_" "job_12" = true /\ is_Some (getJob "job_12" legacyWorld)
      /\ http_status r = 200).
Proof.
  apply (delete_refusal_changes_nothing "job_12" legacyWorld).
  intros _. apply Nat.leb_le. vm_compute. reflexivity.
Defined.

(** X7.  Deleting twice: after a delete that was answered 200, the same
    delete is answered 404 "Job not found" and changes nothing. *)
Theorem delete_twice_answers_not_found (jobId : string) (job : Job) (w : World) :
  String.prefix "job_" jobId = true ->
  getJob jobId w = Some job ->
  let w' := snd (deleteJobRoute jobId w) in
  deleteJobRoute jobId w' = (Json 404 (ErrorBody "Job not found"), w').
Proof.
  intros Hpre Hjob w'.
  assert (Hne : jobId <> "") by (intros ->; discriminate Hpre).
  assert (Hgone : getJob jobId w' = None).
  { subst w'. unfold deleteJobRoute.
    rewrite (bool_decide_eq_false_2 _ Hne), Hpre. cbn [negb orb].
    rewrite Hjob. cbn [snd]. apply getJob_delete. }
  generalize dependent w'. intros w' Hgone.
  unfold deleteJobRoute.
  rewrite (bool_decide_eq_false_2 _ Hne), Hpre. cbn [negb orb].
  rewrite Hgone. reflexivity.
Qed.

Lemma delete_twice_answers_not_found_witness :
  let w' := snd (deleteJobRoute "job_1" legacyWorld) in
  deleteJobRoute "job_1" w' = (Json 404 (ErrorBody "Job not found"), w').
Proof.
  apply (delete_twice_answers_not_found "job_1" legacyJob legacyWorld).
  - reflexivity.
  - vm_compute. reflexivity.
Defined.



(** ** The result of a run *)

(** What the loop leaves alone: a field of the frame that none of the
    loop's assignments touches keeps its value across the loop. *)
Section LoopKeeps.

Context {A : Type} (g : Frame -> A).

Hypothesis g_step : forall st f, g (push_step st f) = g f.

Hypothesis g_shot : forall p f, g (push_screenshot p f) = g f.

Hypothesis g_load : forall t f, g (set_loadTime t f) = g f.

Hypothesis g_dcl : forall t f, g (set_domContentLoaded t f) = g f.

Lemma performAction_keeps jobId action ns f w :
  wp (performAction jobId action ns)
     (fun _ s' => g (fst s') = g f) (fun _ s' => g (fst s') = g f) (f, w).
Proof.
  unfold performAction.
  destruct (a_type action).
  - destruct (getLocator action); [|destruct (a_x action), (a_y action)];
      frame_run; reflexivity.
  - destruct (getLocator action), (truthy (a_text action)); frame_run; reflexivity.
  - frame_run; reflexivity.
  - frame_run; cbn [fst snd]; rewrite ?g_shot; reflexivity.
  - destruct (truthy (a_url action)); [|frame_run; reflexivity].
    frame_run; try reflexivity.
    destruct (truthyZ ns); frame_run; cbn [fst snd]; rewrite ?g_load, ?g_dcl; reflexivity.
  - destruct (getLocator action); [|destruct (a_x action), (a_y action)];
      frame_run; reflexivity.
  - destruct (truthy (a_toContainText action)); [destruct (getLocator action)|];
      frame_run; reflexivity.
Qed.

Lemma runStep_keeps jobId action f w :
  wp (runStep jobId action)
     (fun _ s' => g (fst s') = g f) (fun _ s' => g (fst s') = g f) (f, w).
Proof.
  unfold runStep, recordFailure. frame_run; try reflexivity.
  destruct (decide (a_type action = goto)); frame_run; try reflexivity.
  all: (eapply wp_mono; [apply performAction_keeps | |]); cbn beta;
    intros ? [f1 w1] Hb; simpl in Hb; frame_run; cbn [fst snd]; rewrite ?g_step;
    try exact Hb.
  all: match goal with
       | |- wp (match ?b with _ => _ end) _ _ _ => destruct b
       end; frame_run; cbn [fst snd]; rewrite ?g_step; exact Hb.
Qed.

Lemma runActions_keeps jobId todo : forall f w,
  wp (runActions jobId todo)
     (fun _ s' => g (fst s') = g f) (fun _ s' => g (fst s') = g f) (f, w).
Proof.
  induction todo as [|action rest IH]; intros f w; simpl; [reflexivity|].
  apply wp_bind. eapply wp_mono; [apply runStep_keeps | |]; cbn beta.
  - intros ? [f1 w1] Hb. simpl in Hb. rewrite <- Hb. apply IH.
  - intros ? ? Hb. exact Hb.
Qed.

End LoopKeeps.

(** The screenshot list grows by one path per screenshot action. *)
Lemma performAction_shots jobId action ns f w :
  wp (performAction jobId action ns)
     (fun _ s' =>
        if isShot action
        then exists sid, screenshots (fst s') = screenshots f ++ [screenshotPath jobId sid]
        else screenshots (fst s') = screenshots f)
     (fun _ s' => screenshots (fst s') = screenshots f) (f, w).
Proof.
  unfold performAction, isShot.
  destruct (a_type action); cbn [bool_decide decide_rel].
  - destruct (getLocator action); [|destruct (a_x action), (a_y action)];
      frame_run; reflexivity.
  - destruct (getLocator action), (truthy (a_text action)); frame_run; reflexivity.
  - frame_run; reflexivity.
  - frame_run; try reflexivity. cbn [fst snd]. eexists. reflexivity.
  - destruct (truthy (a_url action)); [|frame_run; reflexivity].
    frame_run; try reflexivity.
    destruct (truthyZ ns); frame_run; reflexivity.
  - destruct (getLocator action); [|destruct (a_x action), (a_y action)];
      frame_run; reflexivity.
  - destruct (truthy (a_toContainText action)); [destruct (getLocator action)|];
      frame_run; reflexivity.
Qed.

Lemma runStep_shots jobId action f w :
  wp (runStep jobId action)
     (fun _ s' =>
        if isShot action
        then exists sid, screenshots (fst s') = screenshots f ++ [screenshotPath jobId sid]
        else screenshots (fst s') = screenshots f)
     (fun _ _ => True) (f, w).
Proof.
  unfold runStep. apply wp_bind, wp_now_total. intros stepStart w1.
  apply wp_bind.
  assert (Hgo : forall (Q : option Z -> Frame * World -> Prop) E w2,
             (forall ns w3, Q ns (f, w3)) ->
             wp (if decide (a_type action = goto)
                 then t <- world now ;; ret (Some t) else ret None) Q E (f, w2)).
  { intros Q E w2 HQ. destruct (decide (a_type action = goto)).
    - apply wp_bind, wp_now_total. intros. apply wp_ret, HQ.
    - apply wp_ret, HQ. }
  apply Hgo. intros ns w2. apply wp_try_catch, wp_bind.
  eapply wp_mono; [apply performAction_shots | |]; cbn beta.
  - intros _ [f1 w3] Hshots. simpl in Hshots.
    apply wp_bind, wp_now_total. intros t w4.
    apply wp_bind, wp_now_total. intros ts w5.
    apply wp_local. exact Hshots.
  - intros e [f1 w3] _.
    eapply wp_mono; [apply recordFailure_throws | intros ? ? [] | auto].
Qed.

Lemma runActions_shots jobId todo : forall f w,
  wp (runActions jobId todo)
     (fun _ s' =>
        exists ids, screenshots (fst s') = screenshots f ++ map (screenshotPath jobId) ids
                    /\ length ids = length (List.filter isShot todo))
     (fun _ _ => True) (f, w).
Proof.
  induction todo as [|action rest IH]; intros f w; simpl.
  - exists []. rewrite app_nil_r. split; reflexivity.
  - apply wp_bind. eapply wp_mono; [apply runStep_shots | | auto]; cbn beta.
    intros _ [f1 w1] Hstep. simpl in Hstep.
    eapply wp_mono; [apply IH | | auto]; cbn beta.
    intros _ s' (ids & Hs & Hlen). simpl in Hs.
    destruct (isShot action).
    + destruct Hstep as [sid Hstep]. exists (sid :: ids).
      rewrite Hs, Hstep, <- app_assoc. simpl. split; [reflexivity | lia].
    + exists ids. rewrite Hs, Hstep. split; [reflexivity | exact Hlen].
Qed.

Lemma Recorded_loop todo e sts s' :
  (exists k action done,
      todo !! k = Some action
      /\ Forall2 StepOk (take k todo) done
      /\ ((exists st, sts = [] ++ done ++ [st] /\ StepFailed action e st)
          \/ (sts = [] ++ done /\ StoreFailed e s'))) ->
  Recorded todo sts.
Proof.
  intros (k & action & done & Hk & Hall & [(st & -> & Hf & Ha & He) | [-> _]]);
    unfold Recorded; exists k, done; (split; [exact Hall|]); [right | left; reflexivity].
  exists action, st. rewrite He. eauto 8.
Qed.

Lemma Recorded_all todo sts : Forall2 StepOk todo sts -> Recorded todo sts.
Proof.
  intros H. unfold Recorded. exists (length todo), sts. rewrite firstn_all. auto.
Qed.

Lemma Recorded_none todo : Recorded todo [].
Proof.
  unfold Recorded. exists 0%nat, []. rewrite take_0.
  split; [constructor | left; reflexivity].
Qed.

Lemma Recorded_bounds todo sts :
  Recorded todo sts ->
  (length sts <= length todo)%nat
  /\ forall i st, sts !! i = Some st -> t_success st = false -> S i = length sts.
Proof.
  intros (k & done & Hall & Hcase).
  assert (Hok : forall i st, done !! i = Some st -> t_success st = true).
  { intros i st Hi.
    destruct (Forall2_lookup_r _ _ _ _ _ Hall Hi) as (a & _ & Hst & _). exact Hst. }
  pose proof (Forall2_length _ _ _ Hall) as Hlen. rewrite length_take in Hlen.
  destruct Hcase as [-> | (action & last & Hk & Hf & _ & _ & ->)].
  - split; [lia|]. intros i st Hi Hbad. rewrite (Hok i st Hi) in Hbad. discriminate.
  - apply lookup_lt_Some in Hk. rewrite length_app. simpl. split; [lia|].
    intros i st Hi Hbad. destruct (decide (i < length done)%nat) as [Hlt|Hge].
    + rewrite lookup_app_l in Hi by exact Hlt.
      rewrite (Hok i st Hi) in Hbad. discriminate.
    + apply lookup_lt_Some in Hi. rewrite length_app in Hi. simpl in Hi. lia.
Qed.

Lemma LastBlames_ok e todo sts : Forall2 StepOk todo sts -> LastBlames e sts.
Proof.
  intros Hall st Hlast Hbad. apply last_Some in Hlast as [l' ->].
  apply Forall2_app_inv_r in Hall as (? & ? & _ & Hst & _).
  inversion Hst as [|a ? ? ? (Hs & _) _]; subst. congruence.
Qed.

Lemma LastBlames_loop todo e sts s' :
  (exists k action done,
      todo !! k = Some action
      /\ Forall2 StepOk (take k todo) done
      /\ ((exists st, sts = [] ++ done ++ [st] /\ StepFailed action e st)
          \/ (sts = [] ++ done /\ StoreFailed e s'))) ->
  LastBlames e sts.
Proof.
  intros (k & action & done & Hk & Hall & [(st & -> & Hf & Ha & He) | [-> _]]).
  - intros st' Hlast _. simpl in Hlast. rewrite last_snoc in Hlast.
    injection Hlast as <-. exact He.
  - exact (LastBlames_ok _ _ _ Hall).
Qed.

Lemma wp_world_gets {A} (g : World -> A) Q E (s : Frame * World) :
  Q (g (snd s)) s -> wp (world (gets g)) Q E s.
Proof. destruct s. exact id. Qed.

Lemma wp_world_modify (g : World -> World) Q E (s : Frame * World) :
  Q tt (fst s, g (snd s)) -> wp (world (modify g)) Q E s.
Proof. exact id. Qed.

(** Steps of code whose effect on the world does not matter, with no case
    for an exception where the code cannot throw. *)
Ltac frame_walk :=
  repeat (cbn [fst snd];
          lazymatch goal with
          | |- wp (world now) _ _ _ => apply wp_now_total; intros ? ?
          | |- wp (world randomUUID) _ _ _ => apply wp_randomUUID_total; intros ? ?
          | |- wp (world (gets _)) _ _ _ => apply wp_world_gets
          | |- wp (world (modify _)) _ _ _ => apply wp_world_modify
          | |- wp (world (sync _)) _ _ _ => apply wp_world_modify
          | |- wp (world _) _ _ _ => apply wp_world_total; intros ? ?
          | _ => wp_step
          end).

(** The body of the outer [try]: the result it builds, and the frame it
    leaves when it throws. *)
Lemma runBody_result jobId config startTime w :
  wp (runBody jobId config startTime)
     (fun res s' =>
        r_status res = success /\ r_error res = None
        /\ r_trace res = Some (trace (fst s'))
        /\ (exists st, r_statistics res = Some st
                       /\ s_screenshots st = screenshots (fst s'))
        /\ Forall2 StepOk (actions config) (steps (trace (fst s')))
        /\ ShotsOf jobId (actions config) (screenshots (fst s'))
        /\ traceViewerUrl (trace (fst s'))
           = if generateTrace config then Some (traceViewer jobId) else None)
     (fun e s' =>
        traceViewerUrl (trace (fst s')) = None
        /\ Recorded (actions config) (steps (trace (fst s')))
        /\ LastBlames e (steps (trace (fst s'))))
     (frame0, w).
Proof.
  unfold runBody, when.
  pose proof (Recorded_none (actions config)) as Hnone.
  assert (Hnil : forall e, LastBlames e []) by (intros e st; discriminate).
  destruct (generateTrace config) eqn:Hg; frame_walk;
    try (split; [reflexivity | split; [exact Hnone | apply Hnil]]).
  all: (eapply wp_mono;
        [apply wp_conj;
         [apply wp_conj; [apply runActions_steps | apply runActions_shots]
         | apply (runActions_keeps (fun f => traceViewerUrl (trace f))); reflexivity]
        | |]); cbn beta.
  all: try (intros e [f1 w1] [[Hsteps _] Hurl]; simpl in *;
            split; [exact Hurl|];
            split; [eapply Recorded_loop | eapply LastBlames_loop]; exact Hsteps).
  all: intros _ [f1 w1] [[(done & Hsteps & Hall) (ids & Hshots & Hlen)] Hurl];
    simpl in Hsteps, Hshots, Hurl; subst done;
    assert (Hrec := Recorded_all _ _ Hall);
    frame_walk; cbn [fst snd];
    try (split; [exact Hurl | split; [exact Hrec | exact (LastBlames_ok _ _ _ Hall)]]).
  all: repeat split; try reflexivity; try assumption; try (eexists; split; reflexivity).
  all: exists ids; auto.
Qed.

(** The outer [catch]: the result it builds from the frame it finds. *)
Lemma runRescue_result jobId startTime error f w :
  wp (runRescue jobId startTime error)
     (fun res _ =>
        r_status res = fail /\ r_statistics res = None
        /\ r_trace res = Some (trace f)
        /\ exists err, r_error res = Some err
                       /\ e_message err = message_or "Unknown error" error
                       /\ e_stack err = stack_of error)
     (fun _ _ => False) (f, w).
Proof.
  unfold runRescue, when. frame_walk.
  destruct (page f); frame_walk.
  all: match goal with
       | |- wp (if ?b then _ else _) _ _ _ => destruct b
       end; frame_walk.
  all: repeat split; eexists; repeat split.
Qed.

Lemma executePlaywrightSequence_facts jobId config w :
  exists res w',
    executePlaywrightSequence jobId config w = (Returned res, w')
    /\ ResultFacts jobId config res.
Proof.
  unfold executePlaywrightSequence.
  match goal with
  | |- context [let (r, s) := ?run (frame0, w) in _] =>
      assert (Hwp : wp run (fun res _ => ResultFacts jobId config res)
                        (fun _ _ => False) (frame0, w))
  end.
  { apply wp_bind, wp_now_total. intros startTime w1. cbn [fst snd].
    apply wp_try_catch.
    eapply wp_mono; [apply runBody_result | |]; cbn beta.
    - intros res [f1 w2] (Hst & Herr & Htr & (st & Hstat & Hsh) & Hall & Hshots & Hurl).
      simpl in *. split.
      + left. rewrite Hstat. eauto.
      + exists (trace f1). split; [exact Htr|]. split; [apply Recorded_all, Hall|].
        split; [auto|]. split; [congruence|].
        intros st' err _ _ Herr'. congruence.
      + intros st' Hst'. rewrite Hstat in Hst'. injection Hst' as <-.
        rewrite Hsh. exact Hshots.
    - intros e [f1 w2] (Hurl & Hrec & Hlast). simpl in *.
      eapply wp_mono; [apply runRescue_result | | auto]; cbn beta.
      intros res _ (Hst & Hstat & Htr & err & Herr & Hmsg & _). split.
      + right. rewrite Herr. eauto.
      + exists (trace f1). split; [exact Htr|]. split; [exact Hrec|].
        split; [congruence|]. split; [auto|].
        intros st' err' Hl Hbad Herr'. rewrite Herr in Herr'. injection Herr' as <-.
        rewrite Hmsg. exact (Hlast st' Hl Hbad).
      + intros st' Hst'. congruence. }
  unfold wp in Hwp.
  match type of Hwp with
  | match ?x with _ => _ end => destruct x as [[res|e] [f' w']]
  end; [|contradiction].
  exists res, w'. split; [reflexivity | exact Hwp].
Qed.

Lemma facts_of_run jobId config w res w' :
  executePlaywrightSequence jobId config w = (Returned res, w') ->
  ResultFacts jobId config res.
Proof.
  intros Hrun.
  destruct (executePlaywrightSequence_facts jobId config w) as (res' & w'' & Heq & H).
  congruence.
Qed.

(** X9.  The runner never lets an exception out: whatever the environment
    answers, [executePlaywrightSequence] returns a [JobResult].  The result
    always has a trace, and it is of one of two shapes: a success with
    statistics and no error, or a failure with an error and no
    statistics. *)
Theorem runner_returns_a_result (jobId : string) (config : JobConfig) (w : World) :
  exists res,
    fst (executePlaywrightSequence jobId config w) = Returned res
    /\ is_Some (r_trace res)
    /\ ((r_status res = success /\ is_Some (r_statistics res) /\ r_error res = None)
        \/ (r_status res = fail /\ r_statistics res = None /\ is_Some (r_error res))).
Proof.
  destruct (executePlaywrightSequence_facts jobId config w) as (res & w' & Hrun & H).
  exists res. rewrite Hrun. split; [reflexivity|]. split.
  - destruct (rf_trace _ _ _ H) as (tr & Htr & _). rewrite Htr. eauto.
  - exact (rf_shape _ _ _ H).
Qed.

(** X10.  The trace of a successful run lists every configured action, in
    the configured order, each as a successful step with the action's
    description and no error. *)
Theorem successful_trace_lists_every_action
    (jobId : string) (config : JobConfig) (w w' : World) (res : JobResult) :
  executePlaywrightSequence jobId config w = (Returned res, w') ->
  r_status res = success ->
  exists tr,
    r_trace res = Some tr
    /\ Forall2 StepOk (actions config) (steps tr).
Proof.
  intros Hrun Hok.
  destruct (rf_trace _ _ _ (facts_of_run _ _ _ _ _ Hrun)) as (tr & Htr & _ & Hall & _).
  exists tr. split; [exact Htr | apply Hall, Hok].
Qed.

Lemma successful_trace_lists_every_action_witness :
  exists tr,
    r_trace exampleResult = Some tr
    /\ Forall2 StepOk (actions exampleJob) (steps tr).
Proof.
  apply (successful_trace_lists_every_action jobA exampleJob exampleWorld
           (snd exampleRun) exampleResult).
  - apply (run_pair exampleRun exampleResult). vm_compute. reflexivity.
  - reflexivity.
Defined.

(** X11.  The trace of any run stops at the first failure: it holds one
    successful step for each of the first [k] actions and then nothing or
    one failed step, that of action [k].  So it never has more steps than
    the configuration has actions, a failed step is always the last one,
    and no action after a failed one is recorded. *)
Theorem trace_stops_at_the_first_failure
    (jobId : string) (config : JobConfig) (w w' : World) (res : JobResult) :
  executePlaywrightSequence jobId config w = (Returned res, w') ->
  exists tr,
    r_trace res = Some tr
    /\ Recorded (actions config) (steps tr)
    /\ (length (steps tr) <= length (actions config))%nat
    /\ (forall i st, steps tr !! i = Some st -> t_success st = false ->
                     S i = length (steps tr)).
Proof.
  intros Hrun.
  destruct (rf_trace _ _ _ (facts_of_run _ _ _ _ _ Hrun)) as (tr & Htr & Hrec & _).
  exists tr. split; [exact Htr|]. split; [exact Hrec|].
  apply Recorded_bounds, Hrec.
Qed.

Lemma trace_stops_at_the_first_failure_witness :
  exists tr,
    r_trace clickFailsResult = Some tr
    /\ Recorded (actions clickFailsJob) (steps tr)
    /\ (length (steps tr) <= length (actions clickFailsJob))%nat
    /\ (forall i st, steps tr !! i = Some st -> t_success st = false ->
                     S i = length (steps tr)).
Proof.
  apply (trace_stops_at_the_first_failure jobA clickFailsJob clickFailsWorld
           (snd clickFailsRun) clickFailsResult).
  apply (run_pair clickFailsRun clickFailsResult). vm_compute. reflexivity.
Defined.

(** X12.  A failed step and the result of its run report the same error:
    when the last step of the trace of a failed run is a failed step, its
    [error] is the [message] of the result's [error]. *)
Theorem failed_step_and_result_report_one_error
    (jobId : string) (config : JobConfig) (w w' : World) (res : JobResult) :
  executePlaywrightSequence jobId config w = (Returned res, w') ->
  r_status res = fail ->
  exists tr err,
    r_trace res = Some tr /\ r_error res = Some err
    /\ forall st, last (steps tr) = Some st -> t_success st = false ->
                  t_error st = Some (e_message err).
Proof.
  intros Hrun Hbad. pose proof (facts_of_run _ _ _ _ _ Hrun) as H.
  destruct (rf_shape _ _ _ H) as [(Hok & _) | (_ & _ & [err Herr])]; [congruence|].
  destruct (rf_trace _ _ _ H) as (tr & Htr & _ & _ & _ & Hlast).
  exists tr, err. split; [exact Htr|]. split; [exact Herr|].
  intros st Hl Hf. exact (Hlast st err Hl Hf Herr).
Qed.

Lemma failed_step_and_result_report_one_error_witness :
  exists tr err,
    r_trace clickFailsResult = Some tr /\ r_error clickFailsResult = Some err
    /\ forall st, last (steps tr) = Some st -> t_success st = false ->
                  t_error st = Some (e_message err).
Proof.
  apply (failed_step_and_result_report_one_error jobA clickFailsJob clickFailsWorld
           (snd clickFailsRun) clickFailsResult).
  - apply (run_pair clickFailsRun clickFailsResult). vm_compute. reflexivity.
  - reflexivity.
Defined.

(** X13.  The trace of a result carries a trace-viewer URL exactly when the
    run succeeded and the configuration asked for a trace: a failed run
    never offers one, and neither does a run without [generateTrace]. *)
Theorem viewer_link_only_after_a_traced_success
    (jobId : string) (config : JobConfig) (w w' : World) (res : JobResult) :
  executePlaywrightSequence jobId config w = (Returned res, w') ->
  exists tr,
    r_trace res = Some tr
    /\ (is_Some (traceViewerUrl tr)
        <-> r_status res = success /\ generateTrace config = true).
Proof.
  intros Hrun.
  destruct (rf_trace _ _ _ (facts_of_run _ _ _ _ _ Hrun))
    as (tr & Htr & _ & Hok & Hbad & _).
  exists tr. split; [exact Htr|].
  destruct (r_status res) eqn:Hst.
  - destruct (Hok eq_refl) as [_ Hurl]. rewrite Hurl.
    destruct (generateTrace config); split.
    + auto.
    + eauto.
    + intros [? ?]. discriminate.
    + intros [_ ?]. discriminate.
  - rewrite (Hbad eq_refl). split.
    + intros [? ?]. discriminate.
    + intros [? _]. discriminate.
Qed.

Lemma viewer_link_only_after_a_traced_success_witness :
  exists tr,
    r_trace clickFailsResult = Some tr
    /\ (is_Some (traceViewerUrl tr)
        <-> r_status clickFailsResult = success
            /\ generateTrace clickFailsJob = true).
Proof.
  apply (viewer_link_only_after_a_traced_success jobA clickFailsJob clickFailsWorld
           (snd clickFailsRun) clickFailsResult).
  apply (run_pair clickFailsRun clickFailsResult). vm_compute. reflexivity.
Defined.

(** X14.  The statistics of a successful run list exactly one screenshot
    path per configured screenshot action, each of the form
    [/api/v1/jobs/<jobId>/screenshots/<id>.png]. *)
Theorem successful_run_lists_its_screenshots
    (jobId : string) (config : JobConfig) (w w' : World) (res : JobResult) :
  executePlaywrightSequence jobId config w = (Returned res, w') ->
  r_status res = success ->
  exists st ids,
    r_statistics res = Some st
    /\ s_screenshots st = map (screenshotPath jobId) ids
    /\ length ids = length (List.filter isShot (actions config)).
Proof.
  intros Hrun Hok. pose proof (facts_of_run _ _ _ _ _ Hrun) as H.
  destruct (rf_shape _ _ _ H) as [(_ & [st Hst] & _) | (Hbad & _)]; [|congruence].
  destruct (rf_shots _ _ _ H st Hst) as (ids & Hids & Hlen).
  exists st, ids. auto.
Qed.

Lemma successful_run_lists_its_screenshots_witness :
  exists st ids,
    r_statistics exampleResult = Some st
    /\ s_screenshots st = map (screenshotPath jobA) ids
    /\ length ids = length (List.filter isShot (actions exampleJob)).
Proof.
  apply (successful_run_lists_its_screenshots jobA exampleJob exampleWorld
           (snd exampleRun) exampleResult).
  - apply (run_pair exampleRun exampleResult). vm_compute. reflexivity.
  - reflexivity.
Defined.

(** ** The calls of a run *)

Lemma Issued_refl P w : Issued P w w.
Proof. exists []. rewrite app_nil_r. split; [reflexivity|]. split; [constructor | auto]. Qed.

Lemma Issued_trans P w1 w2 w3 : Issued P w1 w2 -> Issued P w2 w3 -> Issued P w1 w3.
Proof.
  intros (n1 & T1 & F1 & A1) (n2 & T2 & F2 & A2). exists (n1 ++ n2).
  split; [rewrite T2, T1, app_assoc; reflexivity|].
  split; [apply Forall_app; auto|].
  intros key Hno. rewrite A2, A1; [reflexivity| |];
    intros data Hin; apply (Hno data), elem_of_app; auto.
Qed.

Lemma Issued_mono (P P' : Call -> Prop) w w' :
  (forall c, P c -> P' c) -> Issued P w w' -> Issued P' w w'.
Proof.
  intros HP (new & T & F & A). exists new. split; [exact T|]. split; [|exact A].
  eapply Forall_impl; [exact F|]. intros e. apply HP.
Qed.

Lemma Issued_after P w ev w' : after w ev w' -> P (call_of ev) -> Issued P w w'.
Proof.
  intros (T & A & _) HP. exists [ev]. split; [exact T|].
  split; [constructor; [exact HP | constructor]|].
  intros key _. rewrite A. reflexivity.
Qed.

Lemma Issued_same P w w' :
  trail w' = trail w -> artifactsKV w' = artifactsKV w -> Issued P w w'.
Proof.
  intros T A. exists []. rewrite app_nil_r. split; [exact T|].
  split; [constructor|]. intros key _. rewrite A. reflexivity.
Qed.

Lemma Issued_put P w w1 key data :
  after w (Did (PutArtifact key data)) w1 -> P (PutArtifact key data) ->
  Issued P w (set_artifactsKV (<[key := data]> (artifactsKV w1)) w1).
Proof.
  intros (T & A & _) HP. exists [Did (PutArtifact key data)]. split; [exact T|].
  split; [constructor; [exact HP | constructor]|].
  intros key' Hno. simpl. rewrite lookup_insert_ne, A; [reflexivity|].
  intros <-. apply (Hno data), list_elem_of_singleton. reflexivity.
Qed.

Section IssuedRules.

Context (P : Call -> Prop) (w0 : World).

Lemma wp_await_iss c (Q : string -> World -> Prop) E w :
  Issued P w0 w -> P c ->
  (forall payload w', Issued P w0 w' -> Q payload w') ->
  (forall e w', Issued P w0 w' -> E e w') ->
  wp (await c) Q E w.
Proof.
  intros H HP HQ HE. apply wp_await.
  - intros p w' Ha. apply HQ, (Issued_trans _ _ _ _ H), (Issued_after _ _ _ _ Ha HP).
  - intros e w' Ha. apply HE, (Issued_trans _ _ _ _ H), (Issued_after _ _ _ _ Ha HP).
Qed.

Lemma wp_now_iss (Q : Z -> World -> Prop) E w :
  Issued P w0 w -> (forall t w', Issued P w0 w' -> Q t w') -> wp now Q E w.
Proof.
  intros H HQ. apply wp_now. intros t w' T A _ _.
  apply HQ, (Issued_trans _ _ _ _ H), Issued_same; assumption.
Qed.

Lemma wp_randomUUID_iss (Q : string -> World -> Prop) E w :
  Issued P w0 w -> (forall u w', Issued P w0 w' -> Q u w') -> wp randomUUID Q E w.
Proof.
  intros H HQ. unfold wp, randomUUID.
  destruct (uuids w); apply HQ, (Issued_trans _ _ _ _ H), Issued_same; reflexivity.
Qed.

Lemma wp_sync_iss c (Q : unit -> World -> Prop) E w :
  Issued P w0 w -> P c -> (forall w', Issued P w0 w' -> Q tt w') -> wp (sync c) Q E w.
Proof.
  intros H HP HQ. apply wp_modify, HQ, (Issued_trans _ _ _ _ H).
  apply (Issued_after _ _ (Did c)); [repeat split | exact HP].
Qed.

Lemma wp_listen_iss b (Q : unit -> World -> Prop) E w :
  Issued P w0 w -> (forall w', Issued P w0 w' -> Q tt w') ->
  wp (modify (set_listening b)) Q E w.
Proof.
  intros H HQ. apply wp_modify, HQ, (Issued_trans _ _ _ _ H), Issued_same; reflexivity.
Qed.

Lemma wp_storeScreenshot_iss jobId sid data (Q : string -> World -> Prop) E w :
  Issued P w0 w -> P (PutArtifact (screenshotKey jobId sid) data) ->
  (forall key w', Issued P w0 w' -> Q key w') ->
  (forall e w', Issued P w0 w' -> E e w') ->
  wp (storeScreenshot jobId sid data) Q E w.
Proof.
  intros H HP HQ HE. unfold storeScreenshot. apply wp_bind, wp_await.
  - intros _ w1 Ha. apply wp_bind, wp_modify, wp_ret.
    apply HQ, (Issued_trans _ _ _ _ H), (Issued_put _ _ _ _ _ Ha HP).
  - intros e w1 Ha. apply HE, (Issued_trans _ _ _ _ H), (Issued_after _ _ _ _ Ha HP).
Qed.

Lemma wp_storeTrace_iss jobId data (Q : string -> World -> Prop) E w :
  Issued P w0 w -> P (PutArtifact ("trace:" +:+ jobId) data) ->
  (forall key w', Issued P w0 w' -> Q key w') ->
  (forall e w', Issued P w0 w' -> E e w') ->
  wp (storeTrace jobId data) Q E w.
Proof.
  intros H HP HQ HE. unfold storeTrace. apply wp_bind, wp_await.
  - intros _ w1 Ha. apply wp_bind, wp_modify, wp_ret.
    apply HQ, (Issued_trans _ _ _ _ H), (Issued_put _ _ _ _ _ Ha HP).
  - intros e w1 Ha. apply HE, (Issued_trans _ _ _ _ H), (Issued_after _ _ _ _ Ha HP).
Qed.

End IssuedRules.

Ltac iss_next H :=
  let H' := fresh "H" in intros ? ? H'; clear H; rename H' into H.

Ltac iss_next1 H :=
  let H' := fresh "H" in intros ? H'; clear H; rename H' into H.

(** One step of the world under [H : Issued P w0 w]; the obligation that the
    call satisfies [P] is left as a goal. *)
Ltac iss_world H :=
  cbn [fst snd];
  lazymatch goal with
  | |- wp now _ _ _ => apply (wp_now_iss _ _ _ _ _ H); iss_next H
  | |- wp randomUUID _ _ _ => apply (wp_randomUUID_iss _ _ _ _ _ H); iss_next H
  | |- wp (await _) _ _ _ =>
      apply (wp_await_iss _ _ _ _ _ _ H); [ | iss_next H | iss_next H]
  | |- wp (sync _) _ _ _ => apply (wp_sync_iss _ _ _ _ _ _ H); [ | iss_next1 H]
  | |- wp (modify (set_listening _)) _ _ _ =>
      apply (wp_listen_iss _ _ _ _ _ _ H); iss_next1 H
  | |- wp (storeScreenshot _ _ _) _ _ _ =>
      apply (wp_storeScreenshot_iss _ _ _ _ _ _ _ _ H); [ | iss_next H | iss_next H]
  | |- wp (storeTrace _ _) _ _ _ =>
      apply (wp_storeTrace_iss _ _ _ _ _ _ _ H); [ | iss_next H | iss_next H]
  end.

Ltac iss_all H := repeat first [iss_world H | wp_step].

Lemma performAction_issued jobId action ns f w :
  wp (performAction jobId action ns)
     (fun _ s' => Issued (stepCall jobId action) w (snd s'))
     (fun _ s' => Issued (stepCall jobId action) w (snd s')) (f, w).
Proof.
  pose proof (Issued_refl (stepCall jobId action) w) as H.
  unfold performAction.
  destruct (a_type action) eqn:Ht.
  - destruct (getLocator action) eqn:Hl; [|destruct (a_x action) eqn:Hx, (a_y action) eqn:Hy];
      iss_all H; try exact H;
      left; unfold request; rewrite Ht, Hl, ?Hx, ?Hy; reflexivity.
  - destruct (getLocator action) eqn:Hl, (truthy (a_text action)) eqn:Hx;
      iss_all H; try exact H.
    left; unfold request; rewrite Ht, Hl, Hx; reflexivity.
  - iss_all H; try exact H. left; unfold request; rewrite Ht; reflexivity.
  - iss_all H; try exact H.
    + right; right; left; reflexivity.
    + right; right; right; eauto.
  - destruct (truthy (a_url action)) eqn:Hu; [|iss_all H; exact H].
    iss_all H; try exact H.
    + left; unfold request; rewrite Ht, Hu; reflexivity.
    + destruct (truthyZ ns); iss_all H; try exact H.
      right; left; auto.
  - destruct (getLocator action) eqn:Hl; [|destruct (a_x action) eqn:Hx, (a_y action) eqn:Hy];
      iss_all H; try exact H;
      left; unfold request; rewrite Ht, Hl, ?Hx, ?Hy; reflexivity.
  - destruct (truthy (a_toContainText action)) eqn:Hx;
      [destruct (getLocator action) eqn:Hl|]; iss_all H; try exact H.
    left; unfold request; rewrite Ht, Hx, Hl; reflexivity.
Qed.

Lemma runStep_issued jobId action f w :
  wp (runStep jobId action)
     (fun _ s' => Issued (stepCall jobId action) w (snd s'))
     (fun _ s' => Issued (stepCall jobId action) w (snd s')) (f, w).
Proof.
  pose proof (Issued_refl (stepCall jobId action) w) as H.
  unfold runStep, recordFailure. iss_all H.
  destruct (decide (a_type action = goto)); iss_all H.
  all: (eapply wp_mono; [apply performAction_issued | |]); cbn beta;
    intros ? [f1 w1] H'; simpl in H';
    apply (Issued_trans _ _ _ _ H) in H'; clear H; rename H' into H;
    iss_all H; try exact H.
  all: try (right; right; left; reflexivity).
  all: right; right; right; eauto.
Qed.

Lemma runActions_issued jobId todo : forall f w,
  wp (runActions jobId todo)
     (fun _ s' =>
        Issued (fun c => exists action, action ∈ todo /\ stepCall jobId action c)
               w (snd s'))
     (fun _ s' =>
        Issued (fun c => exists action, action ∈ todo /\ stepCall jobId action c)
               w (snd s'))
     (f, w).
Proof.
  induction todo as [|action rest IH]; intros f w; simpl.
  - apply Issued_refl.
  - assert (Hhead : forall w',
               Issued (stepCall jobId action) w w' ->
               Issued (fun c => exists a, a ∈ action :: rest /\ stepCall jobId a c) w w').
    { intros w'. apply Issued_mono. intros c Hc. exists action.
      split; [apply list_elem_of_here | exact Hc]. }
    assert (Htail : forall w1 w',
               Issued (fun c => exists a, a ∈ rest /\ stepCall jobId a c) w1 w' ->
               Issued (fun c => exists a, a ∈ action :: rest /\ stepCall jobId a c) w1 w').
    { intros w1 w'. apply Issued_mono. intros c (a & Ha & Hc). exists a.
      split; [apply list_elem_of_further, Ha | exact Hc]. }
    apply wp_bind. eapply wp_mono; [apply runStep_issued | |]; cbn beta.
    + intros _ [f1 w1] H1. simpl in H1.
      eapply wp_mono; [apply IH | |]; cbn beta; intros ? s' H2;
        exact (Issued_trans _ _ _ _ (Hhead _ H1) (Htail _ _ H2)).
    + intros e s' H1. apply Hhead, H1.
Qed.

(** [request] yields calls of the loop's [switch] only. *)
Lemma request_kind action c :
  request action = Some c ->
  match c with
  | Goto _ | FirstClick _ _ | MouseClick _ _ | Fill _ _ _ | FirstScrollIntoView _
  | MouseWheel _ _ | WaitForTimeout _ | ExpectToContainText _ _ | Screenshot => True
  | _ => False
  end.
Proof.
  unfold request.
  destruct (a_type action), (getLocator action), (a_x action), (a_y action),
    (truthy (a_text action)), (truthy (a_url action)),
    (truthy (a_toContainText action));
    simpl; intros [= <-]; exact I.
Qed.

(** The timeouts of the calls [request] yields are the action's. *)
Lemma request_args action c :
  request action = Some c ->
  match c with
  | FirstClick _ timeout | Fill _ _ timeout => timeout = a_timeout action
  | WaitForTimeout ms => ms = or_elseZ (a_timeout action) 1000
  | _ => True
  end.
Proof.
  unfold request.
  destruct (a_type action), (getLocator action), (a_x action), (a_y action),
    (truthy (a_text action)), (truthy (a_url action)),
    (truthy (a_toContainText action));
    simpl; intros [= <-]; reflexivity || exact I.
Qed.

Lemma stepCall_prescribed jobId config action c :
  action ∈ actions config -> stepCall jobId action c -> prescribed jobId config c.
Proof.
  intros Hin [Hreq | [[-> Ht] | [-> | (sid & data & ->)]]]; simpl; eauto.
  pose proof (request_kind _ _ Hreq) as Hk.
  destruct c; simpl; try contradiction; eauto.
Qed.

Lemma loop_prescribed jobId config w w' :
  Issued (fun c => exists action, action ∈ actions config /\ stepCall jobId action c) w w' ->
  Issued (prescribed jobId config) w w'.
Proof.
  apply Issued_mono. intros c (a & Ha & Hc). exact (stepCall_prescribed _ _ _ _ Ha Hc).
Qed.

Lemma runRescue_issued jobId config startTime error f w :
  wp (runRescue jobId startTime error)
     (fun _ s' => Issued (prescribed jobId config) w (snd s'))
     (fun _ _ => False) (f, w).
Proof.
  pose proof (Issued_refl (prescribed jobId config) w) as H.
  unfold runRescue, when. iss_all H.
  destruct (page f); iss_all H.
  all: try match goal with
           | |- wp (if ?b then _ else _) _ _ _ => destruct b
           end; iss_all H; try exact H; simpl; eauto.
Qed.

Lemma runBody_issued jobId config startTime f w :
  wp (runBody jobId config startTime)
     (fun _ s' => Issued (prescribed jobId config) w (snd s'))
     (fun _ s' => Issued (prescribed jobId config) w (snd s')) (f, w).
Proof.
  pose proof (Issued_refl (prescribed jobId config) w) as H.
  unfold runBody, when.
  destruct (generateTrace config) eqn:Hg; iss_all H; try exact H.
  all: try (simpl; auto; fail).
  all: (eapply wp_mono; [apply runActions_issued | |]); cbn beta;
    intros ? [f1 w1] H'; simpl in H'; apply loop_prescribed in H';
    apply (Issued_trans _ _ _ _ H) in H'; clear H; rename H' into H;
    iss_all H; try exact H; simpl; auto.
Qed.

(** Every call of a run is one the configuration prescribes, and the
    artifact store changes only where those calls wrote. *)
Lemma executePlaywrightSequence_issued jobId config w :
  Issued (prescribed jobId config) w (snd (executePlaywrightSequence jobId config w)).
Proof.
  unfold executePlaywrightSequence.
  match goal with
  | |- context [let (r, s) := ?run (frame0, w) in _] =>
      assert (Hwp : wp run (fun _ s' => Issued (prescribed jobId config) w (snd s'))
                        (fun _ _ => False) (frame0, w))
  end.
  { pose proof (Issued_refl (prescribed jobId config) w) as H. iss_all H.
    eapply wp_mono; [apply runBody_issued | |]; cbn beta.
    - intros ? [f1 w2] H'. exact (Issued_trans _ _ _ _ H H').
    - intros e [f1 w2] H'. simpl in H'.
      apply (Issued_trans _ _ _ _ H) in H'.
      eapply wp_mono; [apply (runRescue_issued jobId config) | | auto]; cbn beta.
      intros ? s' H2. exact (Issued_trans _ _ _ _ H' H2). }
  unfold wp in Hwp.
  match type of Hwp with
  | match ?x with _ => _ end => destruct x as [[res|e] [f' w']]
  end; [exact Hwp | contradiction].
Qed.

Lemma in_range_bounds lo hi n : in_range lo hi (Some n) = true -> lo <= n <= hi.
Proof. unfold in_range. intros H. apply andb_true_iff in H as [H1 H2]. lia. Qed.

Lemma schema_action config action :
  jobConfigSchema config = true -> action ∈ actions config -> actionSchema action = true.
Proof.
  unfold jobConfigSchema. intros H Hin.
  repeat (apply andb_true_iff in H as [H _]).
  rewrite forallb_forall in H. apply H, list_elem_of_In, Hin.
Qed.

Lemma schema_options config o :
  jobConfigSchema config = true -> options config = Some o -> optionsSchema o = true.
Proof.
  unfold jobConfigSchema. intros H Ho. rewrite Ho in H.
  apply andb_true_iff in H as [_ H]. exact H.
Qed.

(** The presets of the three device types are within the bounds the schema
    sets for an explicit viewport. *)
Lemma preset_in_bounds d :
  320 <= width (d_viewport (deviceConfigs d)) <= 1920
  /\ 240 <= height (d_viewport (deviceConfigs d)) <= 1080
  /\ d_userAgent (deviceConfigs d) <> "".
Proof. destruct d; simpl; repeat split; (lia || discriminate). Qed.

Lemma or_else_nonempty o d : d <> "" -> or_else o d <> "".
Proof.
  intros Hd. unfold or_else, truthy. destruct o as [s|]; [|exact Hd].
  destruct (decide (s = "")); assumption.
Qed.

Lemma prescribed_in_bounds jobId config c :
  jobConfigSchema config = true -> prescribed jobId config c -> inBounds c.
Proof.
  intros Hs Hc.
  destruct (preset_in_bounds (deviceType config)) as (Hw & Hh & Hua).
  destruct c; simpl in *; try exact I.
  - destruct Hc as [-> ->]. split; [|split]; [| |apply or_else_nonempty, Hua].
    all: destruct (options config) as [o|] eqn:Ho; simpl; [|assumption].
    all: pose proof (schema_options _ _ Hs Ho) as Hopt; unfold optionsSchema in Hopt.
    all: apply andb_true_iff in Hopt as [_ Hv].
    all: destruct (o_viewport o) as [v|]; simpl; [|assumption].
    all: repeat (apply andb_true_iff in Hv as [Hv ?]); lia.
  - subst ms. unfold or_elseZ, truthyZ.
    destruct (options config) as [o|] eqn:Ho; simpl; [|lia].
    pose proof (schema_options _ _ Hs Ho) as Hopt. unfold optionsSchema in Hopt.
    apply andb_true_iff in Hopt as [Ht _].
    destruct (o_timeout o) as [n|]; [|lia].
    apply in_range_bounds in Ht. destruct (decide (n = 0)); lia.
  - destruct timeout as [t|]; [|exact I].
    destruct Hc as (a & Ha & Hreq). pose proof (schema_action _ _ Hs Ha) as Hact.
    apply request_args in Hreq. simpl in Hreq. unfold actionSchema in Hact.
    rewrite <- Hreq in Hact. apply in_range_bounds, Hact.
  - destruct timeout as [t|]; [|exact I].
    destruct Hc as (a & Ha & Hreq). pose proof (schema_action _ _ Hs Ha) as Hact.
    apply request_args in Hreq. simpl in Hreq. unfold actionSchema in Hact.
    rewrite <- Hreq in Hact. apply in_range_bounds, Hact.
  - destruct Hc as (a & Ha & Hreq). pose proof (schema_action _ _ Hs Ha) as Hact.
    apply request_args in Hreq. simpl in Hreq. unfold actionSchema in Hact.
    subst ms. unfold or_elseZ, truthyZ. destruct (a_timeout a) as [n|]; [|lia].
    apply in_range_bounds in Hact. destruct (decide (n = 0)); lia.
Qed.

Lemma run_keeps_foreign_keys jobId config w key :
  key <> "trace:" +:+ jobId -> (forall sid, key <> screenshotKey jobId sid) ->
  artifactsKV (snd (executePlaywrightSequence jobId config w)) !! key
  = artifactsKV w !! key.
Proof.
  intros Ht Hs.
  destruct (executePlaywrightSequence_issued jobId config w) as (new & _ & F & A).
  apply A. intros data Hin. rewrite Forall_forall in F.
  destruct (F _ Hin) as [[Hk _] | [sid Hk]]; [exact (Ht Hk) | exact (Hs sid Hk)].
Qed.

(** X15.  A run makes no call that its configuration does not prescribe,
    whatever the environment answers.  Every call on the trail of a run is
    the launch with its keep-alive, the creation of the page with the
    effective viewport and user agent, the default timeout, a call that
    [request] derives from one of the configured actions, the wait for the
    load state of a [goto], a screenshot, the closing of the browser, a
    write of an artifact under one of the job's own keys, or, only when a
    trace is asked for, the start and stop of the tracing and the reading
    and writing of the bundle.  In particular the run never writes a job
    record, never navigates to a URL that no [goto] action carries, and
    never clicks, fills or scrolls a target that no action names. *)
Theorem runner_makes_prescribed_calls_only
    (jobId : string) (config : JobConfig) (w : World) :
  exists new,
    trail (snd (executePlaywrightSequence jobId config w)) = trail w ++ new
    /\ Forall (fun e => prescribed jobId config (call_of e)) new.
Proof.
  destruct (executePlaywrightSequence_issued jobId config w) as (new & T & F & _).
  exists new. auto.
Qed.

(** X16.  For a configuration the schema accepts, the arguments of every
    call of the run are within the schema's bounds: the page is created
    with a viewport of width 320..1920 and height 240..1080 and a user agent
    that is not empty, whether they come from the request or from the
    preset of the device type; the default timeout is within 1000..300000
    ms; every wait lasts more than 0 and at most 60000 ms (a timeout of 0
    or none is replaced by 1000); every timeout of a click or fill is
    within 0..60000 ms.  The lower bound of a wait is strict positivity:
    that is what the schema's range 0..60000 and the replacement of a
    falsy timeout give for a number, whole or not. *)
Theorem valid_request_keeps_calls_in_bounds
    (jobId : string) (config : JobConfig) (w : World) :
  jobConfigSchema config = true ->
  exists new,
    trail (snd (executePlaywrightSequence jobId config w)) = trail w ++ new
    /\ Forall (fun e => inBounds (call_of e)) new.
Proof.
  intros Hs.
  destruct (executePlaywrightSequence_issued jobId config w) as (new & T & F & _).
  exists new. split; [exact T|].
  eapply Forall_impl; [exact F|]. intros e. apply prescribed_in_bounds, Hs.
Qed.

Lemma valid_request_keeps_calls_in_bounds_witness :
  exists new,
    trail (snd exampleRun) = trail exampleWorld ++ new
    /\ Forall (fun e => inBounds (call_of e)) new.
Proof.
  apply (valid_request_keeps_calls_in_bounds jobA exampleJob exampleWorld).
  reflexivity.
Defined.

(** X17.  A run touches nothing of another job.  For two different job ids
    of the generated form, after a run for the one, the trace route and
    every screenshot route of the other answer as before, and every job
    record reads as before (the runner writes no job record at all). *)
Theorem run_leaves_other_jobs_alone
    (jobId other : string) (config : JobConfig) (w : World) :
  is_uuid jobId = true -> is_uuid other = true -> other <> jobId ->
  let w' := snd (executePlaywrightSequence jobId config w) in
  getTraceRoute other w' = getTraceRoute other w
  /\ (forall screenshotId,
        getScreenshotRoute other screenshotId w' = getScreenshotRoute other screenshotId w)
  /\ (forall any, getJob any w' = getJob any w).
Proof.
  intros Hj Ho Hne w'. subst w'. split; [|split].
  - unfold getTraceRoute.
    destruct (own_key_not_other jobId other ("trace:" +:+ other) Hj Ho Hne) as [Ht Hs];
      [left; reflexivity|].
    rewrite run_keeps_foreign_keys by assumption. reflexivity.
  - intros s. unfold getScreenshotRoute.
    destruct (own_key_not_other jobId other ("screenshot:" +:+ other +:+ ":" +:+ s)
                Hj Ho Hne) as [Ht Hs]; [right; eauto|].
    rewrite run_keeps_foreign_keys by assumption. reflexivity.
  - intros any. unfold getJob.
    destruct (executePlaywrightSequence_spec jobId config w) as (res & w' & -> & Hpost).
    cbn [snd]. rewrite (ext_jobs _ _ (post_ext _ _ _ _ _ Hpost)). reflexivity.
Qed.

Lemma run_leaves_other_jobs_alone_witness :
  let w' := snd exampleRun in
  getTraceRoute shotB w' = getTraceRoute shotB exampleWorld
  /\ (forall screenshotId,
        getScreenshotRoute shotB screenshotId w'
        = getScreenshotRoute shotB screenshotId exampleWorld)
  /\ (forall any, getJob any w' = getJob any exampleWorld).
Proof.
  apply (run_leaves_other_jobs_alone jobA shotB exampleJob exampleWorld).
  - reflexivity.
  - reflexivity.
  - discriminate.
Defined.

(** X18.  A run without [generateTrace] records no trace: it never starts
    or stops the tracing, never reads the bundle, never writes under the
    job's trace key, and the trace route of the job answers as before. *)
Theorem untraced_run_records_no_trace
    (jobId : string) (config : JobConfig) (w : World) :
  generateTrace config = false ->
  let w' := snd (executePlaywrightSequence jobId config w) in
  (exists new,
      trail w' = trail w ++ new
      /\ Forall (fun e => tracingCall jobId (call_of e) = false) new)
  /\ getTraceRoute jobId w' = getTraceRoute jobId w.
Proof.
  intros Hg w'. subst w'.
  destruct (executePlaywrightSequence_issued jobId config w) as (new & T & F & A).
  assert (Hno : Forall (fun e => tracingCall jobId (call_of e) = false) new).
  { eapply Forall_impl; [exact F|]. intros e He. cbv beta in *.
    destruct (call_of e); simpl in *; try reflexivity; try (destruct He; congruence);
      try congruence.
    destruct He as [[_ He] | [sid ->]]; [congruence|].
    apply bool_decide_eq_false_2. discriminate. }
  split; [exists new; auto|].
  unfold getTraceRoute. rewrite A; [reflexivity|].
  intros data Hin. rewrite Forall_forall in Hno. specialize (Hno _ Hin).
  simpl in Hno. apply bool_decide_eq_false_1 in Hno. apply Hno. reflexivity.
Qed.

Lemma untraced_run_records_no_trace_witness :
  let w' := snd exampleRun in
  (exists new,
      trail w' = trail exampleWorld ++ new
      /\ Forall (fun e => tracingCall jobA (call_of e) = false) new)
  /\ getTraceRoute jobA w' = getTraceRoute jobA exampleWorld.
Proof.
  apply (untraced_run_records_no_trace jobA exampleJob exampleWorld).
  reflexivity.
Defined.

Lemma closes_positive t :
  (0 < closes t)%nat -> exists e, e ∈ t /\ call_of e = BrowserClose.
Proof.
  induction t as [|e t IH]; simpl; [unfold closes; simpl; lia|].
  unfold closes. simpl. destruct (is_close e) eqn:He.
  - intros _. exists e. split; [apply list_elem_of_here|].
    destruct e as [[] | []]; simpl in *; congruence.
  - intros Hpos. destruct (IH Hpos) as (e' & Hin & Hc).
    exists e'. split; [apply list_elem_of_further, Hin | exact Hc].
Qed.

(** X19.  A launched browser is asked to close on every path.  The calls of
    a run are either the failed launch and nothing else, or they include a
    call to [browser.close()]: after the loop when all went well, and from
    the outer [catch] when anything threw once the browser was there. *)
Theorem launched_browser_is_closed (jobId : string) (config : JobConfig) (w : World) :
  exists new,
    trail (snd (executePlaywrightSequence jobId config w)) = trail w ++ new
    /\ ((exists e, new = [Failed (Launch 600000) e])
        \/ exists close, close ∈ new /\ call_of close = BrowserClose).
Proof.
  destruct (executePlaywrightSequence_issued jobId config w) as (new & T & _).
  exists new. split; [exact T|].
  destruct (executePlaywrightSequence_closes jobId config w) as [[e He] | Hc].
  - left. exists e. rewrite T in He. apply app_inv_head in He. exact He.
  - right. rewrite T, closes_app in Hc. apply closes_positive. lia.
Qed.

(** ** Failures before the first action, and actions that ask for nothing *)

Lemma await_raises c r rest e w :
  script w = r :: rest -> outcome r = inl e ->
  await c w = (Threw e, tell (Failed c e) (deliver r (set_script rest w))).
Proof. intros Hs Ho. unfold await. rewrite Hs, Ho. reflexivity. Qed.

Lemma await_gives c r rest payload w :
  script w = r :: rest -> outcome r = inr payload ->
  await c w = (Returned payload, tell (Did c) (deliver r (set_script rest w))).
Proof. intros Hs Ho. unfold await. rewrite Hs, Ho. reflexivity. Qed.

Lemma wp_now_script (Q : Z -> World -> Prop) E w :
  (forall t w', script w' = script w -> trail w' = trail w -> Q t w') ->
  wp now Q E w.
Proof. intros HQ. unfold wp, now. destruct (clock w); apply HQ; reflexivity. Qed.

(** The outer [catch] when neither [browser] nor [page] is assigned. *)
Lemma runRescue_bare jobId startTime error f w :
  browser f = false -> page f = false ->
  wp (runRescue jobId startTime error)
     (fun res s' => trail (snd s') = trail w /\ bareFailure error (trace f) res)
     (fun _ _ => False) (f, w).
Proof.
  intros Hb Hp. unfold runRescue, when.
  apply wp_bind, wp_world, wp_now_trail. intros t w1 T1.
  apply wp_bind, wp_frame. cbn [fst snd]. rewrite Hp.
  apply wp_bind, wp_try_catch, wp_ret, wp_bind, wp_frame. cbn [fst snd].
  rewrite Hb. apply wp_bind, wp_ret, wp_bind, wp_world, wp_now_trail.
  intros ts w2 T2. apply wp_bind, wp_frame, wp_ret. simpl in *.
  split; [congruence | repeat split].
Qed.

(** The outer [catch] when the browser is there and the page is not: no
    screenshot, one call to close, whose failure is swallowed. *)
Lemma runRescue_pageless jobId startTime error f w :
  browser f = true -> page f = false ->
  wp (runRescue jobId startTime error)
     (fun res s' =>
        (exists c, trail (snd s') = trail w ++ [c] /\ call_of c = BrowserClose)
        /\ bareFailure error (trace f) res)
     (fun _ _ => False) (f, w).
Proof.
  intros Hb Hp. unfold runRescue, when.
  apply wp_bind, wp_world, wp_now_trail. intros t w1 T1.
  apply wp_bind, wp_frame. cbn [fst snd]. rewrite Hp.
  apply wp_bind, wp_try_catch, wp_ret, wp_bind, wp_frame. cbn [fst snd].
  rewrite Hb. apply wp_bind, wp_try_catch, wp_bind, wp_world, wp_await; cbn [fst snd].
  - intros p w2 (T2 & _). apply wp_ret, wp_bind, wp_world, wp_now_trail.
    intros ts w3 T3. apply wp_bind, wp_frame, wp_ret. simpl in *.
    split; [|repeat split]. eexists. rewrite T3, T2, T1. split; reflexivity.
  - intros e w2 (T2 & _). apply wp_ret, wp_bind, wp_world, wp_now_trail.
    intros ts w3 T3. apply wp_bind, wp_frame, wp_ret. simpl in *.
    split; [|repeat split]. eexists. rewrite T3, T2, T1. split; reflexivity.
Qed.

(** X20.  When the launch of the browser throws, the run ends there: the
    failed launch is its only call (no page, no screenshot, no close), and
    the result is a failure that carries the message and stack of the
    launch error, no screenshot, and a trace without steps. *)
Theorem failed_launch_ends_the_run
    (jobId : string) (config : JobConfig) (w : World) (r : Reply) (rest : list Reply)
    (e : Thrown) :
  script w = r :: rest -> outcome r = inl e ->
  exists res,
    fst (executePlaywrightSequence jobId config w) = Returned res
    /\ bareFailure e {| steps := []; traceFile := None; traceViewerUrl := None |} res
    /\ trail (snd (executePlaywrightSequence jobId config w))
       = trail w ++ [Failed (Launch 600000) e].
Proof.
  intros Hs Ho. unfold executePlaywrightSequence.
  match goal with
  | |- context [let (r, s) := ?run (frame0, w) in _] =>
      assert (Hwp : wp run
                      (fun res s' =>
                         bareFailure e (trace frame0) res
                         /\ trail (snd s') = trail w ++ [Failed (Launch 600000) e])
                      (fun _ _ => False) (frame0, w))
  end.
  { apply wp_bind, wp_world, wp_now_script. cbn [fst snd]. intros t w1 S1 T1.
    apply wp_try_catch. unfold runBody. apply wp_bind, wp_world. cbn [fst snd].
    unfold wp at 1. rewrite <- S1 in Hs. rewrite (await_raises _ _ _ _ _ Hs Ho).
    eapply wp_mono; [apply runRescue_bare; reflexivity | | auto]; cbn beta.
    intros res s' [T Hres]. split; [exact Hres|]. rewrite T. simpl. rewrite T1.
    reflexivity. }
  unfold wp in Hwp.
  match type of Hwp with
  | match ?x with _ => _ end => destruct x as [[res|e'] [f' w']]
  end; [|contradiction].
  exists res. destruct Hwp. auto.
Qed.

Lemma failed_launch_ends_the_run_witness :
  exists res,
    fst (executePlaywrightSequence jobA exampleJob noBrowserWorld) = Returned res
    /\ bareFailure launchError
         {| steps := []; traceFile := None; traceViewerUrl := None |} res
    /\ trail (snd (executePlaywrightSequence jobA exampleJob noBrowserWorld))
       = trail noBrowserWorld ++ [Failed (Launch 600000) launchError].
Proof.
  apply (failed_launch_ends_the_run jobA exampleJob noBrowserWorld
           (raises launchError) []); reflexivity.
Defined.

(** X21.  When the browser is launched and the creation of the page
    throws, the run takes no screenshot (there is no page to take it of)
    and still closes the browser: its calls are the launch, the failed
    page creation and one call to close.  The result is a failure with the
    message and stack of the page error, also when that close throws. *)
Theorem failed_page_still_closes_the_browser
    (jobId : string) (config : JobConfig) (w : World) (r1 r2 : Reply)
    (rest : list Reply) (payload : string) (e : Thrown) :
  script w = r1 :: r2 :: rest -> outcome r1 = inr payload -> outcome r2 = inl e ->
  exists res viewport userAgent close,
    fst (executePlaywrightSequence jobId config w) = Returned res
    /\ bareFailure e {| steps := []; traceFile := None; traceViewerUrl := None |} res
    /\ trail (snd (executePlaywrightSequence jobId config w))
       = trail w ++ [Did (Launch 600000); Failed (NewPage viewport userAgent) e; close]
    /\ call_of close = BrowserClose.
Proof.
  intros Hs Ho1 Ho2. unfold executePlaywrightSequence.
  match goal with
  | |- context [let (r, s) := ?run (frame0, w) in _] =>
      assert (Hwp : wp run
                      (fun res s' =>
                         bareFailure e (trace frame0) res
                         /\ exists viewport userAgent close,
                              trail (snd s')
                              = trail w ++ [Did (Launch 600000);
                                            Failed (NewPage viewport userAgent) e; close]
                              /\ call_of close = BrowserClose)
                      (fun _ _ => False) (frame0, w))
  end.
  { apply wp_bind, wp_world, wp_now_script. cbn [fst snd]. intros t w1 S1 T1.
    apply wp_try_catch. unfold runBody. apply wp_bind, wp_world. cbn [fst snd].
    unfold wp at 1. rewrite <- S1 in Hs. rewrite (await_gives _ _ _ _ _ Hs Ho1).
    apply wp_bind, wp_local, wp_bind, wp_world. cbn [fst snd].
    unfold wp at 1. erewrite await_raises; [|reflexivity | exact Ho2].
    eapply wp_mono; [apply runRescue_pageless; reflexivity | | auto]; cbn beta.
    intros res s' [(c & T & Hc) Hres]. split; [exact Hres|].
    eexists _, _, c. split; [|exact Hc]. rewrite T. simpl. rewrite T1, <- !app_assoc.
    reflexivity. }
  unfold wp in Hwp.
  match type of Hwp with
  | match ?x with _ => _ end => destruct x as [[res|e'] [f' w']]
  end; [|contradiction].
  destruct Hwp as (Hres & vp & ua & c & T & Hc). exists res, vp, ua, c. auto.
Qed.

Lemma failed_page_still_closes_the_browser_witness :
  exists res viewport userAgent close,
    fst (executePlaywrightSequence jobA exampleJob noPageWorld) = Returned res
    /\ bareFailure pageError
         {| steps := []; traceFile := None; traceViewerUrl := None |} res
    /\ trail (snd (executePlaywrightSequence jobA exampleJob noPageWorld))
       = trail noPageWorld
         ++ [Did (Launch 600000); Failed (NewPage viewport userAgent) pageError; close]
    /\ call_of close = BrowserClose.
Proof.
  apply (failed_page_still_closes_the_browser jobA exampleJob noPageWorld
           ok (raises pageError) [raises closeError] ""); reflexivity.
Defined.

Lemma performAction_idle jobId action ns s :
  request action = None -> blindExpect action = false ->
  performAction jobId action ns s = (Returned tt, s).
Proof.
  unfold request, blindExpect, performAction.
  destruct (a_type action), (getLocator action), (a_x action), (a_y action),
    (truthy (a_text action)), (truthy (a_url action)), (truthy (a_toContainText action));
    simpl; intros Hreq Hb; try discriminate; reflexivity.
Qed.

(** X22.  An action that lacks what its type needs (a [goto] without a URL,
    a [fill] without a text or a locator, a [click] or [scroll] with neither
    a locator nor both coordinates, an [expect] without a text) makes no
    call at all, and its iteration of the loop still records it as a
    successful step: the trail, the artifact store and the screenshot list
    stay as they are, and the trace gains one step with [success] true. *)
Theorem action_without_operands_is_recorded_as_done
    (jobId : string) (action : Action) (f : Frame) (w : World) :
  request action = None -> blindExpect action = false ->
  wp (runStep jobId action)
     (fun _ s' =>
        trail (snd s') = trail w
        /\ artifactsKV (snd s') = artifactsKV w
        /\ screenshots (fst s') = screenshots f
        /\ exists st, steps (trace (fst s')) = steps (trace f) ++ [st]
                      /\ StepOk action st)
     (fun _ _ => False) (f, w).
Proof.
  intros Hreq Hb. unfold runStep.
  apply wp_bind, wp_world, wp_now. cbn [fst snd]. intros t0 w1 T1 A1 _ _.
  apply wp_bind.
  assert (Hgo : forall (Q : option Z -> Frame * World -> Prop) E,
             (forall ns w2, trail w2 = trail w1 -> artifactsKV w2 = artifactsKV w1 ->
                            Q ns (f, w2)) ->
             wp (if decide (a_type action = goto)
                 then t <- world now ;; ret (Some t) else ret None) Q E (f, w1)).
  { intros Q E HQ. destruct (decide (a_type action = goto)).
    - apply wp_bind, wp_world, wp_now. cbn [fst snd]. intros t w2 T2 A2 _ _.
      apply wp_ret, HQ; assumption.
    - apply wp_ret, HQ; reflexivity. }
  apply Hgo. intros ns w2 T2 A2.
  apply wp_try_catch, wp_bind. unfold wp at 1.
  rewrite (performAction_idle _ _ _ _ Hreq Hb).
  apply wp_bind, wp_world, wp_now. cbn [fst snd]. intros t3 w3 T3 A3 _ _.
  apply wp_bind, wp_world, wp_now. cbn [fst snd]. intros t4 w4 T4 A4 _ _.
  apply wp_local. cbn [fst snd]. simpl.
  split; [congruence|]. split; [congruence|]. split; [reflexivity|].
  eexists. split; [reflexivity|]. repeat split.
Qed.

Lemma action_without_operands_is_recorded_as_done_witness :
  wp (runStep jobA (plain goto))
     (fun _ s' =>
        trail (snd s') = trail exampleWorld
        /\ artifactsKV (snd s') = artifactsKV exampleWorld
        /\ screenshots (fst s') = screenshots frame0
        /\ exists st, steps (trace (fst s')) = steps (trace frame0) ++ [st]
                      /\ StepOk (plain goto) st)
     (fun _ _ => False) (frame0, exampleWorld).
Proof.
  apply (action_without_operands_is_recorded_as_done jobA (plain goto) frame0 exampleWorld);
    reflexivity.
Defined.

(** ** The run in which nothing fails *)

Lemma performed_app t1 t2 : performed (t1 ++ t2) = performed t1 ++ performed t2.
Proof. apply omap_app. Qed.

Lemma omap_cons_list {A B} (g : A -> option B) a l :
  omap g (a :: l) = option_list (g a) ++ omap g l.
Proof. simpl. destruct (g a); reflexivity. Qed.

(** A [try] whose body cannot throw. *)
Lemma wp_try_calm {S A} (m : M S A) h (Q : A -> S -> Prop) E (s : S) :
  wp m Q (fun _ _ => False) s -> wp (try_catch m h) Q E s.
Proof. unfold wp, try_catch. destruct (m s) as [[a|e] s']; [exact id | contradiction]. Qed.

(** In a calm world an awaited call returns. *)
Lemma wp_await_calm c (Q : string -> World -> Prop) E w :
  calm w -> (forall payload w', calm w' -> after w (Did c) w' -> Q payload w') ->
  wp (await c) Q E w.
Proof.
  intros Hc HQ. unfold wp, await, calm in *.
  destruct (script w) as [|r rest] eqn:Hs.
  - apply HQ; [simpl; rewrite Hs; constructor | repeat split].
  - inversion Hc as [|? ? Hr Hrest]; subst. unfold quiet in Hr.
    destruct (outcome r) as [e|payload]; [discriminate|].
    apply HQ; [exact Hrest | repeat split].
Qed.

Lemma wp_await_ct c (Q : string -> World -> Prop) E w :
  calm w ->
  (forall payload w', calm w' -> trail w' = trail w ++ [Did c] -> Q payload w') ->
  wp (await c) Q E w.
Proof.
  intros H HQ. apply (wp_await_calm _ _ _ _ H). intros p w' H' (T & _). auto.
Qed.

Lemma wp_now_ct (Q : Z -> World -> Prop) E w :
  calm w -> (forall t w', calm w' -> trail w' = trail w -> Q t w') -> wp now Q E w.
Proof. intros H HQ. unfold wp, now. destruct (clock w); apply HQ; auto. Qed.

Lemma wp_randomUUID_ct (Q : string -> World -> Prop) E w :
  calm w -> (forall u w', calm w' -> trail w' = trail w -> Q u w') ->
  wp randomUUID Q E w.
Proof. intros H HQ. unfold wp, randomUUID. destruct (uuids w); apply HQ; auto. Qed.

Lemma wp_sync_ct c (Q : unit -> World -> Prop) E w :
  calm w -> (forall w', calm w' -> trail w' = trail w ++ [Did c] -> Q tt w') ->
  wp (sync c) Q E w.
Proof. intros H HQ. apply wp_modify, HQ; [exact H | reflexivity]. Qed.

Lemma wp_listen_ct b (Q : unit -> World -> Prop) E w :
  calm w -> (forall w', calm w' -> trail w' = trail w -> Q tt w') ->
  wp (modify (set_listening b)) Q E w.
Proof. intros H HQ. apply wp_modify, HQ; [exact H | reflexivity]. Qed.

Lemma wp_storeScreenshot_ct jobId sid data (Q : string -> World -> Prop) E w :
  calm w ->
  (forall key w', calm w' ->
                  trail w' = trail w ++ [Did (PutArtifact (screenshotKey jobId sid) data)] ->
                  Q key w') ->
  wp (storeScreenshot jobId sid data) Q E w.
Proof.
  intros H HQ. unfold storeScreenshot. apply wp_bind, (wp_await_ct _ _ _ _ H).
  intros _ w1 H1 T. apply wp_bind, wp_modify, wp_ret, HQ; [exact H1 | exact T].
Qed.

Lemma wp_storeTrace_ct jobId data (Q : string -> World -> Prop) E w :
  calm w ->
  (forall key w', calm w' ->
                  trail w' = trail w ++ [Did (PutArtifact ("trace:" +:+ jobId) data)] ->
                  Q key w') ->
  wp (storeTrace jobId data) Q E w.
Proof.
  intros H HQ. unfold storeTrace. apply wp_bind, (wp_await_ct _ _ _ _ H).
  intros _ w1 H1 T. apply wp_bind, wp_modify, wp_ret, HQ; [exact H1 | exact T].
Qed.

Ltac ct_next H :=
  let H' := fresh "H" in
  let T := fresh "T" in
  intros ? ? H' T; clear H; rename H' into H.

Ltac ct_next1 H :=
  let H' := fresh "H" in
  let T := fresh "T" in
  intros ? H' T; clear H; rename H' into H.

(** One step of a calm world under [H : calm w]; the equation on the trail
    stays among the hypotheses. *)
Ltac ct_world H :=
  cbn [fst snd];
  lazymatch goal with
  | |- wp now _ _ _ => apply (wp_now_ct _ _ _ H); ct_next H
  | |- wp randomUUID _ _ _ => apply (wp_randomUUID_ct _ _ _ H); ct_next H
  | |- wp (await _) _ _ _ => apply (wp_await_ct _ _ _ _ H); ct_next H
  | |- wp (sync _) _ _ _ => apply (wp_sync_ct _ _ _ _ H); ct_next1 H
  | |- wp (modify (set_listening _)) _ _ _ => apply (wp_listen_ct _ _ _ _ H); ct_next1 H
  | |- wp (storeScreenshot _ _ _) _ _ _ =>
      apply (wp_storeScreenshot_ct _ _ _ _ _ _ H); ct_next H
  | |- wp (storeTrace _ _) _ _ _ => apply (wp_storeTrace_ct _ _ _ _ _ H); ct_next H
  end.

Ltac ct_all H := repeat first [ct_world H | wp_step].

(** A leaf: the world is calm, and the events since the start are those
    the equations on trails list. *)
Ltac ct_done H :=
  cbn [fst snd]; split; [exact H|];
  first [ exists []; rewrite app_nil_r; split; [chain_trails; reflexivity | reflexivity]
        | eexists; split; [chain_trails; reflexivity|];
          rewrite ?performed_app; reflexivity ].

Lemma performAction_plan jobId action ns f w :
  blindExpect action = false -> calm w ->
  wp (performAction jobId action ns)
     (fun _ s' =>
        calm (snd s')
        /\ exists ev, trail (snd s') = trail w ++ ev
                      /\ performed ev = option_list (request action))
     (fun _ _ => False) (f, w).
Proof.
  intros Hb H. unfold performAction, request. unfold blindExpect in Hb.
  destruct (a_type action).
  - destruct (getLocator action); [|destruct (a_x action), (a_y action)];
      ct_all H; ct_done H.
  - destruct (getLocator action), (truthy (a_text action)); ct_all H; ct_done H.
  - ct_all H; ct_done H.
  - ct_all H; ct_done H.
  - destruct (truthy (a_url action)); [|ct_all H; ct_done H].
    ct_all H. destruct (truthyZ ns); ct_all H; ct_done H.
  - destruct (getLocator action); [|destruct (a_x action), (a_y action)];
      ct_all H; ct_done H.
  - destruct (truthy (a_toContainText action)); [destruct (getLocator action)|];
      try discriminate Hb; ct_all H; ct_done H.
Qed.

Lemma runStep_plan jobId action f w :
  blindExpect action = false -> calm w ->
  wp (runStep jobId action)
     (fun _ s' =>
        calm (snd s')
        /\ exists ev, trail (snd s') = trail w ++ ev
                      /\ performed ev = option_list (request action))
     (fun _ _ => False) (f, w).
Proof.
  intros Hb H. unfold runStep. ct_all H.
  destruct (decide (a_type action = goto)); ct_all H.
  all: (eapply wp_mono; [apply (performAction_plan _ _ _ _ _ Hb H) | | intros ? ? []]);
    cbn beta; intros ? [f1 w1] (H' & ev & Tev & Hev); simpl in H', Tev;
    clear H; rename H' into H; ct_all H; cbn [fst snd];
    (split; [exact H|]); exists ev; (split; [chain_trails; reflexivity | exact Hev]).
Qed.

Lemma runActions_plan jobId todo : forall f w,
  Forall (fun action => blindExpect action = false) todo -> calm w ->
  wp (runActions jobId todo)
     (fun _ s' =>
        calm (snd s')
        /\ exists ev, trail (snd s') = trail w ++ ev
                      /\ performed ev = omap request todo)
     (fun _ _ => False) (f, w).
Proof.
  induction todo as [|action rest IH]; intros f w Hall H; simpl runActions.
  - split; [exact H|]. exists []. rewrite app_nil_r. split; reflexivity.
  - inversion Hall as [|? ? Hb Hrest]; subst.
    apply wp_bind. eapply wp_mono; [apply (runStep_plan _ _ _ _ Hb H) | | auto]; cbn beta.
    intros _ [f1 w1] (H1 & ev1 & T1 & P1). simpl in H1, T1.
    eapply wp_mono; [apply (IH _ _ Hrest H1) | | auto]; cbn beta.
    intros _ s' (H2 & ev2 & T2 & P2). split; [exact H2|].
    exists (ev1 ++ ev2). rewrite T2, T1, app_assoc. split; [reflexivity|].
    rewrite performed_app, P1, P2, omap_cons_list. reflexivity.
Qed.

Lemma runBody_plan jobId config startTime f w :
  Forall (fun action => blindExpect action = false) (actions config) -> calm w ->
  wp (runBody jobId config startTime)
     (fun res s' =>
        calm (snd s') /\ r_status res = success
        /\ exists ev, trail (snd s') = trail w ++ ev
                      /\ performed ev = omap request (actions config))
     (fun _ _ => False) (f, w).
Proof.
  intros Hall H. unfold runBody, when.
  destruct (generateTrace config); ct_all H.
  all: (eapply wp_mono; [apply (runActions_plan _ _ _ _ Hall H) | | auto]); cbn beta;
    intros ? [f1 w1] (H' & ev & Tev & Hev); simpl in H', Tev;
    clear H; rename H' into H; ct_all H; cbn [fst snd];
    (split; [exact H|]); (split; [reflexivity|]);
    eexists; (split; [chain_trails; reflexivity|]);
    rewrite !performed_app, Hev; simpl; rewrite ?app_nil_r; reflexivity.
Qed.

(** When no awaited call throws and no action is an [expect] without a
    locator, the run is a success that has made the calls of the plan. *)
Lemma executePlaywrightSequence_plan jobId config w :
  Forall (fun action => blindExpect action = false) (actions config) -> calm w ->
  exists res w' new,
    executePlaywrightSequence jobId config w = (Returned res, w')
    /\ r_status res = success /\ calm w'
    /\ trail w' = trail w ++ new
    /\ performed new = omap request (actions config).
Proof.
  intros Hall H. unfold executePlaywrightSequence.
  match goal with
  | |- context [let (r, s) := ?run (frame0, w) in _] =>
      assert (Hwp : wp run
                      (fun res s' =>
                         calm (snd s') /\ r_status res = success
                         /\ exists ev, trail (snd s') = trail w ++ ev
                                       /\ performed ev = omap request (actions config))
                      (fun _ _ => False) (frame0, w))
  end.
  { ct_all H.
    eapply wp_mono; [apply (runBody_plan _ _ _ _ _ Hall H) | | intros ? ? []]; cbn beta.
    intros res s' (Hc & Hok & ev & Tev & Hev). split; [exact Hc|]. split; [exact Hok|].
    exists ev. split; [rewrite Tev; chain_trails; reflexivity | exact Hev]. }
  unfold wp in Hwp.
  match type of Hwp with
  | match ?x with _ => _ end => destruct x as [[res|e] [f' w']]
  end; [|contradiction].
  destruct Hwp as (Hc & Hok & ev & Tev & Hev). exists res, w', ev. auto.
Qed.

(** X23.  In a world in which no awaited call throws, a run whose actions
    are not [expect]s without a locator is a success, and the calls by
    which it has carried out actions are exactly the calls [request]
    derives from the configured actions, in the configured order: nothing
    is skipped, repeated or reordered, and an action that asks for nothing
    contributes nothing. *)
Theorem calm_run_performs_the_plan (jobId : string) (config : JobConfig) (w : World) :
  Forall (fun action => blindExpect action = false) (actions config) ->
  calm w ->
  exists res new,
    fst (executePlaywrightSequence jobId config w) = Returned res
    /\ r_status res = success
    /\ trail (snd (executePlaywrightSequence jobId config w)) = trail w ++ new
    /\ performed new = omap request (actions config).
Proof.
  intros Hall H.
  destruct (executePlaywrightSequence_plan jobId config w Hall H)
    as (res & w' & new & -> & Hok & _ & T & Hp).
  exists res, new. auto.
Qed.

Lemma calm_run_performs_the_plan_witness :
  exists res new,
    fst exampleRun = Returned res
    /\ r_status res = success
    /\ trail (snd exampleRun) = trail exampleWorld ++ new
    /\ performed new = omap request (actions exampleJob).
Proof.
  apply (calm_run_performs_the_plan jobA exampleJob exampleWorld);
    repeat constructor.
Defined.

(** ** The controller and the job store *)

Lemma Kept_refl jobId R w : Kept jobId R w w.
Proof.
  exists []. rewrite app_nil_r. split; [reflexivity|]. split; [constructor|]. auto.
Qed.

Lemma Kept_quiet jobId R w0 w w' ev :
  Kept jobId R w0 w -> trail w' = trail w ++ ev -> written ev = [] ->
  jobsKV w' = jobsKV w -> Kept jobId R w0 w'.
Proof.
  intros (new & T & F & Ho & Hj) T' W J. exists (new ++ ev).
  rewrite T', T, app_assoc, written_app, W, app_nil_r.
  unfold getJob in *. rewrite J. auto.
Qed.

Lemma Kept_extends jobId R w0 w w' :
  Kept jobId R w0 w -> extends w w' -> Kept jobId R w0 w'.
Proof.
  intros H He. destruct (ext_trail _ _ He) as (ev & T & W).
  exact (Kept_quiet _ _ _ _ _ _ H T W (ext_jobs _ _ He)).
Qed.

Lemma Kept_put jobId R w0 w w1 job :
  Kept jobId R w0 w ->
  after w (Did (PutJob ("job:" +:+ jobId) job)) w1 -> R job ->
  Kept jobId R w0 (set_jobsKV (<["job:" +:+ jobId := job]> (jobsKV w1)) w1).
Proof.
  intros (new & T & F & Ho & Hj) (T1 & _ & J & _) HR.
  exists (new ++ [Did (PutJob ("job:" +:+ jobId) job)]).
  rewrite written_app. cbn [written omap].
  split; [simpl; rewrite T1, T, app_assoc; reflexivity|].
  split; [apply Forall_app; split; [exact F | repeat constructor; exact HR]|].
  unfold getJob in *. simpl. split.
  - intros other Hne. rewrite lookup_insert_ne, J; [apply Ho, Hne|].
    intros Heq. apply (String.app_inj "job:") in Heq. congruence.
  - rewrite lookup_insert_eq, last_snoc. reflexivity.
Qed.

Section KeptRules.

Context (jobId : string) (R : Job -> Prop) (w0 : World).

Lemma wp_storeJob_kept job (Q : unit -> World -> Prop) E w :
  Kept jobId R w0 w -> j_id job = jobId -> R job ->
  (forall w', Kept jobId R w0 w' -> Q tt w') ->
  (forall e w', Kept jobId R w0 w' -> E e w') ->
  wp (storeJob job) Q E w.
Proof.
  intros H Hid HR HQ HE. unfold storeJob. rewrite Hid. apply wp_bind, wp_await.
  - intros _ w1 Ha. apply wp_modify, HQ. exact (Kept_put _ _ _ _ _ _ H Ha HR).
  - intros e w1 (T & _ & J & _). apply HE.
    exact (Kept_quiet _ _ _ _ _ _ H T eq_refl J).
Qed.

Lemma wp_now_kept (Q : Z -> World -> Prop) E w :
  Kept jobId R w0 w -> (forall t w', Kept jobId R w0 w' -> Q t w') -> wp now Q E w.
Proof.
  intros H HQ. apply wp_now_ext. intros t w' He. apply HQ, (Kept_extends _ _ _ _ _ H He).
Qed.

Lemma wp_run_kept id config (Q : JobResult -> World -> Prop) E w :
  Kept jobId R w0 w ->
  (forall res w', Kept jobId R w0 w' -> ResultFacts id config res -> Q res w') ->
  wp (executePlaywrightSequence id config) Q E w.
Proof.
  intros H HQ. unfold wp.
  destruct (executePlaywrightSequence_spec id config w) as (res & w' & Hrun & Hpost).
  rewrite Hrun. apply HQ.
  - exact (Kept_extends _ _ _ _ _ H (post_ext _ _ _ _ _ Hpost)).
  - exact (facts_of_run _ _ _ _ _ Hrun).
Qed.

End KeptRules.

Lemma sound_running job :
  j_result job = None ->
  sound (j_id job) (j_config job) (j_createdAt job) (with_status job running).
Proof. intros Hr. unfold sound, agrees. simpl. rewrite Hr. auto. Qed.

Lemma sound_finished job res completedAt id config :
  ResultFacts id config res ->
  sound (j_id job) (j_config job) (j_createdAt job)
    (finished job (if decide (r_status res = success) then completed else failed)
       completedAt res).
Proof.
  intros H. unfold sound, agrees. simpl. repeat (split; [reflexivity|]).
  destruct (rf_shape _ _ _ H) as [(Hs & Hst & He) | (Hs & Hst & He)]; rewrite Hs.
  - left. auto.
  - right. auto.
Qed.

Lemma sound_rescued job completedAt timestamp error :
  sound (j_id job) (j_config job) (j_createdAt job)
    (finished job failed completedAt
       {| r_status := fail; r_duration := 0; r_timestamp := timestamp;
          r_statistics := None;
          r_error := Some {| e_message := message_or "Test execution failed" error;
                             e_stack := stack_of error; e_screenshot := None |};
          r_trace := None |}).
Proof. unfold sound, agrees. simpl. repeat (split; [reflexivity|]). right. eauto. Qed.

(** The detached task writes sound records only, under the job's key
    only. *)
Lemma backgroundTask_kept job config w :
  j_result job = None ->
  wp (backgroundTask job config)
     (fun _ w' => Kept (j_id job) (sound (j_id job) (j_config job) (j_createdAt job)) w w')
     (fun _ w' => Kept (j_id job) (sound (j_id job) (j_config job) (j_createdAt job)) w w')
     w.
Proof.
  intros Hr.
  pose proof (Kept_refl (j_id job) (sound (j_id job) (j_config job) (j_createdAt job)) w)
    as H.
  unfold backgroundTask. apply wp_try_catch, wp_bind.
  assert (Hcatch : forall error w1,
             Kept (j_id job) (sound (j_id job) (j_config job) (j_createdAt job)) w w1 ->
             wp (completedAt <- now ;;
                 timestamp <- now ;;
                 storeJob (finished job failed completedAt
                   {| r_status := fail; r_duration := 0; r_timestamp := timestamp;
                      r_statistics := None;
                      r_error :=
                        Some {| e_message := message_or "Test execution failed" error;
                                e_stack := stack_of error; e_screenshot := None |};
                      r_trace := None |}))
                (fun _ w' =>
                   Kept (j_id job) (sound (j_id job) (j_config job) (j_createdAt job)) w w')
                (fun _ w' =>
                   Kept (j_id job) (sound (j_id job) (j_config job) (j_createdAt job)) w w')
                w1).
  { intros error w1 H1.
    apply wp_bind, (wp_now_kept _ _ _ _ _ _ H1). intros c w2 H2.
    apply wp_bind, (wp_now_kept _ _ _ _ _ _ H2). intros ts w3 H3.
    apply (wp_storeJob_kept _ _ _ _ _ _ _ H3); [reflexivity | apply sound_rescued | auto..]. }
  apply (wp_storeJob_kept _ _ _ _ _ _ _ H); [reflexivity | apply sound_running, Hr | |].
  - intros w1 H1. apply wp_bind, (wp_run_kept _ _ _ _ _ _ _ _ H1). intros res w2 H2 Hres.
    apply wp_bind, (wp_now_kept _ _ _ _ _ _ H2). intros c w3 H3.
    apply (wp_storeJob_kept _ _ _ _ _ _ _ H3);
      [reflexivity | exact (sound_finished _ _ _ _ _ Hres) | auto |].
    intros e w4 H4. apply Hcatch, H4.
  - intros e w1 H1. apply Hcatch, H1.
Qed.

Lemma wp_randomUUID_same (Q : string -> World -> Prop) E w :
  (forall w', trail w' = trail w -> artifactsKV w' = artifactsKV w ->
              jobsKV w' = jobsKV w -> script w' = script w ->
              Q (default nil_uuid (head (uuids w))) w') ->
  wp randomUUID Q E w.
Proof.
  intros HQ. unfold wp, randomUUID. destruct (uuids w); apply HQ; reflexivity.
Qed.

Lemma wp_now_same (Q : Z -> World -> Prop) E w :
  (forall t w', trail w' = trail w -> artifactsKV w' = artifactsKV w ->
                jobsKV w' = jobsKV w -> script w' = script w -> Q t w') ->
  wp now Q E w.
Proof.
  intros HQ. unfold wp, now. destruct (clock w); apply HQ; reflexivity.
Qed.

(** What a submission answers and what it leaves in the job store. *)
Lemma postJob_outcome config w :
  wp (postJob config)
     (fun r w' =>
        (jobConfigSchema config = false
         /\ r = Json 400 (ErrorBody "Invalid request body") /\ w' = w)
        \/ (jobConfigSchema config = true
            /\ exists e job,
                 r = onError e
                 /\ trail w' = trail w ++ [Failed (PutJob ("job:" +:+ j_id job) job) e]
                 /\ jobsKV w' = jobsKV w /\ artifactsKV w' = artifactsKV w)
        \/ (jobConfigSchema config = true
            /\ exists createdAt new job,
                 let jobId := default nil_uuid (head (uuids w)) in
                 r = Json 202 (AcceptedBody jobId "pending" "Test job submitted successfully")
                 /\ trail w' = trail w ++ new
                 /\ Forall (sound jobId config createdAt) (written new)
                 /\ last (written new) = Some job
                 /\ getJob jobId w' = Some job
                 /\ forall other, other <> jobId -> getJob other w' = getJob other w))
     (fun _ _ => False) w.
Proof.
  unfold postJob. destruct (jobConfigSchema config) eqn:Hs; cbn [negb];
    [|apply wp_ret; left; auto].
  apply wp_try_catch, wp_bind, wp_randomUUID_same. intros w1 T1 A1 J1 _.
  set (jobId := default nil_uuid (head (uuids w))).
  apply wp_bind, wp_now_same. intros createdAt w2 T2 A2 J2 _.
  set (job := {| j_id := jobId; j_status := pending; j_createdAt := createdAt;
                 j_completedAt := None; j_config := config; j_result := None |}).
  unfold storeJob at 1. apply wp_bind, wp_bind, wp_await.
  - intros _ w3 (T3 & A3 & J3 & _). apply wp_modify.
    set (w4 := set_jobsKV _ w3).
    assert (Hdone : forall w',
               Kept jobId (sound jobId config createdAt) w4 w' ->
               exists createdAt new job,
                 Json 202 (AcceptedBody jobId "pending" "Test job submitted successfully")
                 = Json 202 (AcceptedBody jobId "pending" "Test job submitted successfully")
                 /\ trail w' = trail w ++ new
                 /\ Forall (sound jobId config createdAt) (written new)
                 /\ last (written new) = Some job
                 /\ getJob jobId w' = Some job
                 /\ forall other, other <> jobId -> getJob other w' = getJob other w).
    { intros w' (new & T & F & Ho & Hj).
      assert (Hpend : sound jobId config createdAt job) by (repeat split).
      assert (Hw4 : getJob jobId w4 = Some job)
        by (unfold getJob; simpl; apply lookup_insert_eq).
      exists createdAt, (Did (PutJob ("job:" +:+ jobId) job) :: new).
      exists (match last (written new) with Some j => j | None => job end).
      split; [reflexivity|].
      split; [rewrite T; simpl; rewrite T3, T2, T1, <- app_assoc; reflexivity|].
      change (written (Did (PutJob ("job:" +:+ jobId) job) :: new))
        with (job :: written new).
      split; [constructor; assumption|].
      split; [|split].
      - rewrite last_cons. destruct (last (written new)); reflexivity.
      - rewrite Hj, Hw4. destruct (last (written new)); reflexivity.
      - intros other Hne. rewrite (Ho other Hne). unfold getJob. simpl.
        rewrite lookup_insert_ne, J3, J2, J1; [reflexivity|].
        intros Heq. apply (String.app_inj "job:") in Heq. congruence. }
    apply wp_bind, wp_try_catch.
    eapply wp_mono; [apply (backgroundTask_kept job config w4); reflexivity | |];
      cbn beta.
    + intros _ w5 H5. apply wp_ret. right. right. split; [reflexivity|].
      apply Hdone, H5.
    + intros e w5 H5. apply wp_ret, wp_ret. right. right. split; [reflexivity|].
      apply Hdone, H5.
  - intros e w3 (T3 & A3 & J3 & _). apply wp_ret. right. left. split; [reflexivity|].
    exists e, job. split; [reflexivity|].
    split; [rewrite T3, T2, T1; reflexivity|].
    split; congruence.
Qed.

Lemma postJob_sound_writes config w new :
  trail (snd (postJob config w)) = trail w ++ new ->
  exists jobId createdAt, Forall (sound jobId config createdAt) (written new).
Proof.
  intros Hnew. pose proof (postJob_outcome config w) as H. unfold wp in H.
  destruct (postJob config w) as [[r|e] w']; [|contradiction]. cbn [snd] in Hnew.
  destruct H as [(_ & _ & ->) | [(_ & e & job & _ & T & _) | (_ & c & new' & job & H)]].
  - rewrite <- (app_nil_r (trail w)) in Hnew at 1. apply app_inv_head in Hnew.
    subst new. exists "", 0. constructor.
  - rewrite T in Hnew. apply app_inv_head in Hnew. subst new. exists "", 0. constructor.
  - cbv zeta in H. destruct H as (_ & T & F & _).
    rewrite T in Hnew. apply app_inv_head in Hnew. subst new'. eauto.
Qed.






(** X25.  A job that was accepted can be fetched.  When a submission is
    answered 202 with an id, [GET] of that id answers 200 with a record
    that carries that id and the submitted configuration; the record is the
    last one the submission wrote to the job store; and [GET] of every
    other id answers as before the submission. *)
Theorem accepted_job_can_be_fetched
    (config : JobConfig) (w w' : World) (jobId status message : string) :
  postJob config w = (Returned (Json 202 (AcceptedBody jobId status message)), w') ->
  exists job,
    getJobRoute jobId w' = Json 200 (JobBody job)
    /\ j_id job = jobId /\ j_config job = config
    /\ (exists new, trail w' = trail w ++ new /\ last (written new) = Some job)
    /\ forall other, other <> jobId -> getJobRoute other w' = getJobRoute other w.
Proof.
  intros Hrun. pose proof (postJob_outcome config w) as H. unfold wp in H.
  rewrite Hrun in H.
  destruct H as [(_ & [=] & _) | [(_ & e & job & [=] & _) | (_ & c & new & job & H)]].
  cbv zeta in H. destruct H as ([= -> _ _] & T & F & Hlast & Hget & Hother).
  exists job. unfold getJobRoute. rewrite Hget. split; [reflexivity|].
  assert (Hin : job ∈ written new).
  { apply last_Some in Hlast as [l' ->]. apply elem_of_app. right.
    apply list_elem_of_here. }
  rewrite Forall_forall in F. destruct (F job Hin) as (Hid & Hcfg & _).
  split; [exact Hid|]. split; [exact Hcfg|]. split; [eauto|].
  intros other Hne. rewrite (Hother other Hne). reflexivity.
Qed.

Lemma accepted_job_can_be_fetched_witness :
  exists job,
    getJobRoute jobA (snd (postJob exampleJob submissionWorld)) = Json 200 (JobBody job)
    /\ j_id job = jobA /\ j_config job = exampleJob
    /\ (exists new, trail (snd (postJob exampleJob submissionWorld))
                    = trail submissionWorld ++ new
                    /\ last (written new) = Some job)
    /\ forall other, other <> jobA ->
                     getJobRoute other (snd (postJob exampleJob submissionWorld))
                     = getJobRoute other submissionWorld.
Proof.
  apply (accepted_job_can_be_fetched exampleJob submissionWorld
           (snd (postJob exampleJob submissionWorld)) jobA "pending"
           "Test job submitted successfully").
  apply (run_pair (postJob exampleJob submissionWorld)). vm_compute. reflexivity.
Defined.

(** X26.  The records of one job differ in status, completion time and
    result only: all the records a submission writes to the job store carry
    the same id, the same creation time and the submitted configuration. *)
Theorem records_of_a_job_keep_id_and_config
    (config : JobConfig) (w : World) (new : list Event) :
  trail (snd (postJob config w)) = trail w ++ new ->
  exists jobId createdAt,
    Forall (fun job => j_id job = jobId /\ j_config job = config
                       /\ j_createdAt job = createdAt)
           (written new).
Proof.
  intros Hnew. destruct (postJob_sound_writes config w new Hnew) as (jobId & c & F).
  exists jobId, c. eapply Forall_impl; [exact F|].
  intros job (Hid & Hcfg & Hc & _). auto.
Qed.

Lemma records_of_a_job_keep_id_and_config_witness :
  exists jobId createdAt,
    Forall (fun job => j_id job = jobId /\ j_config job = exampleJob
                       /\ j_createdAt job = createdAt)
           (written submittedTrail).
Proof.
  apply (records_of_a_job_keep_id_and_config exampleJob submissionWorld).
  vm_compute. reflexivity.
Defined.

(** X27.  In every record a submission writes, the status agrees with the
    result: a [completed] record carries a result of status [success] with
    statistics and no error; a [failed] record carries a result of status
    [fail] with an error and no statistics, whether the runner returned it
    or the task's own handler built it; a record without a result is
    [pending] or [running]. *)
Theorem stored_status_agrees_with_result
    (config : JobConfig) (w : World) (new : list Event) :
  trail (snd (postJob config w)) = trail w ++ new ->
  Forall agrees (written new).
Proof.
  intros Hnew. destruct (postJob_sound_writes config w new Hnew) as (jobId & c & F).
  eapply Forall_impl; [exact F|]. intros job (_ & _ & _ & H). exact H.
Qed.

Lemma stored_status_agrees_with_result_witness :
  Forall agrees (written submittedTrail).
Proof.
  apply (stored_status_agrees_with_result exampleJob submissionWorld).
  vm_compute. reflexivity.
Defined.

Lemma wp_now_calm (Q : Z -> World -> Prop) E w :
  calm w ->
  (forall t w', calm w' -> jobsKV w' = jobsKV w -> Q t w') ->
  wp now Q E w.
Proof.
  intros Hc HQ. unfold wp, now. destruct (clock w); apply HQ; auto.
Qed.

Lemma wp_storeJob_calm job (Q : unit -> World -> Prop) E w :
  calm w ->
  (forall w', calm w' ->
              jobsKV w' = <["job:" +:+ j_id job := job]> (jobsKV w) -> Q tt w') ->
  wp (storeJob job) Q E w.
Proof.
  intros Hc HQ. unfold storeJob. apply wp_bind, wp_await_calm; [exact Hc|].
  intros _ w1 Hc1 (_ & _ & J & _). apply wp_modify, HQ; [exact Hc1|].
  simpl. rewrite J. reflexivity.
Qed.

Lemma wp_run_calm id config (Q : JobResult -> World -> Prop) E w :
  Forall (fun action => blindExpect action = false) (actions config) -> calm w ->
  (forall res w', calm w' -> jobsKV w' = jobsKV w -> r_status res = success ->
                  ResultFacts id config res -> Q res w') ->
  wp (executePlaywrightSequence id config) Q E w.
Proof.
  intros Hall Hc HQ. unfold wp.
  destruct (executePlaywrightSequence_plan id config w Hall Hc)
    as (res & w' & new & Hrun & Hok & Hc' & _).
  destruct (executePlaywrightSequence_spec id config w) as (res' & w'' & Hrun' & Hpost).
  rewrite Hrun. rewrite Hrun in Hrun'. injection Hrun' as <- <-.
  apply HQ; [exact Hc' | exact (ext_jobs _ _ (post_ext _ _ _ _ _ Hpost)) | exact Hok |].
  exact (facts_of_run _ _ _ _ _ Hrun).
Qed.

Lemma backgroundTask_calm job config w :
  Forall (fun action => blindExpect action = false) (actions config) -> calm w ->
  wp (backgroundTask job config)
     (fun _ w' =>
        exists completedAt res,
          getJob (j_id job) w' = Some (finished job completed completedAt res)
          /\ r_status res = success /\ ResultFacts (j_id job) config res
          /\ forall other, other <> j_id job -> getJob other w' = getJob other w)
     (fun _ _ => False) w.
Proof.
  intros Hall H. unfold backgroundTask.
  apply wp_try_calm.
  apply wp_bind, (wp_storeJob_calm _ _ _ _ H). intros w1 H1 J1.
  apply wp_bind, (wp_run_calm _ _ _ _ _ Hall H1). intros res w2 H2 J2 Hok Hres.
  apply wp_bind, (wp_now_calm _ _ _ H2). intros c w3 H3 J3.
  apply (wp_storeJob_calm _ _ _ _ H3). intros w4 H4 J4.
  destruct (decide (r_status res = success)); [|contradiction].
  exists c, res. unfold getJob. rewrite J4. simpl.
  split; [apply lookup_insert_eq|]. split; [exact Hok|]. split; [exact Hres|].
  intros other Hne.
  assert (Hk : "job:" +:+ j_id job <> "job:" +:+ other).
  { intros Heq. apply (String.app_inj "job:") in Heq. congruence. }
  rewrite lookup_insert_ne, J3, J2, J1 by exact Hk. simpl.
  rewrite lookup_insert_ne by exact Hk. reflexivity.
Qed.

(** X28.  Only failures make a job fail.  For a body the schema accepts
    whose actions are not [expect]s without a locator, in a world in which
    no awaited call throws: the submission is answered 202, and once the
    detached task has run, [GET] of the job answers 200 with a record of
    status [completed] whose result is a success and whose trace lists
    every configured action as a successful step. *)
Theorem calm_submission_completes (config : JobConfig) (w : World) :
  jobConfigSchema config = true ->
  Forall (fun action => blindExpect action = false) (actions config) ->
  calm w ->
  let (r, w') := postJob config w in
  let jobId := default nil_uuid (head (uuids w)) in
  r = Returned (Json 202 (AcceptedBody jobId "pending" "Test job submitted successfully"))
  /\ exists job res tr,
       getJobRoute jobId w' = Json 200 (JobBody job)
       /\ j_status job = completed /\ j_result job = Some res
       /\ r_status res = success /\ r_trace res = Some tr
       /\ Forall2 StepOk (actions config) (steps tr).
Proof.
  intros Hs Hall H.
  assert (Hwp : wp (postJob config)
                  (fun r w' =>
                     r = Json 202 (AcceptedBody (default nil_uuid (head (uuids w)))
                                     "pending" "Test job submitted successfully")
                     /\ exists job res tr,
                          getJobRoute (default nil_uuid (head (uuids w))) w'
                          = Json 200 (JobBody job)
                          /\ j_status job = completed /\ j_result job = Some res
                          /\ r_status res = success /\ r_trace res = Some tr
                          /\ Forall2 StepOk (actions config) (steps tr))
                  (fun _ _ => False) w).
  { unfold postJob. rewrite Hs. cbn [negb].
    apply wp_try_calm.
    apply wp_bind. unfold wp at 1, randomUUID.
    assert (Hu : forall w1, calm w1 ->
               wp (createdAt <- now ;;
                   (let job := {| j_id := default nil_uuid (head (uuids w));
                                  j_status := pending; j_createdAt := createdAt;
                                  j_completedAt := None; j_config := config;
                                  j_result := None |} in
                    _ <- storeJob job ;;
                    _ <- try_catch (backgroundTask job config) (fun _ => ret tt) ;;
                    ret (Json 202 (AcceptedBody (default nil_uuid (head (uuids w)))
                                     "pending" "Test job submitted successfully"))))
                  (fun r w' =>
                     r = Json 202 (AcceptedBody (default nil_uuid (head (uuids w)))
                                     "pending" "Test job submitted successfully")
                     /\ exists job res tr,
                          getJobRoute (default nil_uuid (head (uuids w))) w'
                          = Json 200 (JobBody job)
                          /\ j_status job = completed /\ j_result job = Some res
                          /\ r_status res = success /\ r_trace res = Some tr
                          /\ Forall2 StepOk (actions config) (steps tr))
                  (fun _ _ => False) w1).
    { intros w1 H1. apply wp_bind, (wp_now_calm _ _ _ H1). intros c w2 H2 _.
      cbv zeta. apply wp_bind, (wp_storeJob_calm _ _ _ _ H2). intros w3 H3 _.
      apply wp_bind, wp_try_calm.
      eapply wp_mono; [apply (backgroundTask_calm _ _ _ Hall H3) | | auto].
      cbn beta. intros _ w4 (cAt & res & Hget & Hok & Hres & _). apply wp_ret.
      split; [reflexivity|].
      destruct (rf_trace _ _ _ Hres) as (tr & Htr & _ & Hall' & _).
      eexists _, res, tr. unfold getJobRoute. simpl in Hget. rewrite Hget.
      split; [reflexivity|]. split; [reflexivity|]. split; [reflexivity|].
      split; [exact Hok|]. split; [exact Htr|]. apply Hall', Hok. }
    destruct (uuids w) as [|u rest]; apply Hu; exact H. }
  unfold wp in Hwp. destruct (postJob config w) as [[r|e] w']; [|contradiction].
  destruct Hwp as [-> Hrest]. split; [reflexivity | exact Hrest].
Qed.

Lemma calm_submission_completes_witness :
  let (r, w') := postJob exampleJob submissionWorld in
  let jobId := default nil_uuid (head (uuids submissionWorld)) in
  r = Returned (Json 202 (AcceptedBody jobId "pending" "Test job submitted successfully"))
  /\ exists job res tr,
       getJobRoute jobId w' = Json 200 (JobBody job)
       /\ j_status job = completed /\ j_result job = Some res
       /\ r_status res = success /\ r_trace res = Some tr
       /\ Forall2 StepOk (actions exampleJob) (steps tr).
Proof.
  apply (calm_submission_completes exampleJob submissionWorld).
  - reflexivity.
  - repeat constructor.
  - repeat constructor.
Defined.
